(** * Rate-limited task queue: admission control, per-user lock and spacing

    A shallow embedding of the Node.js service of this repository
    (the clustered express application with its Bull processor) and the
    verification of its specification.

    - [Store]: the Redis commands the service issues, on a finite map with
      per-key expiry.
    - [Keys]: the key templates of the four key families.
    - [Eff]: a small state-and-exception monad for the awaited calls of a
      handler (every awaited call may reject, which is how an unavailable
      store shows up in the code).
    - [Admission]: the [POST /task] handler, as one function and as a
      machine that advances one awaited call at a time.
    - [Lock]: [acquireLock] and [releaseLock].
    - [Worker]: the [taskQueue.process] callback as a machine that advances
      one awaited call at a time.
    - [Cluster]: any number of such callbacks and of request handlers
      interleaved over one store, one queue and one clock.
    - [Observe], [Spacing], [Spec], [Scenarios]: what the statements count,
      the invariant behind the spacing of executions, the spacing wait in
      the words of the specification, and example schedules.
    - [Connection], [Master], [Log], [Standalone]: the reconnection
      back-off, the master process and its replicas, the task with its
      log file, and the stand-alone worker.
    - [Tally]: what the further statements count.

    Times are milliseconds as returned by [Date.now()]; they are far below
    2^53, so the double arithmetic of JavaScript is exact and [Z] models it.
    All replicas and the store read one clock (the replicas are forked on
    one host).  The stand-alone [worker.js] is not started by the
    application; it is modelled on its own in [Standalone]. *)

From Stdlib Require Import ZArith Lia List Ascii.
From stdpp Require Import gmap strings pretty list.

Open Scope Z_scope.

(* ===================================================================== *)
(** ** The store: Redis values, expiry and commands *)
(* ===================================================================== *)

Module Store.

(** A Redis value is a string.  The keys of the model are the keys of
    the service (the four templates of [Keys]), and their values are
    the strings the service writes there: decimal integers (counters,
    [Date.now()] stamps), ["locked"] and ["true"] ([redis.set(key, true)]
    sends the string).  [RInt n] stands for the decimal string of [n].
    Nothing else writes to these keys. *)
Inductive rvalue : Type :=
| RInt (n : Z)
| RLocked
| RTrue.

(** An entry carries the absolute time (ms) at which it expires, if any. *)
Record entry : Type := Entry { value : rvalue; expiry : option Z }.

Abbreviation store := (gmap string entry).

(** A key with a time to live is gone once the clock reaches its expiry. *)
Definition live (t : Z) (e : entry) : bool :=
  match expiry e with
  | None => true
  | Some x => t <? x
  end.

(** What the store holds under [k] at time [t]. *)
Definition find (t : Z) (k : string) (s : store) : option entry :=
  match s !! k with
  | Some e => if live t e then Some e else None
  | None => None
  end.

(** [GET k]: the value, or [None] for JavaScript's [null]. *)
Definition get (t : Z) (k : string) (s : store) : option rvalue :=
  value <$> find t k s.

(** [SET k v]: overwrite, dropping any time to live. *)
Definition set (k : string) (v : rvalue) (s : store) : store :=
  <[k := Entry v None]> s.

(** [SET k v EX sec]. *)
Definition set_ex (t : Z) (k : string) (v : rvalue) (sec : Z) (s : store)
  : store :=
  <[k := Entry v (Some (t + 1000 * sec))]> s.

(** [SET k v NX EX sec]: write only when [k] is absent; the reply is
    ["OK"] ([true]) or [null] ([false]). *)
Definition set_nx_ex (t : Z) (k : string) (v : rvalue) (sec : Z) (s : store)
  : bool * store :=
  match find t k s with
  | Some _ => (false, s)
  | None => (true, set_ex t k v sec s)
  end.

(** [INCR k]: an absent key counts from 0; the time to live is kept; a
    value that is not an integer is an error. *)
Definition incr (t : Z) (k : string) (s : store) : option (Z * store) :=
  match find t k s with
  | None => Some (1, <[k := Entry (RInt 1) None]> s)
  | Some (Entry (RInt n) x) => Some (n + 1, <[k := Entry (RInt (n + 1)) x]> s)
  | Some (Entry _ _) => None
  end.

(** [EXPIRE k sec]: set the time to live of an existing key. *)
Definition expire (t : Z) (k : string) (sec : Z) (s : store) : bool * store :=
  match find t k s with
  | Some e => (true, <[k := Entry (value e) (Some (t + 1000 * sec))]> s)
  | None => (false, s)
  end.

(** [DEL k]. *)
Definition del (k : string) (s : store) : store := delete k s.

(** JavaScript truthiness of a [GET] reply: [null] is falsy, a string
    that is not empty is truthy (["0"] included). *)
Definition truthy (v : option rvalue) : bool :=
  match v with
  | None => false
  | Some _ => true
  end.

(** Numeric coercion of a reply in [now - lastExecutionTime]; [None] is
    [NaN], which is what the two words give. *)
Definition to_number (v : rvalue) : option Z :=
  match v with
  | RInt n => Some n
  | RLocked | RTrue => None
  end.

End Store.
Export Store.

(* ===================================================================== *)
(** ** Key templates *)
(* ===================================================================== *)

Module Keys.

(** [`lock:${user_id}`] *)
Definition lockKey (user_id : string) : string := "lock:" +:+ user_id.

(** [`lastExecution:${user_id}`] *)
Definition lastExecutionKey (user_id : string) : string :=
  "lastExecution:" +:+ user_id.

(** [`rateLimitExceeded:${user_id}`] *)
Definition flagKey (user_id : string) : string :=
  "rateLimitExceeded:" +:+ user_id.

(** [`rateLimit:${user_id}:${currentMinute}`] *)
Definition redisKey (user_id : string) (currentMinute : Z) : string :=
  "rateLimit:" +:+ user_id +:+ ":" +:+ pretty currentMinute.

(** Does a string contain a colon? *)
Fixpoint has_colon (s : string) : bool :=
  match s with
  | EmptyString => false
  | String c s' => if Ascii.eqb c ":"%char then true else has_colon s'
  end.

End Keys.
Export Keys.

(* ===================================================================== *)
(** ** Effects of a handler *)
(* ===================================================================== *)

Module Eff.

(** A queue item: [taskQueue.add({ user_id }, { delay })]. *)
Record job : Type := Job { job_user : string; job_delay : option Z }.

(** The awaited calls. *)
Inductive command : Type :=
| GET (k : string)
| SET (k : string) (v : rvalue)
| SETEX (k : string) (v : rvalue) (sec : Z)
| SETNXEX (k : string) (v : rvalue) (sec : Z)
| INCR (k : string)
| EXPIRE (k : string) (sec : Z)
| DEL (k : string)
| ADD (j : job)
| TASK (user_id : string).

(** A call that was issued, and whether it resolved. *)
Record event : Type := Event { issued : command; resolved : bool }.

(** Everything the handlers of all replicas share.  [outages] scripts the
    environment: each awaited call consumes its head, and [true] makes
    that call reject without any effect (store or queue unreachable,
    file system error for the task); the empty script means no more
    failures.  [history] lists the calls issued, latest first, and
    [invocations] the Task Executor invocations with their times, latest
    first. *)
Record world : Type := World {
  clock : Z;
  redis : gmap string entry;
  taskQueue : list job;
  invocations : list (string * Z);
  outages : list bool;
  history : list event
}.

Definition set_clock (t : Z) (w : world) : world :=
  World t (redis w) (taskQueue w) (invocations w) (outages w) (history w).

Definition set_outages (o : list bool) (w : world) : world :=
  World (clock w) (redis w) (taskQueue w) (invocations w) o (history w).

Definition set_taskQueue (q : list job) (w : world) : world :=
  World (clock w) (redis w) q (invocations w) (outages w) (history w).

(** A fresh deployment: empty Redis, empty queue. *)
Definition fresh (t : Z) (o : list bool) : world := World t ∅ [] [] o [].

Inductive result (A : Type) : Type :=
| Ok (a : A)
| Throw.
Arguments Ok {A} a.
Arguments Throw {A}.

Definition M (A : Type) : Type := world -> result A * world.

Definition ret {A} (a : A) : M A := fun w => (Ok a, w).

Definition bind {A B} (m : M A) (k : A -> M B) : M B := fun w =>
  match m w with
  | (Ok a, w') => k a w'
  | (Throw, w') => (Throw, w')
  end.

(** [try { m } catch (err) { h }] *)
Definition try_catch {A} (m : M A) (h : M A) : M A := fun w =>
  match m w with
  | (Ok a, w') => (Ok a, w')
  | (Throw, w') => h w'
  end.

(** [Date.now()] *)
Definition Date_now : M Z := fun w => (Ok (clock w), w).

(** One awaited call: consult the script, then run the command on the
    shared state at the current time.  [run] yields [None] when the
    command itself is an error. *)
Definition await {A} (c : command) (run : world -> option (A * world))
  : M A := fun w =>
  let down := match outages w with [] => false | b :: _ => b end in
  let w1 := set_outages (tail (outages w)) w in
  let failed :=
    World (clock w1) (redis w1) (taskQueue w1) (invocations w1) (outages w1)
          (Event c false :: history w1) in
  if down then (Throw, failed)
  else match run w1 with
       | Some (a, w2) =>
           (Ok a, World (clock w2) (redis w2) (taskQueue w2) (invocations w2)
                        (outages w2) (Event c true :: history w2))
       | None => (Throw, failed)
       end.

Definition on_redis {A} (f : Z -> gmap string entry -> option (A * gmap string entry))
  (w : world) : option (A * world) :=
  match f (clock w) (redis w) with
  | Some (a, s) =>
      Some (a, World (clock w) s (taskQueue w) (invocations w) (outages w)
                     (history w))
  | None => None
  end.

Definition redis_get (k : string) : M (option rvalue) :=
  await (GET k) (on_redis (fun t s => Some (get t k s, s))).

Definition redis_set (k : string) (v : rvalue) : M unit :=
  await (SET k v) (on_redis (fun t s => Some (tt, set k v s))).

Definition redis_set_ex (k : string) (v : rvalue) (sec : Z) : M unit :=
  await (SETEX k v sec) (on_redis (fun t s => Some (tt, set_ex t k v sec s))).

Definition redis_set_nx_ex (k : string) (v : rvalue) (sec : Z) : M bool :=
  await (SETNXEX k v sec) (on_redis (fun t s => Some (set_nx_ex t k v sec s))).

Definition redis_incr (k : string) : M Z :=
  await (INCR k) (on_redis (fun t s => incr t k s)).

Definition redis_expire (k : string) (sec : Z) : M bool :=
  await (EXPIRE k sec) (on_redis (fun t s => Some (expire t k sec s))).

Definition redis_del (k : string) : M unit :=
  await (DEL k) (on_redis (fun t s => Some (tt, del k s))).

(** [taskQueue.add(data, opts)]: the item goes to the back of the queue. *)
Definition taskQueue_add (j : job) : M unit :=
  await (ADD j) (fun w =>
    Some (tt, World (clock w) (redis w) (taskQueue w ++ [j]) (invocations w)
                    (outages w) (history w))).

End Eff.
Export Eff.

Notation "x <- m ;; k" := (bind m (fun x => k))
  (at level 100, m at next level, right associativity).
Notation "m ;;; k" := (bind m (fun _ => k))
  (at level 100, right associativity).

(* ===================================================================== *)
(** ** Admission: the POST /task handler *)
(* ===================================================================== *)

Module Admission.

(** [rateLimitConfig] *)
Definition tasksPerSecond : Z := 1.
Definition tasksPerMinute : Z := 20.

Record response : Type := Response { status : Z; body : string }.

Definition bad_request : response := Response 400 "User ID is required".
Definition delayed : response :=
  Response 429 "Rate limit exceeded, task delayed to next minute.".
Definition queued : response := Response 200 "Task queued successfully".
Definition server_error : response := Response 500 "Internal server error".

(** [!user_id] for the [user_id] of the JSON body: [None] is a missing
    field, and the empty string is falsy as well. *)
Definition missing (user_id : option string) : bool :=
  match user_id with
  | None => true
  | Some s => if decide (s = EmptyString) then true else false
  end.

(** The body of the [try] block. *)
Definition try_block (user_id : string) : M response :=
  currentTime <- Date_now ;;
  let currentMinute := currentTime / 60000 in
  let redisKey := redisKey user_id currentMinute in
  rateLimitExceeded <- redis_get (flagKey user_id) ;;
  if truthy rateLimitExceeded then
    let delayTime := 60000 - Z.rem currentTime 60000 in
    taskQueue_add (Job user_id (Some delayTime)) ;;;
    ret delayed
  else
    taskCount <- redis_incr redisKey ;;
    (if taskCount =? 1 then redis_expire redisKey 60 else ret true) ;;;
    if taskCount >? tasksPerMinute then
      redis_set_ex (flagKey user_id) RTrue 60 ;;;
      let delayTime := 60000 - Z.rem currentTime 60000 in
      taskQueue_add (Job user_id (Some delayTime)) ;;;
      ret delayed
    else
      taskQueue_add (Job user_id None) ;;;
      ret queued.

(** [app.post("/task", ...)]: validation, then the [try] block, whose
    [catch] answers 500. *)
Definition post_task (user_id : option string) (w : world)
  : response * world :=
  if missing user_id then (bad_request, w)
  else
    match try_catch (try_block (default EmptyString user_id)) (ret server_error) w with
    | (Ok r, w') => (r, w')
    | (Throw, w') => (server_error, w')
    end.

(** The same handler, one awaited call at a time: the call that a request
    is waiting for, with the [taskCount] it was given once [redis.incr]
    has answered ([taskCount] is a local of the handler up to its last
    [console.log]; in [Answered] it is bookkeeping). *)
Inductive stage : Type :=
| ReadFlag
| Increment
| Expire (taskCount : Z)
| SetFlag (taskCount : Z)
| AddDelayed (taskCount : option Z)
| AddNow (taskCount : Z)
| Answered (r : response) (taskCount : option Z).

(** A request being handled: [user_id], [currentTime] and where it is. *)
Record handler : Type := Handler {
  caller : string;
  currentTime : Z;
  at_stage : stage
}.

Definition ticket (s : stage) : option Z :=
  match s with
  | Expire n | SetFlag n | AddNow n => Some n
  | AddDelayed t | Answered _ t => t
  | ReadFlag | Increment => None
  end.

(** [if (taskCount > rateLimitConfig.tasksPerMinute)] *)
Definition over_or_under (taskCount : Z) : stage :=
  if taskCount >? tasksPerMinute then SetFlag taskCount else AddNow taskCount.

(** The code of the [try] block between one [await] and the next. *)
Definition proceed (user_id : string) (currentTime : Z) (s : stage) : M stage :=
  let currentMinute := currentTime / 60000 in
  let redisKey := redisKey user_id currentMinute in
  let delayTime := 60000 - Z.rem currentTime 60000 in
  match s with
  | ReadFlag =>
      rateLimitExceeded <- redis_get (flagKey user_id) ;;
      ret (if truthy rateLimitExceeded then AddDelayed None else Increment)
  | Increment =>
      taskCount <- redis_incr redisKey ;;
      ret (if taskCount =? 1 then Expire taskCount
           else over_or_under taskCount)
  | Expire taskCount =>
      redis_expire redisKey 60 ;;;
      ret (over_or_under taskCount)
  | SetFlag taskCount =>
      redis_set_ex (flagKey user_id) RTrue 60 ;;;
      ret (AddDelayed (Some taskCount))
  | AddDelayed taskCount =>
      taskQueue_add (Job user_id (Some delayTime)) ;;;
      ret (Answered delayed taskCount)
  | AddNow taskCount =>
      taskQueue_add (Job user_id None) ;;;
      ret (Answered queued (Some taskCount))
  | Answered r taskCount => ret (Answered r taskCount)
  end.

(** One awaited call of a handler settles; the [catch] answers 500. *)
Definition advance (h : handler) (w : world) : option (handler * world) :=
  match at_stage h with
  | Answered _ _ => None
  | s =>
      match try_catch (proceed (caller h) (currentTime h) s)
                      (ret (Answered server_error None)) w with
      | (Ok s', w') => Some (Handler (caller h) (currentTime h) s', w')
      | (Throw, w') =>
          Some (Handler (caller h) (currentTime h)
                        (Answered server_error None), w')
      end
  end.

(** A request comes in at time [t]: validation, and [Date.now()]. *)
Definition arrive (user_id : option string) (t : Z) : handler :=
  Handler (default EmptyString user_id) t
          (if missing user_id then Answered bad_request None else ReadFlag).

(** What the client of a handler gets. *)
Definition answer (h : handler) : response :=
  match at_stage h with
  | Answered r _ => r
  | _ => server_error
  end.

(** A handler on its own, to its answer. *)
Fixpoint settle (fuel : nat) (h : handler) (w : world) : handler * world :=
  match fuel with
  | O => (h, w)
  | S fuel' =>
      match advance h w with
      | Some (h', w') => settle fuel' h' w'
      | None => (h, w)
      end
  end.

(** A request as it reaches one replica: the body's [user_id] and the
    value of [Date.now()] when the handler runs. *)
Definition call : Type := option string * Z.

(** The handlers of a list of requests, run one after the other on the
    shared state. *)
Fixpoint serve (cs : list call) (w : world) : list response * world :=
  match cs with
  | [] => ([], w)
  | (user_id, t) :: cs' =>
      let (r, w1) := post_task user_id (set_clock t w) in
      let (rs, w2) := serve cs' w1 in
      (r :: rs, w2)
  end.

End Admission.
Export Admission.

(* ===================================================================== *)
(** ** The per-user lock *)
(* ===================================================================== *)

Module Lock.

(** [acquireLock]: [SET lock:user "locked" NX EX 5], and [lock === "OK"]. *)
Definition acquireLock (user_id : string) : M bool :=
  let lockKey := lockKey user_id in
  lock <- redis_set_nx_ex lockKey RLocked 5 ;;
  ret lock.

(** [releaseLock]: [DEL lock:user]. *)
Definition releaseLock (user_id : string) : M unit :=
  let lockKey := lockKey user_id in
  redis_del lockKey.


End Lock.
Export Lock.

(* ===================================================================== *)
(** ** The queue processor *)
(* ===================================================================== *)

Module Worker.

(** How Bull sees the end of a callback: its promise resolved (the job is
    completed) or rejected (the job is failed and handed to the retry
    policy). *)
Inductive job_result : Type :=
| Completed
| Failed.

(** Where one run of the [taskQueue.process] callback stands: the awaited
    call or timer it is waiting for, with the locals that are live there.
    [since] is bookkeeping, the time at which this run obtained the lock;
    the callback never reads it. *)
Inductive pc : Type :=
| Acquire
| RetrySleep (wake : Z)
| GetLast (since : Z)
| ReadNow (since : Z) (lastExecutionTime : option rvalue)
| SpacingSleep (since wake : Z)
| Running (since : Z)
| SetLast (since : Z) (stamp : Z)
| Release (since : Z)
| Done (r : job_result).

Record thread : Type := Thread { job_data : string; at_pc : pc }.

Definition lease_start (p : pc) : option Z :=
  match p with
  | GetLast since | ReadNow since _ | SpacingSleep since _ | Running since
  | SetLast since _ | Release since => Some since
  | Acquire | RetrySleep _ | Done _ => None
  end.

(** The pause before the task: [None] is no [sleep] at all.
    [Math.max(NaN, 0)] is [NaN] and [NaN > 0] is false. *)
Definition spacing_delay (lastExecutionTime : option rvalue) (now : Z)
  : option Z :=
  if truthy lastExecutionTime then
    match lastExecutionTime ≫= to_number with
    | Some last =>
        let elapsedTime := now - last in
        let delay := Z.max (1000 - elapsedTime) 0 in
        if delay >? 0 then Some delay else None
    | None => None
    end
  else None.

(** The call of [task(user_id)]: the invocation is observed at once. *)
Definition invoke (user_id : string) : M unit := fun w =>
  (Ok tt, World (clock w) (redis w) (taskQueue w)
                ((user_id, clock w) :: invocations w) (outages w) (history w)).

(** The promise of [task(user_id)] settles. *)
Definition task_settles (user_id : string) : M unit :=
  await (TASK user_id) (fun w => Some (tt, w)).

(** [sleep(ms)] is [new Promise((resolve) => setTimeout(resolve, ms))]:
    the promise resolves when the timer fires, [timeout ms] milliseconds
    after the call.  Node sets a delay that is not between 1 and
    2^31 - 1 to 1. *)
Definition TIMEOUT_MAX : Z := 2147483647.

Definition timeout (ms : Z) : Z :=
  if (1 <=? ms) && (ms <=? TIMEOUT_MAX) then ms else 1.

(** A timer fires no earlier than asked; a finished run does not move. *)
Definition enabled (p : pc) (t : Z) : bool :=
  match p with
  | RetrySleep wake | SpacingSleep _ wake => wake <=? t
  | Done _ => false
  | _ => true
  end.

(** The code between one suspension point and the next.

    - [Acquire]: [await acquireLock(user_id)], first try or retry; on
      [false] the loop calls [sleep(100)].
    - [RetrySleep]: the timer of [sleep(100)] has fired, the loop tries
      again.
    - [GetLast]: [await redis.get(lastExecutionKey)].
    - [ReadNow]: [const now = Date.now()] and the [if]; either
      [sleep(delay)] is called or [task(user_id)] is.
    - [SpacingSleep]: the timer has fired, [task(user_id)] is called.
    - [Running]: the task has settled; when it resolved, [Date.now()] is
      read for the stamp and [redis.set] is issued.
    - [SetLast]: the [SET] of the stamp reaches the store.
    - [Release]: [await releaseLock(user_id)]. *)
Definition next (user_id : string) (p : pc) : M pc :=
  match p with
  | Acquire =>
      lockAcquired <- acquireLock user_id ;;
      now <- Date_now ;;
      ret (if lockAcquired then GetLast now
           else RetrySleep (now + timeout 100))
  | RetrySleep _ => ret Acquire
  | GetLast since =>
      lastExecutionTime <- redis_get (lastExecutionKey user_id) ;;
      ret (ReadNow since lastExecutionTime)
  | ReadNow since lastExecutionTime =>
      now <- Date_now ;;
      match spacing_delay lastExecutionTime now with
      | Some delay => ret (SpacingSleep since (now + timeout delay))
      | None => invoke user_id ;;; ret (Running since)
      end
  | SpacingSleep since _ => invoke user_id ;;; ret (Running since)
  | Running since =>
      task_settles user_id ;;;
      now <- Date_now ;;
      ret (SetLast since now)
  | SetLast since stamp =>
      redis_set (lastExecutionKey user_id) (RInt stamp) ;;;
      ret (Release since)
  | Release since =>
      releaseLock user_id ;;;
      ret (Done Completed)
  | Done r => ret (Done r)
  end.

(** One move of a run; the [catch] block logs and returns, so the promise
    of the callback resolves.  An error that escaped the callback would
    reject it, and Bull would mark the job failed. *)
Definition step (th : thread) (w : world) : option (thread * world) :=
  if enabled (at_pc th) (clock w) then
    match try_catch (next (job_data th) (at_pc th)) (ret (Done Completed)) w with
    | (Ok p, w') => Some (Thread (job_data th) p, w')
    | (Throw, w') => Some (Thread (job_data th) (Done Failed), w')
    end
  else None.

(** One run on its own: timers are waited out, nothing else happens. *)
Fixpoint process (fuel : nat) (th : thread) (w : world) : thread * world :=
  match fuel with
  | O => (th, w)
  | S fuel' =>
      let w1 :=
        match at_pc th with
        | RetrySleep wake | SpacingSleep _ wake =>
            set_clock (Z.max wake (clock w)) w
        | _ => w
        end in
      match step th w1 with
      | Some (th', w') => process fuel' th' w'
      | None => (th, w1)
      end
  end.

End Worker.
Export Worker.

(* ===================================================================== *)
(** ** Replicas: runs of the processor interleaved on one store *)
(* ===================================================================== *)

Module Cluster.

Record config : Type := Config {
  shared : world;
  runs : list thread;
  calls : list handler
}.

(** Time passes; one run of the processor makes its next move; a request
    comes in; the handler of a request gets the answer to its awaited
    call; a replica takes an item from the queue and starts a run; the
    queue delivers once more the job that run [i] was started for. *)
Inductive label : Type :=
| Tick (d : Z)
| Move (i : nat)
| Arrive (user_id : option string)
| Step (i : nat)
| Take (k : nat)
| Again (i : nat).

(** The lease lasts 5 s and the spacing is 1 s: a run is prompt at time
    [t] when it holds no lock or obtained it at most 4 s ago. *)
Definition prompt (th : thread) (t : Z) : bool :=
  match lease_start (at_pc th) with
  | Some since => t <=? since + 4000
  | None => true
  end.

(** The [INCR] of a handler is timely at time [t] when [t] is still in
    the window in which the handler read [Date.now()]. *)
Definition timely (h : handler) (t : Z) : bool :=
  match at_stage h with
  | Increment => t / 60000 =? currentTime h / 60000
  | _ => true
  end.

(** What a statement assumes about timing: that only prompt runs move,
    that only timely handlers increment. *)
Record timing : Type := Timing { prompt_runs : bool; timely_calls : bool }.

Definition unrestricted : timing := Timing false false.

(** Any item of the queue may be taken at any time, which covers delayed
    items in whatever order Bull hands them out.  Delivery is at least
    once: a job that was handed out may be handed out again at any time
    (Bull gives a job whose worker stalled to another worker), whatever
    has become of its earlier runs. *)
Definition fire (tm : timing) (l : label) (c : config) : option config :=
  let w := shared c in
  match l with
  | Tick d =>
      if 0 <=? d
      then Some (Config (set_clock (clock w + d) w) (runs c) (calls c))
      else None
  | Move i =>
      match runs c !! i with
      | Some th =>
          if prompt_runs tm && negb (prompt th (clock w)) then None
          else match step th w with
               | Some (th', w') =>
                   Some (Config w' (<[i := th']> (runs c)) (calls c))
               | None => None
               end
      | None => None
      end
  | Arrive user_id =>
      Some (Config w (runs c) (calls c ++ [arrive user_id (clock w)]))
  | Step i =>
      match calls c !! i with
      | Some h =>
          if timely_calls tm && negb (timely h (clock w)) then None
          else match advance h w with
               | Some (h', w') =>
                   Some (Config w' (runs c) (<[i := h']> (calls c)))
               | None => None
               end
      | None => None
      end
  | Take k =>
      match taskQueue w !! k with
      | Some j =>
          Some (Config (set_taskQueue (delete k (taskQueue w)) w)
                       (runs c ++ [Thread (job_user j) Acquire]) (calls c))
      | None => None
      end
  | Again i =>
      match runs c !! i with
      | Some th =>
          Some (Config w (runs c ++ [Thread (job_data th) Acquire])
                       (calls c))
      | None => None
      end
  end.

Fixpoint exec (tm : timing) (ls : list label) (c : config) : option config :=
  match ls with
  | [] => Some c
  | l :: ls' =>
      match fire tm l c with
      | Some c' => exec tm ls' c'
      | None => None
      end
  end.

(** Jobs just taken from the queue, on any state of the store, and no
    request in flight. *)
Definition start (w : world) (users : list string) : config :=
  Config w (map (fun u => Thread u Acquire) users) [].

(** Any two invocations for one user are at least 1000 ms apart. *)
Definition spaced (inv : list (string * Z)) : Prop :=
  forall i j u ti tj,
    i <> j -> inv !! i = Some (u, ti) -> inv !! j = Some (u, tj) ->
    1000 <= Z.abs (ti - tj).

End Cluster.
Export Cluster.


(* ===================================================================== *)
(** ** Observations and invariants used in the statements *)
(* ===================================================================== *)

Module Observe.

(** The window counter of a user as stored, 0 when there is none. *)
Definition counter (u : string) (m : Z) (s : store) : Z :=
  match s !! redisKey u m with
  | Some (Entry (RInt n) _) => n
  | _ => 0
  end.

(** Is this a call of user [u] stamped in window [m]? *)
Definition in_window (u : string) (m : Z) (c : call) : bool :=
  match c with
  | (Some u', t) => bool_decide (u' = u) && (t / 60000 =? m)
  | (None, _) => false
  end.

(** The number of calls of [u] stamped in window [m] answered 200. *)
Fixpoint accepted (u : string) (m : Z) (cs : list call) (rs : list response)
  : nat :=
  match cs, rs with
  | c :: cs', r :: rs' =>
      let hit := in_window u m c && (status r =? 200) in
      ((if hit then 1 else 0) + accepted u m cs' rs')%nat
  | _, _ => 0%nat
  end.

(** Is this the handler of a request of user [u] stamped in window [m]
    that was answered 200? *)
Definition accepted_call (u : string) (m : Z) (h : handler) : bool :=
  bool_decide (caller h = u) && (currentTime h / 60000 =? m) &&
  match at_stage h with
  | Answered r _ => status r =? 200
  | _ => false
  end.

(** The count such a handler holds. *)
Definition winning (u : string) (m : Z) (h : handler) : option Z :=
  if accepted_call u m h then ticket (at_stage h) else None.

(** The number of such handlers. *)
Definition accepted_calls (u : string) (m : Z) (hs : list handler) : nat :=
  length (List.filter (accepted_call u m) hs).


(** Every window counter is a non-negative integer that outlives its
    window. *)
Definition rate_ok (s : store) : Prop :=
  forall u m e, s !! redisKey u m = Some e ->
    (exists n, value e = RInt n /\ 0 <= n) /\
    (forall x, expiry e = Some x -> 60000 * (m + 1) <= x).

(** The counts handed out in one window are all different, none is above
    the counter, and a handler on its way to 200 holds one of the first
    twenty. *)
Record fair (c : config) : Prop := Fair {
  fair_rate : rate_ok (redis (shared c));
  fair_time : forall i h,
    calls c !! i = Some h -> currentTime h <= clock (shared c);
  fair_ticket : forall i h n,
    calls c !! i = Some h -> ticket (at_stage h) = Some n ->
    1 <= n <= counter (caller h) (currentTime h / 60000) (redis (shared c));
  fair_distinct : forall i j hi hj n,
    i <> j -> calls c !! i = Some hi -> calls c !! j = Some hj ->
    caller hi = caller hj ->
    currentTime hi / 60000 = currentTime hj / 60000 ->
    ticket (at_stage hi) = Some n -> ticket (at_stage hj) = Some n -> False;
  fair_accepted : forall i h,
    calls c !! i = Some h ->
    match at_stage h with
    | AddNow n => n <= tasksPerMinute
    | Answered r t =>
        status r = 200 -> exists n, t = Some n /\ n <= tasksPerMinute
    | _ => True
    end;
  fair_answer : forall i h r t,
    calls c !! i = Some h -> at_stage h = Answered r t ->
    r = queued \/ r = delayed \/ r = server_error \/
    (r = bad_request /\ caller h = EmptyString)
}.

(** The counter of window [m] of user [u] is past the cap, and the
    requests of that user stamped in that window that came after the
    first [k] hold counts above the cap, if any. *)
Definition latecomers (k : nat) (u : string) (m : Z) (c : config) : Prop :=
  tasksPerMinute < counter u m (redis (shared c)) /\
  forall i h n, (k <= i)%nat -> calls c !! i = Some h ->
    caller h = u -> currentTime h / 60000 = m ->
    ticket (at_stage h) = Some n -> tasksPerMinute < n.

(** No awaited call fails from now on, and none has failed for the
    requests that came after the first [k]. *)
Definition calm (k : nat) (c : config) : Prop :=
  outages (shared c) = [] /\
  forall i h t, (k <= i)%nat -> calls c !! i = Some h ->
    at_stage h <> Answered server_error t.

(** What one awaited call of a handler of [u] stamped [ct] does to the
    store. *)
Inductive progress (u : string) (ct : Z) (w w' : world) : stage -> stage -> Prop :=
| P_flagged :
    redis w' = redis w ->
    progress u ct w w' ReadFlag (AddDelayed None)
| P_clear :
    redis w' = redis w ->
    progress u ct w w' ReadFlag Increment
| P_counted n s1 :
    incr (clock w) (redisKey u (ct / 60000)) (redis w) = Some (n, s1) ->
    redis w' = s1 ->
    progress u ct w w' Increment
      (if n =? 1 then Expire n else over_or_under n)
| P_expiring n :
    redis w' = snd (expire (clock w) (redisKey u (ct / 60000)) 60 (redis w)) ->
    progress u ct w w' (Expire n) (over_or_under n)
| P_flag n :
    redis w' = set_ex (clock w) (flagKey u) RTrue 60 (redis w) ->
    progress u ct w w' (SetFlag n) (AddDelayed (Some n))
| P_added_delayed t :
    redis w' = redis w ->
    progress u ct w w' (AddDelayed t) (Answered delayed t)
| P_added n :
    redis w' = redis w ->
    progress u ct w w' (AddNow n) (Answered queued (Some n))
| P_failed s :
    redis w' = redis w ->
    progress u ct w w' s (Answered server_error None).

End Observe.
Export Observe.

(* ===================================================================== *)
(** ** The invariant behind the spacing of invocations *)
(* ===================================================================== *)

Module Spacing.

(** Every invocation for [u] so far happened at [b] or before. *)
Definition before (u : string) (w : world) (b : Z) : Prop :=
  forall t, (u, t) ∈ invocations w -> t <= b.

(** Newest first, each invocation comes 1000 ms after the older ones for
    the same user. *)
Fixpoint well_spaced (inv : list (string * Z)) : Prop :=
  match inv with
  | [] => True
  | (u, t) :: rest =>
      (forall t', (u, t') ∈ rest -> t' + 1000 <= t) /\ well_spaced rest
  end.

(** The stored stamp is no older than any invocation for [u], and not
    ahead of the clock. *)
Definition stamp_ok (u : string) (w : world) : Prop :=
  exists last, redis w !! lastExecutionKey u = Some (Entry (RInt last) None) /\
               before u w last /\ last <= clock w.

(** A lock entry that outlives every invocation for [u] by 1000 ms. *)
Definition lock_guard (u : string) (w : world) : Prop :=
  exists v e, redis w !! lockKey u = Some (Entry v (Some e)) /\
              before u w (e - 1000).

(** Whoever takes the lock of [u] next will find out that it has to wait. *)
Definition guarded (u : string) (w : world) : Prop :=
  before u w (clock w - 1000) \/ stamp_ok u w \/ lock_guard u w.

(** The lock entry written by the run that obtained it at [since]. *)
Definition holds_lock (u : string) (since : Z) (w : world) : Prop :=
  redis w !! lockKey u = Some (Entry RLocked (Some (since + 5000))).

(** What a run knows at each point while it holds the lock. *)
Definition pc_ok (u : string) (p : pc) (w : world) : Prop :=
  match p with
  | GetLast _ => before u w (clock w - 1000) \/ stamp_ok u w
  | ReadNow _ lastExecutionTime =>
      before u w (clock w - 1000) \/
      exists last, lastExecutionTime = Some (RInt last) /\
                   before u w last /\ last <= clock w
  | SpacingSleep _ wake => before u w (Z.max wake (clock w) - 1000)
  | SetLast _ stamp => before u w stamp /\ stamp <= clock w
  | Release _ => stamp_ok u w
  | _ => True
  end.

(** Two states that agree on what the invariant reads of user [u]. *)
Definition agree (u : string) (w w' : world) : Prop :=
  redis w' !! lockKey u = redis w !! lockKey u /\
  redis w' !! lastExecutionKey u = redis w !! lastExecutionKey u /\
  forall t, (u, t) ∈ invocations w' <-> (u, t) ∈ invocations w.

(** The invariant: the invocations are spaced and in the past; whoever
    takes a lock next is made to wait; a run within 4000 ms of obtaining
    its lock knows what [pc_ok] says; a run within its 5000 ms lease
    still has its entry in the store; no two runs obtained the lock of
    one user at the same time. *)
Record sound (c : config) : Prop := Sound {
  sound_spaced : well_spaced (invocations (shared c));
  sound_past : forall u, before u (shared c) (clock (shared c));
  sound_guard : forall u, guarded u (shared c);
  sound_holder : forall i th since,
    runs c !! i = Some th -> lease_start (at_pc th) = Some since ->
    clock (shared c) <= since + 4000 ->
    holds_lock (job_data th) since (shared c) /\
    pc_ok (job_data th) (at_pc th) (shared c);
  sound_lease : forall i th since,
    runs c !! i = Some th -> lease_start (at_pc th) = Some since ->
    clock (shared c) < since + 5000 ->
    holds_lock (job_data th) since (shared c);
  sound_unique : forall i j thi thj since,
    i <> j -> runs c !! i = Some thi -> runs c !! j = Some thj ->
    job_data thi = job_data thj ->
    lease_start (at_pc thi) = Some since ->
    lease_start (at_pc thj) = Some since -> False
}.

(** What one move of a run of [u] does to the clock, the store and the
    invocations. *)
Inductive transition (u : string) (w w' : world) : pc -> pc -> Prop :=
| T_acquired :
    find (clock w) (lockKey u) (redis w) = None ->
    redis w' = set_ex (clock w) (lockKey u) RLocked 5 (redis w) ->
    invocations w' = invocations w ->
    transition u w w' Acquire (GetLast (clock w))
| T_busy :
    redis w' = redis w -> invocations w' = invocations w ->
    transition u w w' Acquire (RetrySleep (clock w + 100))
| T_retry wake :
    redis w' = redis w -> invocations w' = invocations w ->
    transition u w w' (RetrySleep wake) Acquire
| T_read since :
    redis w' = redis w -> invocations w' = invocations w ->
    transition u w w' (GetLast since)
      (ReadNow since (get (clock w) (lastExecutionKey u) (redis w)))
| T_wait since lastExecutionTime delay :
    spacing_delay lastExecutionTime (clock w) = Some delay ->
    redis w' = redis w -> invocations w' = invocations w ->
    transition u w w' (ReadNow since lastExecutionTime)
      (SpacingSleep since (clock w + timeout delay))
| T_invoke_now since lastExecutionTime :
    spacing_delay lastExecutionTime (clock w) = None ->
    redis w' = redis w -> invocations w' = (u, clock w) :: invocations w ->
    transition u w w' (ReadNow since lastExecutionTime) (Running since)
| T_invoke_late since wake :
    wake <= clock w ->
    redis w' = redis w -> invocations w' = (u, clock w) :: invocations w ->
    transition u w w' (SpacingSleep since wake) (Running since)
| T_settled since :
    redis w' = redis w -> invocations w' = invocations w ->
    transition u w w' (Running since) (SetLast since (clock w))
| T_stamped since stamp :
    redis w' = set (lastExecutionKey u) (RInt stamp) (redis w) ->
    invocations w' = invocations w ->
    transition u w w' (SetLast since stamp) (Release since)
| T_released since :
    redis w' = del (lockKey u) (redis w) -> invocations w' = invocations w ->
    transition u w w' (Release since) (Done Completed)
| T_caught p :
    redis w' = redis w -> invocations w' = invocations w ->
    transition u w w' p (Done Completed).

End Spacing.
Export Spacing.

(* ===================================================================== *)
(** ** The spacing wait as the specification words it *)
(* ===================================================================== *)

Module Spec.

(** Read the last execution timestamp; if absent, return immediately;
    otherwise, with [elapsed = now - timestamp], suspend for
    [max (1000 - elapsed) 0] milliseconds. *)
Definition spec_wait (timestamp : option Z) (now : Z) : Z :=
  match timestamp with
  | None => 0
  | Some ts => let elapsed := now - ts in Z.max (1000 - elapsed) 0
  end.

End Spec.
Export Spec.

(* ===================================================================== *)
(** ** Schedules used as examples *)
(* ===================================================================== *)

Module Scenarios.

(** Run 0 takes the lock and stalls for the whole lease; run 1 takes the
    expired lock and invokes the task; run 0 wakes up and invokes it too. *)
Definition stalled_holder : list label :=
  [Move 0; Tick 5000; Move 1; Move 1; Move 1; Move 0; Tick 1; Move 0].

(** Run 0 goes through all its moves, then run 1 does, pausing 1000 ms. *)
Definition one_after_the_other : list label :=
  [Move 0; Move 0; Move 0; Move 0; Move 0; Move 0;
   Move 1; Move 1; Move 1; Tick 1000; Move 1; Move 1; Move 1; Move 1].

(** From an empty deployment: two requests of user 123 come in together,
    their handlers take turns, both items are taken from the queue, and
    the two runs go one after the other. *)
Definition two_requests : list label :=
  [Arrive (Some "123"); Arrive (Some "123");
   Step 0; Step 1; Step 0; Step 1; Step 0; Step 1; Step 0;
   Take 0; Take 0]
  ++ one_after_the_other.

(** The handler of one request, alone, through [steps] awaited calls. *)
Definition one_call (i steps : nat) : list label :=
  Arrive (Some "123") :: repeat (Step i) steps.

(** Twenty requests of user 123, one after the other. *)
Definition twenty_calls : list label :=
  one_call 0 4 ++ concat (map (fun i => one_call i 3) (seq 1 19)).

(** Twenty requests at time 0; a 21st reads [Date.now()] at 59999, in the
    same window; its [INCR] reaches the store at 60000, when the counter
    key written at 0 has just expired. *)
Definition late_increment : list label :=
  twenty_calls
  ++ [Tick 59999; Arrive (Some "123"); Step 20; Tick 1;
      Step 20; Step 20; Step 20].

(** Twenty-two requests at once: all read the flag, then all increment,
    then each goes its way. *)
Definition burst_of_22 : list label :=
  repeat (Arrive (Some "123")) 22
  ++ map Step (seq 0 22) ++ map Step (seq 0 22) ++ map Step (seq 0 22)
  ++ [Step 0; Step 20; Step 21].

(** A slow task: run 0 invokes it and it settles after 5.5 s; meanwhile
    run 1 comes and goes, run 2 takes the lock at 5001 and pauses, the
    late release of run 0 at 5500 deletes the lock of run 2, and run 3
    takes the lock at 5501. *)
Definition two_leases : list label :=
  [Move 0; Move 0; Move 0; Tick 5000;
   Move 1; Move 1; Move 1; Move 1; Move 1; Move 1; Tick 1;
   Move 2; Move 2; Move 2; Tick 499;
   Move 0; Move 0; Move 0; Tick 1;
   Move 3].

(** The same, until runs 2 and 3 have both invoked the task. *)
Definition slow_task : list label :=
  two_leases
  ++ [Move 3; Move 3; Tick 499;
      Move 2; Move 2; Move 2; Move 2; Tick 500; Move 3].

(** One job of user 123 is run to its end, and the queue delivers it
    once more. *)
Definition delivered_twice : list label :=
  [Move 0; Move 0; Move 0; Move 0; Move 0; Move 0; Again 0;
   Move 1; Move 1; Move 1; Tick 1000;
   Move 1; Move 1; Move 1; Move 1].

End Scenarios.
Export Scenarios.


(* ===================================================================== *)
(** ** Reconnection to Redis *)
(* ===================================================================== *)

Module Connection.

(** [redisOptions.retryStrategy]: ioredis calls it with the number of the
    reconnection attempt, 1, 2, ..., and waits the number of
    milliseconds it returns before that attempt. *)
Definition retryStrategy (times : Z) : Z := Z.min (times * 50) 2000.

(** The time waited over the first [n] reconnection attempts. *)
Fixpoint waited (n : nat) : Z :=
  match n with
  | O => 0
  | S n' => waited n' + retryStrategy (Z.of_nat n)
  end.

End Connection.
Export Connection.

(* ===================================================================== *)
(** ** The master process and its replicas *)
(* ===================================================================== *)

Module Master.

Definition numReplicas : nat := 2.

(** The workers alive, by id, and the number of [cluster.fork()] calls
    so far: the cluster module numbers the workers 1, 2, ... in the
    order of the forks. *)
Record master : Type := Master { workers : list nat; forks : nat }.

(** [cluster.fork()] *)
Definition fork (m : master) : master :=
  Master (workers m ++ [S (forks m)]) (S (forks m)).

(** The [for] loop of the master. *)
Definition boot : master := Nat.iter numReplicas fork (Master [] 0).

(** [cluster.on("exit", (worker, code, signal) => ...)]: a line is
    logged and a worker is forked, whatever the code. *)
Definition on_exit (worker : nat) (code : Z) (m : master) : master :=
  fork m.

(** A worker that is alive exits with [code] (0 after [SIGTERM], see the
    shutdown handler of the replicas): the cluster module forgets it and
    emits ["exit"]. *)
Definition worker_exit (worker : nat) (code : Z) (m : master)
  : option master :=
  if decide (worker ∈ workers m)
  then Some (on_exit worker code
               (Master (filter (fun i => i <> worker) (workers m))
                       (forks m)))
  else None.

Fixpoint worker_exits (es : list (nat * Z)) (m : master) : option master :=
  match es with
  | [] => Some m
  | (worker, code) :: es' =>
      match worker_exit worker code m with
      | Some m' => worker_exits es' m'
      | None => None
      end
  end.

(** What the proof carries along: two workers, all different, numbered
    up to the number of forks. *)
Definition staffed (m : master) : Prop :=
  length (workers m) = numReplicas /\ NoDup (workers m) /\
  Forall (fun i => (1 <= i <= forks m)%nat) (workers m).

End Master.
Export Master.

(* ===================================================================== *)
(** ** The task: one line in the log file *)
(* ===================================================================== *)

Module Log.

(** A path is the list of its components from the root. *)
Abbreviation path := (list string).

Inductive node : Type :=
| Dir
| File (content : string).

(** The file system: what sits at each path; the root is a directory. *)
Abbreviation fs := (gmap path node).

(** The content of the file at [p], if there is a file. *)
Definition read (p : path) (f : fs) : option string :=
  match f !! p with
  | Some (File c) => Some c
  | _ => None
  end.

Definition is_dir (p : path) (f : fs) : bool :=
  match p with
  | [] => true
  | _ => match f !! p with Some Dir => true | _ => false end
  end.

(** [path.join(base, ...)], segment by segment: [".."] drops the last
    component (the root is its own parent), ["."] stays. *)
Fixpoint path_join (base : path) (segments : list string) : path :=
  match segments with
  | [] => base
  | s :: segments' =>
      if decide (s = "..") then path_join (removelast base) segments'
      else if decide (s = ".") then path_join base segments'
      else path_join (base ++ [s]) segments'
  end.

(** [fs.existsSync] *)
Definition existsSync (p : path) (f : fs) : bool :=
  match p with
  | [] => true
  | _ => bool_decide (is_Some (f !! p))
  end.

(** [fs.mkdirSync(p, { recursive: true })], from [above] downwards: the
    directories that are missing are made, those that exist are kept,
    and a file in the way is an error ([None]).  On a file system that
    is a tree nothing has been made when that happens. *)
Fixpoint mkdirp (above rest : path) (f : fs) : option fs :=
  match rest with
  | [] => Some f
  | c :: rest' =>
      let p := above ++ [c] in
      match f !! p with
      | Some (File _) => None
      | Some Dir => mkdirp p rest' f
      | None => mkdirp p rest' (<[p := Dir]> f)
      end
  end.

(** [denied] is an error of the operating system (permissions, disk). *)
Definition mkdirSync (denied : bool) (p : path) (f : fs) : option fs :=
  if denied then None else mkdirp [] p f.

(** [fs.appendFile(p, data, callback)]: the file is created when it is
    missing; the error cases are a parent that is not a directory, a
    directory at [p], and [denied]. *)
Definition appendFile (denied : bool) (p : path) (data : string) (f : fs)
  : option fs :=
  if denied then None
  else if negb (is_dir (removelast p) f) then None
  else match p, f !! p with
       | [], _ => None
       | _, Some Dir => None
       | _, Some (File c) => Some (<[p := File (c +:+ data)]> f)
       | _, None => Some (<[p := File data]> f)
       end.

Definition newline : string := String "010"%char EmptyString.

(** The line of one task; [currentTime] is [new Date().toLocaleString()]. *)
Definition logMessage (user_id currentTime : string) : string :=
  user_id +:+ "-task completed at-" +:+ currentTime +:+ newline.

(** Whether the two calls of one task meet an error of the operating
    system. *)
Record os : Type := Os { mkdir_denied : bool; append_denied : bool }.

Definition logDir (dirname : path) : path :=
  path_join dirname [".."; "node-api-cluster"; "logs"].

Definition logFilePath (dirname : path) : path :=
  path_join (logDir dirname) ["tasks.log"].

(** [task(user_id)] of the application: [Ok] when its promise resolves,
    [Throw] when it rejects ([mkdirSync] throws, or [appendFile] calls
    back with an error). *)
Definition task (dirname : path) (e : os) (user_id currentTime : string)
    (f : fs) : result unit * fs :=
  let logMessage := logMessage user_id currentTime in
  let logDir := logDir dirname in
  match (if negb (existsSync logDir f)
         then mkdirSync (mkdir_denied e) logDir f else Some f) with
  | None => (Throw, f)
  | Some f1 =>
      let logFilePath := path_join logDir ["tasks.log"] in
      match appendFile (append_denied e) logFilePath logMessage f1 with
      | Some f2 => (Ok tt, f2)
      | None => (Throw, f1)
      end
  end.

(** Tasks one after the other, as long as they resolve. *)
Fixpoint tasks (dirname : path) (jobs : list (string * string)) (f : fs)
  : result unit * fs :=
  match jobs with
  | [] => (Ok tt, f)
  | (user_id, currentTime) :: jobs' =>
      match task dirname (Os false false) user_id currentTime f with
      | (Ok _, f') => tasks dirname jobs' f'
      | (Throw, f') => (Throw, f')
      end
  end.

(** The lines of a list of jobs, in order. *)
Definition log_lines (jobs : list (string * string)) : string :=
  foldr (fun j rest => logMessage (fst j) (snd j) +:+ rest) EmptyString jobs.

(** Nothing is in the way of the log: no file where a directory of the
    log goes, no directory where the log file goes. *)
Definition clear_way (dirname : path) (f : fs) : Prop :=
  (forall p q, logDir dirname = p ++ q -> read p f = None) /\
  f !! logFilePath dirname <> Some Dir.

End Log.
Export Log.

(* ===================================================================== *)
(** ** The stand-alone worker *)
(* ===================================================================== *)

Module Standalone.

(** What becomes of the process once the callback of [fs.appendFile]
    has run: [throw err] in that callback is an uncaught exception. *)
Inductive fate : Type :=
| Alive (f : fs)
| Crashed.

(** [task(user_id)] of [worker.js]: [fs.appendFile] is called with the
    path ["./logs/tasks.log"], relative to the working directory; the
    function does not wait for it, so its promise resolves; the callback
    runs later. *)
Definition task (cwd : path) (denied : bool) (user_id currentTime : string)
    (f : fs) : result unit * fate :=
  let logMessage := logMessage user_id currentTime in
  let logFilePath := path_join cwd ["."; "logs"; "tasks.log"] in
  (Ok tt,
   match appendFile denied logFilePath logMessage f with
   | Some f' => Alive f'
   | None => Crashed
   end).

(** The [taskQueue.process] callback of [worker.js]: the task is
    invoked at once; no lock is taken and no stamp is read or written. *)
Definition process (cwd : path) (denied : bool) (currentTime : string)
    (job : job) (f : fs) (w : world) : job_result * fate * world :=
  let user_id := job_user job in
  let w' := snd (invoke user_id w) in
  match task cwd denied user_id currentTime f with
  | (Ok _, after) => (Completed, after, w')
  | (Throw, after) => (Failed, after, w')
  end.

End Standalone.

(* ===================================================================== *)
(** ** Further observations *)
(* ===================================================================== *)

Module Tally.

(** A run that is past the call of [task(user_id)], or over. *)
Definition past_invoke (p : pc) : bool :=
  match p with
  | Running _ | SetLast _ _ | Release _ | Done _ => true
  | Acquire | RetrySleep _ | GetLast _ | ReadNow _ _ | SpacingSleep _ _ =>
      false
  end.

(** The runs of user [u] that are past the call of the task, and the
    invocations for [u]. *)
Definition runs_past (u : string) (ths : list thread) : nat :=
  length (List.filter (fun th => bool_decide (job_data th = u)
                                 && past_invoke (at_pc th)) ths).

Definition runs_of (u : string) (ths : list thread) : nat :=
  length (List.filter (fun th => bool_decide (job_data th = u)) ths).

Definition invocations_of (u : string) (inv : list (string * Z)) : nat :=
  length (List.filter (fun x => bool_decide (fst x = u)) inv).

(** The requests of one user in one window, at the given times. *)
Definition requests (u : string) (ts : list Z) : list call :=
  map (fun t => (Some u, t)) ts.

(** The store after [k] requests of [u] in window [m] were counted, none
    over the cap: no flag, and the counter at [k], expiring after the
    window. *)
Definition counted (u : string) (m : Z) (k : Z) (w : world) : Prop :=
  outages w = [] /\ redis w !! flagKey u = None /\
  (k = 0 -> redis w !! redisKey u m = None) /\
  (0 < k -> exists x, redis w !! redisKey u m = Some (Entry (RInt k) (Some x))
                      /\ 60000 * (m + 1) <= x).

(** The store once the flag is up until after the window. *)
Definition flagged (u : string) (m : Z) (w : world) : Prop :=
  outages w = [] /\
  exists y, redis w !! flagKey u = Some (Entry RTrue (Some y))
            /\ 60000 * (m + 1) <= y.

(** The labels that hand a job to a replica. *)
Definition is_delivery (l : label) : bool :=
  match l with
  | Take _ | Again _ => true
  | Tick _ | Move _ | Arrive _ | Step _ => false
  end.

Definition deliveries (ls : list label) : nat :=
  length (List.filter is_delivery ls).

(** Flags are earned: a handler about to set the flag holds a count
    above the cap, and a flag in the store goes with a counter of that
    user above the cap. *)
Definition earned (c : config) : Prop :=
  (forall i h n, calls c !! i = Some h -> at_stage h = SetFlag n ->
                 tasksPerMinute < n) /\
  (forall u, is_Some (redis (shared c) !! flagKey u) ->
             exists m, tasksPerMinute < counter u m (redis (shared c))).

(** The number of polls of a run that finds the lock taken until [x]. *)
Definition polls (now x : Z) : Z := (x - now + 99) / 100.

End Tally.
Export Tally.
(* ===================================================================== *)
(** ** Key templates never collide *)
(* ===================================================================== *)

Section KeyFacts.

Lemma append_cons (x : ascii) (a b : string) :
  String x a +:+ b = String x (a +:+ b).
Proof. reflexivity. Qed.

Lemma append_nil (b : string) : EmptyString +:+ b = b.
Proof. reflexivity. Qed.

Lemma has_colon_app (a b : string) :
  has_colon (a +:+ b) = has_colon a || has_colon b.
Proof.
  induction a as [|c a IH]; [reflexivity|].
  rewrite append_cons. cbn [has_colon].
  destruct (Ascii.eqb _ _); simpl; auto.
Qed.

Lemma pretty_N_go_colon (x : N) (s : string) :
  has_colon s = false -> has_colon (pretty_N_go x s) = false.
Proof.
  revert s. induction (N.lt_wf_0 x) as [x _ IH]; intros s Hs.
  destruct (decide (x = 0)%N) as [->|Hx].
  - by rewrite pretty_N_go_0.
  - rewrite pretty_N_go_step by lia. apply IH.
    + apply N.div_lt; lia.
    + cbn [has_colon]. rewrite Hs.
      unfold pretty_N_char. by repeat case_match.
Qed.

Lemma pretty_Z_colon (m : Z) : has_colon (pretty m) = false.
Proof.
  assert (HN : forall n : N, has_colon (pretty n) = false).
  { intros n. unfold pretty, pretty_N. case_decide; [reflexivity|].
    by apply pretty_N_go_colon. }
  destruct m as [|p|p]; unfold pretty, pretty_Z; [reflexivity|apply HN|].
  rewrite has_colon_app. unfold pretty, pretty_positive. by rewrite HN.
Qed.

(** A string is cut in one way only at its last colon. *)
Lemma last_colon_split (a b c d : string) :
  has_colon c = false -> has_colon d = false ->
  a +:+ ":" +:+ c = b +:+ ":" +:+ d -> a = b /\ c = d.
Proof.
  intros Hc Hd. revert b.
  induction a as [|x a IH]; intros [|y b] H;
    rewrite ?append_cons, ?append_nil in H.
  - by simplify_eq.
  - simplify_eq. rewrite has_colon_app in Hc. cbn in Hc.
    by rewrite orb_true_r in Hc.
  - simplify_eq. rewrite has_colon_app in Hd. cbn in Hd.
    by rewrite orb_true_r in Hd.
  - injection H as -> H. by destruct (IH _ H) as [-> ->].
Qed.

Lemma redisKey_inj (u u' : string) (m m' : Z) :
  redisKey u m = redisKey u' m' -> u = u' /\ m = m'.
Proof.
  unfold redisKey. intros H. apply (inj _) in H.
  apply last_colon_split in H as [-> H]; auto using pretty_Z_colon.
  split; [done|]. by apply (inj pretty).
Qed.

Lemma flagKey_redisKey (u u' : string) (m : Z) : flagKey u <> redisKey u' m.
Proof. unfold flagKey, redisKey. rewrite !append_cons. congruence. Qed.

Lemma lockKey_inj (u u' : string) : lockKey u = lockKey u' -> u = u'.
Proof. apply (inj _). Qed.

Lemma lastExecutionKey_inj (u u' : string) :
  lastExecutionKey u = lastExecutionKey u' -> u = u'.
Proof. apply (inj _). Qed.

Lemma lockKey_lastExecutionKey (u u' : string) :
  lockKey u <> lastExecutionKey u'.
Proof. unfold lockKey, lastExecutionKey. rewrite !append_cons. congruence. Qed.

Lemma lockKey_flagKey (u u' : string) : lockKey u <> flagKey u'.
Proof. unfold lockKey, flagKey. rewrite !append_cons. congruence. Qed.

Lemma lockKey_redisKey (u u' : string) (m : Z) : lockKey u <> redisKey u' m.
Proof. unfold lockKey, redisKey. rewrite !append_cons. congruence. Qed.

Lemma lastExecutionKey_flagKey (u u' : string) :
lastExecutionKey u <> flagKey u'.
Proof. unfold lastExecutionKey, flagKey. rewrite !append_cons. congruence. Qed.

Lemma lastExecutionKey_redisKey (u u' : string) (m : Z) :
lastExecutionKey u <> redisKey u' m.
Proof. unfold lastExecutionKey, redisKey. rewrite !append_cons. congruence. Qed.

End KeyFacts.

(* ===================================================================== *)
(** ** The paths of the admission handler *)
(* ===================================================================== *)

Section AdmissionFacts.

(** What one call does to the store, by cases on its path. *)
Lemma post_task_cases (user_id : option string) (w : world) :
  let t := clock w in
  let r := fst (post_task user_id w) in
  let w' := snd (post_task user_id w) in
  (missing user_id = true /\ r = bad_request /\ w' = w) \/
  exists u, user_id = Some u /\ missing user_id = false /\
    let key := redisKey u (t / 60000) in
    ((r = server_error /\ redis w' = redis w) \/
     (truthy (get t (flagKey u) (redis w)) = true /\ r = delayed /\
      redis w' = redis w) \/
     (truthy (get t (flagKey u) (redis w)) = false /\
      exists n s1, incr t key (redis w) = Some (n, s1) /\
        let s2 := if n =? 1 then snd (expire t key 60 s1) else s1 in
        ((r = server_error /\
          (redis w' = s1 \/ redis w' = s2 \/
           (tasksPerMinute < n /\
            redis w' = set_ex t (flagKey u) RTrue 60 s2))) \/
         (tasksPerMinute < n /\ r = delayed /\
          redis w' = set_ex t (flagKey u) RTrue 60 s2) \/
         (n <= tasksPerMinute /\ r = queued /\ redis w' = s2)))).
Proof.
  intros t r w'. subst t r w'.
  unfold post_task. destruct (missing user_id) eqn:Hm; [left; done|right].
  destruct user_id as [u|]; [|done]. exists u. split; [done|]. split; [done|].
  cbn [default].
  unfold try_catch, try_block, bind, Date_now, redis_get, redis_incr, redis_expire,
    redis_set_ex, taskQueue_add, await, on_redis, ret, tasksPerMinute.
  destruct w as [t s q iv o h]. cbn [clock redis outages set_outages tail
    taskQueue invocations history].
  destruct o as [|[] o]; cbn; auto.
  all: destruct (truthy (get t (flagKey u) s)) eqn:Hf; cbn.
  all: try (destruct o as [|[] o]; cbn; by auto).
  all: try (destruct o as [|[] o]; cbn; auto).
  all: destruct (incr t (redisKey u (t / 60000)) s) as [[n s1]|] eqn:Hi; cbn; auto.
  all: right; right; split; [done|]; exists n, s1; split; [done|].
  all: destruct (n =? 1) eqn:H1; cbn.
  all: try destruct (expire t (redisKey u (t / 60000)) 60 s1) as [a s0].
  all: repeat first
    [ progress cbn
    | match goal with
      | |- context [match ?o with [] => _ | _ :: _ => _ end] =>
          is_var o; destruct o as [|[] o]
      | |- context [?n >? 20] => destruct (Z.gtb_spec n 20)
      end ].
  all: try (left; split; [done|]; by auto).
  all: try (right; left; by auto with lia).
  all: try (right; right; by auto with lia).
  all: try (left; split; [done|]; right; right; split; [lia|done]).
Qed.

End AdmissionFacts.

(* ===================================================================== *)
(** ** The window counter *)
(* ===================================================================== *)

Section WindowCounter.

Lemma window_bounds (t : Z) : 60000 * (t / 60000) <= t < 60000 * (t / 60000 + 1).
Proof.
  pose proof (Z.div_mod t 60000). pose proof (Z.mod_pos_bound t 60000). lia.
Qed.

Lemma rate_ok_find (s : store) (u : string) (t : Z) :
  rate_ok s ->
  find t (redisKey u (t / 60000)) s = s !! redisKey u (t / 60000).
Proof.
  intros Hok. unfold find. destruct (s !! _) as [e|] eqn:He; [|done].
  destruct (Hok _ _ _ He) as [_ Hx]. unfold live.
  destruct (expiry e) as [x|]; [|done].
  specialize (Hx x eq_refl). pose proof (window_bounds t).
  destruct (Z.ltb_spec t x); [done|lia].
Qed.

Lemma counter_insert_ne (u : string) (m : Z) (k : string) (e : entry) (s : store) :
  k <> redisKey u m -> counter u m (<[k := e]> s) = counter u m s.
Proof. intros Hk. unfold counter. by rewrite lookup_insert_ne. Qed.

Lemma rate_ok_insert_other (k : string) (e : entry) (s : store) :
  (forall u m, k <> redisKey u m) -> rate_ok s -> rate_ok (<[k := e]> s).
Proof.
  intros Hk Hok u m e'. rewrite lookup_insert_ne by apply Hk. apply Hok.
Qed.

Lemma rate_ok_insert (u : string) (m n : Z) (x : option Z) (s : store) :
  0 <= n -> (forall y, x = Some y -> 60000 * (m + 1) <= y) ->
  rate_ok s -> rate_ok (<[redisKey u m := Entry (RInt n) x]> s).
Proof.
  intros Hn Hx Hok u' m' e'. rewrite lookup_insert. case_decide as Hk.
  - apply redisKey_inj in Hk as [-> ->]. intros [= <-]. cbn. eauto.
  - apply Hok.
Qed.

Lemma incr_window (u : string) (t n : Z) (s s1 : store) :
  rate_ok s ->
  incr t (redisKey u (t / 60000)) s = Some (n, s1) ->
  rate_ok s1 /\ n = counter u (t / 60000) s + 1 /\
  counter u (t / 60000) s1 = n /\
  forall u' m', (u', m') <> (u, t / 60000) -> counter u' m' s1 = counter u' m' s.
Proof.
  intros Hok. unfold incr. rewrite rate_ok_find by done.
  unfold counter at 1.
  destruct (s !! redisKey u (t / 60000)) as [[[n0| |] x]|] eqn:He;
    [|done|done|]; intros [= <- <-].
  - destruct (Hok _ _ _ He) as [(n1 & [= <-] & Hn0) Hx]. cbn in Hx.
    split; [apply rate_ok_insert; auto with lia|].
    split; [done|]. split.
    + unfold counter. by rewrite lookup_insert_eq.
    + intros u' m' Hne. apply counter_insert_ne.
      intros Hk. apply redisKey_inj in Hk as [Hu Hm]. apply Hne. by rewrite Hu, Hm.
  - split; [apply rate_ok_insert; auto with lia; done|].
    split; [done|]. split.
    + unfold counter. by rewrite lookup_insert_eq.
    + intros u' m' Hne. apply counter_insert_ne.
      intros Hk. apply redisKey_inj in Hk as [Hu Hm]. apply Hne. by rewrite Hu, Hm.
Qed.

Lemma expire_window (u : string) (t : Z) (s : store) :
  rate_ok s ->
  rate_ok (snd (expire t (redisKey u (t / 60000)) 60 s)) /\
  forall u' m', counter u' m' (snd (expire t (redisKey u (t / 60000)) 60 s))
                = counter u' m' s.
Proof.
  intros Hok. unfold expire. rewrite rate_ok_find by done.
  destruct (s !! redisKey u (t / 60000)) as [[v x]|] eqn:He; [|done].
  destruct (Hok _ _ _ He) as [(n & Hv & Hn) _]. cbn in Hv. subst v. cbn.
  split.
  - apply rate_ok_insert; auto. intros y [= <-]. pose proof (window_bounds t). lia.
  - intros u' m'. unfold counter. rewrite lookup_insert. case_decide as Hk.
    + by rewrite <- Hk, He.
    + done.
Qed.

Lemma flag_window (u : string) (t : Z) (s : store) :
  rate_ok s ->
  rate_ok (set_ex t (flagKey u) RTrue 60 s) /\
  forall u' m', counter u' m' (set_ex t (flagKey u) RTrue 60 s)
                = counter u' m' s.
Proof.
  intros Hok. split.
  - apply rate_ok_insert_other; auto using flagKey_redisKey.
  - intros u' m'. apply counter_insert_ne, flagKey_redisKey.
Qed.

(** One call: the invariant is kept, no counter goes down, and an accepted
    call has moved its own counter up by one, to 20 at most. *)
Lemma post_task_counter (user_id : option string) (w : world) :
  rate_ok (redis w) ->
  let r := fst (post_task user_id w) in
  let w' := snd (post_task user_id w) in
  rate_ok (redis w') /\
  (forall u m, counter u m (redis w) <= counter u m (redis w')) /\
  (forall u, user_id = Some u -> status r = 200 ->
     counter u (clock w / 60000) (redis w')
     = counter u (clock w / 60000) (redis w) + 1 /\
     counter u (clock w / 60000) (redis w') <= 20).
Proof.
  intros Hok. pose proof (post_task_cases user_id w) as H. cbn zeta in *.
  destruct (post_task user_id w) as [r w']. cbn [fst snd] in *.
  destruct H as [(_ & Hr & Hw)|(u & -> & _ & H)].
  { rewrite Hw, Hr. split; [done|]. split; [intros; lia|]. intros u _ [=]. }
  destruct H as [[Hr ->]|[(_ & Hr & ->)|(_ & n & s1 & Hi & H)]].
  { rewrite Hr. split; [done|]. split; [intros; lia|]. intros ? _ [=]. }
  { rewrite Hr. split; [done|]. split; [intros; lia|]. intros ? _ [=]. }
  destruct (incr_window _ _ _ _ _ Hok Hi) as (Hok1 & Hn & Hc1 & Hfr1).
  set (s2 := if n =? 1 then snd (expire (clock w) (redisKey u (clock w / 60000)) 60 s1)
             else s1) in *.
  assert (Hok2 : rate_ok s2 /\ forall u' m', counter u' m' s2 = counter u' m' s1).
  { unfold s2. destruct (n =? 1); [by apply expire_window|done]. }
  destruct Hok2 as [Hok2 Hc2].
  destruct (flag_window u (clock w) s2 Hok2) as [Hok3 Hc3].
  assert (Hmono : forall u' m', counter u' m' (redis w) <= counter u' m' s1).
  { intros u' m'. destruct (decide ((u', m') = (u, clock w / 60000))) as [[= -> ->]|Hne].
    - lia.
    - rewrite Hfr1 by done. lia. }
  destruct H as [[Hr [->|[->|[_ ->]]]]|[(_ & Hr & ->)|(Hle & Hr & ->)]];
    rewrite Hr; (split; [done|]);
    (split; [intros u' m'; rewrite ?Hc3, ?Hc2; apply Hmono|]);
    try (by intros ? _ [=]).
  intros u' [= <-] _. rewrite Hc2, Hc1. unfold tasksPerMinute in Hle. lia.
Qed.

Lemma counter_nonneg (u : string) (m : Z) (s : store) :
  rate_ok s -> 0 <= counter u m s.
Proof.
  intros Hok. unfold counter.
  destruct (s !! redisKey u m) as [[[n| |] x]|] eqn:He; try lia.
  destruct (Hok _ _ _ He) as [(n1 & [= <-] & Hn0) _]. done.
Qed.

Lemma serve_accepted (u : string) (m : Z) (cs : list call) (w : world) :
  rate_ok (redis w) ->
  Z.of_nat (accepted u m cs (fst (serve cs w)))
  <= Z.max 0 (20 - counter u m (redis w)).
Proof.
  revert w. induction cs as [|[user_id t] cs IH]; intros w Hok; [cbn; lia|].
  cbn [serve].
  destruct (post_task user_id (set_clock t w)) as [r w1] eqn:Hp.
  destruct (serve cs w1) as [rs w2] eqn:Hs. cbn [fst accepted].
  pose proof (post_task_counter user_id (set_clock t w) Hok) as (Hok1 & Hmono & Hadm).
  rewrite Hp in *. cbn [fst snd] in *. cbn [set_clock redis clock] in *.
  specialize (IH w1 Hok1). rewrite Hs in IH. cbn [fst] in IH.
  specialize (Hmono u m).
  pose proof (counter_nonneg u m _ Hok). pose proof (counter_nonneg u m _ Hok1).
  destruct (in_window u m (user_id, t) && (status r =? 200)) eqn:Hin; [|lia].
  apply andb_true_iff in Hin as [Hin H200]. unfold in_window in Hin.
  destruct user_id as [u'|]; [|done].
  apply andb_true_iff in Hin as [Hu Hm]. apply bool_decide_eq_true in Hu.
  subst u'. apply Z.eqb_eq in Hm, H200. subst m.
  destruct (Hadm u eq_refl H200). lia.
Qed.

End WindowCounter.

Ltac unfold_handler :=
  unfold post_task, try_catch, try_block, bind, Date_now, redis_get, redis_incr,
    redis_expire, redis_set_ex, taskQueue_add, await, on_redis, ret,
    tasksPerMinute.

Ltac handler_paths :=
  repeat first
    [ progress cbn
    | match goal with
      | |- context [match ?o with [] => _ | _ :: _ => _ end] =>
          is_var o; destruct o as [|[] o]
      | |- context [truthy ?v] => destruct (truthy v) eqn:?
      | |- context [incr ?t ?k ?s] => destruct (incr t k s) as [[? ?]|] eqn:?
      | |- context [expire ?t ?k ?x ?s] => destruct (expire t k x s) as [? ?] eqn:?
      | |- context [?n =? 1] => destruct (n =? 1) eqn:?
      | |- context [?n >? 20] => destruct (Z.gtb_spec n 20)
      end ].

(** [issued_since h l] is the prefix that [l] adds in front of [h]. *)
Ltac issued_since h l :=
  lazymatch l with
  | h => constr:(@nil event)
  | ?e :: ?l' => let p := issued_since h l' in constr:(e :: p)
  end.

Section AdmissionPaths.

Context (u : string) (w : world).
Hypothesis Hu : missing (Some u) = false.

Let t := clock w.
Let delayTime := 60000 - Z.rem t 60000.
Let key := redisKey u (t / 60000).

Lemma post_task_flagged :
  outages w = [] ->
  truthy (get t (flagKey u) (redis w)) = true ->
  post_task (Some u) w =
  (delayed,
   World t (redis w) (taskQueue w ++ [Job u (Some delayTime)])
         (invocations w) []
         (Event (ADD (Job u (Some delayTime))) true
          :: Event (GET (flagKey u)) true :: history w)).
Proof.
  subst t delayTime key. destruct w as [t s q iv o h]. cbn. intros -> Hf.
  unfold_handler. rewrite Hu. cbn. rewrite Hf. reflexivity.
Qed.

Lemma post_task_exceeding (n : Z) (s1 : store) :
  outages w = [] ->
  truthy (get t (flagKey u) (redis w)) = false ->
  incr t key (redis w) = Some (n, s1) ->
  tasksPerMinute < n ->
  post_task (Some u) w =
  (delayed,
   World t (set_ex t (flagKey u) RTrue 60 s1)
         (taskQueue w ++ [Job u (Some delayTime)]) (invocations w) []
         (Event (ADD (Job u (Some delayTime))) true
          :: Event (SETEX (flagKey u) RTrue 60) true
          :: Event (INCR key) true
          :: Event (GET (flagKey u)) true :: history w)).
Proof.
  subst t delayTime key. destruct w as [t s q iv o h]. cbn.
  unfold tasksPerMinute. intros -> Hf Hi Hn.
  unfold_handler. rewrite Hu. cbn. rewrite Hf. cbn. rewrite Hi. cbn.
  destruct (Z.eqb_spec n 1); [lia|]. cbn.
  destruct (Z.gtb_spec n 20); [|lia]. reflexivity.
Qed.

Lemma post_task_accepting (n : Z) (s1 : store) :
  outages w = [] ->
  truthy (get t (flagKey u) (redis w)) = false ->
  incr t key (redis w) = Some (n, s1) ->
  n <= tasksPerMinute ->
  post_task (Some u) w =
  (queued,
   World t (if n =? 1 then snd (expire t key 60 s1) else s1)
         (taskQueue w ++ [Job u None]) (invocations w) []
         (Event (ADD (Job u None)) true
          :: (if n =? 1 then [Event (EXPIRE key 60) true] else [])
          ++ Event (INCR key) true
          :: Event (GET (flagKey u)) true :: history w)).
Proof.
  subst t delayTime key. destruct w as [t s q iv o h]. cbn.
  unfold tasksPerMinute. intros -> Hf Hi Hn.
  unfold_handler. rewrite Hu. cbn. rewrite Hf. cbn. rewrite Hi. cbn.
  destruct (Z.eqb_spec n 1); cbn.
  - destruct (expire _ _ _ _) as [a s0]. cbn.
    destruct (Z.gtb_spec n 20); [lia|]. reflexivity.
  - destruct (Z.gtb_spec n 20); [lia|]. reflexivity.
Qed.

End AdmissionPaths.

Section AdmissionFailures.

Lemma history_suffix (h new : list event) (l : list event) :
  l ++ h = new ++ h -> new = l.
Proof. intros H. by apply app_inv_tail in H. Qed.

(** A call that saw an awaited call reject answers 500 and leaves the
    queue as it was. *)
Lemma post_task_rejected (user_id : option string) (w : world) (new : list event) :
  history (snd (post_task user_id w)) = new ++ history w ->
  Exists (fun e => resolved e = false) new ->
  fst (post_task user_id w) = server_error /\
  taskQueue (snd (post_task user_id w)) = taskQueue w.
Proof.
  unfold post_task. destruct (missing user_id) eqn:Hm.
  { cbn. intros H. apply (history_suffix _ _ []) in H. subst new.
    intros H. by apply Exists_nil in H. }
  destruct user_id as [u|]; [|done]. cbn [default].
  unfold_handler. destruct w as [t s q iv o h].
  cbn [clock redis outages set_outages tail taskQueue invocations history].
  handler_paths.
  all: intros Hnew Hex; try done.
  all: match type of Hnew with
       | ?l = _ ++ ?h =>
           let p := issued_since h l in
           change l with (p ++ h) in Hnew
       end.
  all: apply history_suffix in Hnew; subst new.
  all: exfalso; repeat (apply Exists_cons in Hex as [Hex|Hex]; [done|]).
  all: by apply Exists_nil in Hex.
Qed.

Lemma post_task_history (user_id : option string) (w : world) :
  exists new, history (snd (post_task user_id w)) = new ++ history w.
Proof.
  unfold post_task. destruct (missing user_id) eqn:Hm.
  { by exists []. }
  destruct user_id as [u|]; [|done]. cbn [default].
  unfold_handler. destruct w as [t s q iv o h].
  cbn [clock redis outages set_outages tail taskQueue invocations history].
  handler_paths.
  all: match goal with
       | |- exists new, ?l = _ ++ ?h =>
           let p := issued_since h l in by exists p
       end.
Qed.

End AdmissionFailures.

Section Saturation.

Lemma incr_defined (u : string) (t : Z) (s : store) :
  rate_ok s -> exists n s1, incr t (redisKey u (t / 60000)) s = Some (n, s1).
Proof.
  intros Hok. unfold incr. rewrite rate_ok_find by done.
  destruct (s !! redisKey u (t / 60000)) as [[v x]|] eqn:He; [|eauto].
  destruct (Hok _ _ _ He) as [(n & Hv & _) _]. cbn in Hv. subst v. eauto.
Qed.

Lemma post_task_outages (user_id : option string) (w : world) :
  outages w = [] -> outages (snd (post_task user_id w)) = [].
Proof.
  unfold post_task. destruct (missing user_id) eqn:Hm; [done|].
  destruct user_id as [u|]; [|done]. cbn [default].
  unfold_handler. destruct w as [t s q iv o h].
  cbn [clock redis outages set_outages tail taskQueue invocations history].
  intros ->. handler_paths; reflexivity.
Qed.

(** Once the counter of the running window stands at the cap, a call of
    that user is delayed, or fails when an awaited call rejects. *)
Lemma post_task_saturated (u : string) (w : world) :
  rate_ok (redis w) -> missing (Some u) = false ->
  tasksPerMinute <= counter u (clock w / 60000) (redis w) ->
  let r := fst (post_task (Some u) w) in
  (r = delayed \/ r = server_error) /\ (outages w = [] -> r = delayed).
Proof.
  intros Hok Hu Hc. cbn zeta. unfold tasksPerMinute in Hc. split.
  - pose proof (post_task_counter (Some u) w Hok) as (_ & _ & Hadm).
    pose proof (post_task_cases (Some u) w) as H. cbn zeta in *.
    destruct (post_task (Some u) w) as [r w']. cbn [fst snd] in *.
    destruct H as [(Hm & _)|(u' & [= <-] & _ & H)]; [congruence|].
    destruct H as [[-> _]|[(_ & -> & _)|(_ & n & s1 & _ & H)]]; auto.
    destruct H as [[-> _]|[(_ & -> & _)|(_ & -> & _)]]; auto.
    destruct (Hadm u eq_refl eq_refl). lia.
  - intros Ho.
    destruct (truthy (get (clock w) (flagKey u) (redis w))) eqn:Hf.
    + by rewrite post_task_flagged.
    + destruct (incr_defined u (clock w) _ Hok) as (n & s1 & Hi).
      destruct (incr_window _ _ _ _ _ Hok Hi) as (_ & Hn & _).
      rewrite (post_task_exceeding u w Hu n s1); auto.
      unfold tasksPerMinute. lia.
Qed.

Lemma serve_saturated (u : string) (m : Z) (cs : list call) (w : world) :
  rate_ok (redis w) -> missing (Some u) = false ->
  tasksPerMinute <= counter u m (redis w) ->
  forall i t r,
    cs !! i = Some (Some u, t) -> t / 60000 = m ->
    fst (serve cs w) !! i = Some r ->
    (r = delayed \/ r = server_error) /\ (outages w = [] -> r = delayed).
Proof.
  intros Hok Hu. revert w Hok.
  induction cs as [|[user_id t0] cs IH]; intros w Hok Hc i t r Hi Ht Hr;
    [done|].
  cbn [serve] in Hr.
  pose proof (post_task_counter user_id (set_clock t0 w) Hok) as (Hok1 & Hmono & _).
  pose proof (post_task_outages user_id (set_clock t0 w)) as Hout.
  destruct (post_task user_id (set_clock t0 w)) as [r0 w1] eqn:Hp.
  destruct (serve cs w1) as [rs w2] eqn:Hs. cbn [fst snd] in *.
  destruct i as [|i]; cbn in Hi, Hr.
  - assert (user_id = Some u /\ t0 = t) as [-> ->] by (by simplify_eq).
    injection Hr as ->.
    pose proof (post_task_saturated u (set_clock t w) Hok Hu) as H.
    rewrite Hp in H. cbn [fst set_clock clock redis] in H.
    rewrite Ht in H. apply H, Hc.
  - specialize (Hmono u m). cbn [set_clock redis] in Hmono.
    specialize (IH w1 Hok1 ltac:(lia) i t r Hi Ht).
    rewrite Hs in IH. destruct (IH Hr) as [H1 H2]. split; [done|].
    intros Ho. apply H2, Hout, Ho.
Qed.

Lemma serve_rate_ok (cs : list call) (w : world) :
  rate_ok (redis w) -> rate_ok (redis (snd (serve cs w))).
Proof.
  revert w. induction cs as [|[user_id t0] cs IH]; intros w Hok; [done|].
  cbn [serve].
  pose proof (post_task_counter user_id (set_clock t0 w) Hok) as (Hok1 & _).
  destruct (post_task user_id (set_clock t0 w)) as [r0 w1].
  specialize (IH w1 Hok1). destruct (serve cs w1) as [rs w2]. done.
Qed.

Lemma rate_ok_empty : rate_ok ∅.
Proof. intros u m e. by rewrite lookup_empty. Qed.

End Saturation.

(* ===================================================================== *)
(** ** The spacing invariant is kept by every move *)
(* ===================================================================== *)

Section WorkerMoves.

(** Every move is one of the transitions, and keeps the clock and the job. *)
Lemma step_transition (th th' : thread) (w w' : world) :
  step th w = Some (th', w') ->
  job_data th' = job_data th /\ clock w' = clock w /\
  transition (job_data th) w w' (at_pc th) (at_pc th').
Proof.
  destruct th as [u p]. unfold step. cbn [at_pc job_data].
  destruct (enabled p (clock w)) eqn:Hen; [|done].
  destruct w as [t s q iv o h]. cbn [clock] in *.
  destruct p; cbn [next]; cbn in Hen; try done.
  all: unfold acquireLock, releaseLock.
  all: unfold try_catch, bind, redis_set_nx_ex,
         redis_get, redis_set, redis_del, task_settles, invoke, Date_now,
         await, on_redis, ret; cbn.
  all: try (destruct o as [|[] o]; cbn).
  all: try (destruct (set_nx_ex t (lockKey u) RLocked 5 s)
              as [[] s'] eqn:Hnx; cbn).
  all: try (destruct (spacing_delay lastExecutionTime t) as [d|] eqn:Hd; cbn).
  all: intros Heq; simplify_eq; cbn.
  all: split; [done|]; split; [done|].
  all: try (by constructor).
  all: try (unfold set_nx_ex in Hnx;
            destruct (find t (lockKey u) s) eqn:Hfind; simplify_eq;
            by constructor).
  all: try (constructor; cbn; by try apply Z.leb_le).
Qed.

End WorkerMoves.

Section SpacingFrames.

Lemma before_mono (u : string) (w : world) (b b' : Z) :
  before u w b -> b <= b' -> before u w b'.
Proof. intros H Hb t Ht. specialize (H t Ht). lia. Qed.

Lemma agree_before (u : string) (w w' : world) (b : Z) :
  agree u w w' -> before u w b -> before u w' b.
Proof. intros (_ & _ & Hi) H t Ht. apply H, Hi, Ht. Qed.

Lemma agree_stamp_ok (u : string) (w w' : world) :
  agree u w w' -> clock w <= clock w' -> stamp_ok u w -> stamp_ok u w'.
Proof.
  intros Ha Hc (last & Hl & Hb & Hle). exists last. split; [|split].
  - destruct Ha as (_ & -> & _). done.
  - by apply (agree_before u w).
  - lia.
Qed.

Lemma agree_lock_guard (u : string) (w w' : world) :
  agree u w w' -> lock_guard u w -> lock_guard u w'.
Proof.
  intros Ha (v & e & Hl & Hb). exists v, e. split.
  - destruct Ha as (-> & _). done.
  - by apply (agree_before u w).
Qed.

Lemma agree_holds_lock (u : string) (w w' : world) (since : Z) :
  agree u w w' -> holds_lock u since w -> holds_lock u since w'.
Proof. intros (Hl & _) H. unfold holds_lock. by rewrite Hl. Qed.

Lemma agree_guarded (u : string) (w w' : world) :
  agree u w w' -> clock w <= clock w' -> guarded u w -> guarded u w'.
Proof.
  intros Ha Hc [H|[H|H]].
  - left. apply (agree_before u w); [done|]. eapply before_mono; [done|lia].
  - right; left. by apply (agree_stamp_ok u w).
  - right; right. by apply (agree_lock_guard u w).
Qed.

Lemma agree_pc_ok (u : string) (w w' : world) (p : pc) :
  agree u w w' -> clock w <= clock w' -> pc_ok u p w -> pc_ok u p w'.
Proof.
  intros Ha Hc. destruct p; cbn; try done.
  - intros [H|H]; [left|right].
    + apply (agree_before u w); [done|]. eapply before_mono; [done|lia].
    + by apply (agree_stamp_ok u w).
  - intros [H|(last & Hl & H & Hle)]; [left|right].
    + apply (agree_before u w); [done|]. eapply before_mono; [done|lia].
    + exists last. split; [done|]. split; [|lia]. by apply (agree_before u w).
  - intros H. apply (agree_before u w); [done|].
    eapply before_mono; [done|lia].
  - intros [H Hle]. split; [|lia]. by apply (agree_before u w).
  - by apply agree_stamp_ok.
Qed.

Lemma agree_same (u : string) (w w' : world) :
  redis w' = redis w -> invocations w' = invocations w -> agree u w w'.
Proof. intros Hr Hi. unfold agree. by rewrite Hr, Hi. Qed.

(** A move of a run of [u] leaves what is read of another user alone. *)
Lemma transition_agree (u u' : string) (w w' : world) (p p' : pc) :
  transition u w w' p p' -> u' <> u -> agree u' w w'.
Proof.
  intros Ht Hu.
  assert (Hl : lockKey u <> lockKey u') by (intros H; by apply lockKey_inj in H).
  assert (Hs : lastExecutionKey u <> lastExecutionKey u')
    by (intros H; by apply lastExecutionKey_inj in H).
  pose proof (lockKey_lastExecutionKey u u') as H1.
  pose proof (lockKey_lastExecutionKey u' u) as H2.
  destruct Ht;
    repeat match goal with
           | H : redis w' = _ |- _ => revert H
           | H : invocations w' = _ |- _ => revert H
           end; intros Hi Hr; unfold agree; rewrite Hr, Hi;
    unfold set_ex, set, del;
    rewrite ?lookup_insert_ne, ?lookup_delete_ne by done;
    (split; [done|split; [done|]]); intros t; try done.
  all: rewrite elem_of_cons; split; [intros [?|?]; [congruence|done]|auto].
Qed.

Lemma well_spaced_spaced (inv : list (string * Z)) :
  well_spaced inv -> spaced inv.
Proof.
  induction inv as [|[u0 t0] inv IH]; intros Hw i j u ti tj Hij Hi Hj; [done|].
  destruct Hw as [Hnew Hw].
  destruct i as [|i], j as [|j]; cbn in Hi, Hj; simplify_eq.
  - apply list_elem_of_lookup_2 in Hj. specialize (Hnew _ Hj). lia.
  - apply list_elem_of_lookup_2 in Hi. specialize (Hnew _ Hi). lia.
  - apply (IH Hw i j u); auto.
Qed.

End SpacingFrames.

Section SpacingInvariant.

Lemma holds_lock_live (u : string) (since : Z) (w : world) :
  holds_lock u since w -> clock w < since + 5000 ->
  find (clock w) (lockKey u) (redis w)
  = Some (Entry RLocked (Some (since + 5000))).
Proof.
  intros H Hc. unfold find. rewrite H. unfold live. cbn.
  destruct (Z.ltb_spec (clock w) (since + 5000)); [done|lia].
Qed.

(** Two runs that both hold a lease in good time are the same run. *)
Lemma two_holders (c : config) (i j : nat) (thi thj : thread) (si sj : Z) :
  sound c -> i <> j ->
  runs c !! i = Some thi -> runs c !! j = Some thj ->
  job_data thi = job_data thj ->
  lease_start (at_pc thi) = Some si -> lease_start (at_pc thj) = Some sj ->
  clock (shared c) <= si + 4000 -> clock (shared c) <= sj + 4000 -> False.
Proof.
  intros Hs Hij Hi Hj Hu Hli Hlj Hci Hcj.
  destruct (sound_holder c Hs i thi si Hi Hli Hci) as [H1 _].
  destruct (sound_holder c Hs j thj sj Hj Hlj Hcj) as [H2 _].
  rewrite Hu in H1. unfold holds_lock in *. rewrite H1 in H2.
  assert (si = sj) as -> by (injection H2; lia).
  by apply (sound_unique c Hs i j thi thj sj).
Qed.

(** Two runs that are both within their lease are the same run. *)
Lemma one_holder (c : config) (i j : nat) (thi thj : thread) (si sj : Z) :
  sound c -> i <> j ->
  runs c !! i = Some thi -> runs c !! j = Some thj ->
  job_data thi = job_data thj ->
  lease_start (at_pc thi) = Some si -> lease_start (at_pc thj) = Some sj ->
  clock (shared c) < si + 5000 -> clock (shared c) < sj + 5000 -> False.
Proof.
  intros Hs Hij Hi Hj Hu Hli Hlj Hci Hcj.
  pose proof (sound_lease c Hs i thi si Hi Hli Hci) as H1.
  pose proof (sound_lease c Hs j thj sj Hj Hlj Hcj) as H2.
  rewrite Hu in H1. unfold holds_lock in *. rewrite H1 in H2.
  assert (si = sj) as -> by (injection H2; lia).
  by apply (sound_unique c Hs i j thi thj sj).
Qed.

(** Later, with the same invocations and the same lock and stamp
    entries, the invariant still holds. *)
Lemma sound_later (c : config) (w' : world) :
  sound c -> clock (shared c) <= clock w' ->
  invocations w' = invocations (shared c) ->
  (forall u, redis w' !! lockKey u = redis (shared c) !! lockKey u) ->
  (forall u, redis w' !! lastExecutionKey u
             = redis (shared c) !! lastExecutionKey u) ->
  sound (Config w' (runs c) (calls c)).
Proof.
  intros Hs Hc Hiv Hl Hst.
  assert (Ha : forall u, agree u (shared c) w').
  { intros u. unfold agree. by rewrite Hl, Hst, Hiv. }
  destruct Hs as [H1 H2 H3 H4 H6 H5]. split; cbn [shared runs].
  - by rewrite Hiv.
  - intros u. apply (agree_before u (shared c)); [done|].
    eapply before_mono; [apply H2|done].
  - intros u. by apply (agree_guarded u (shared c)).
  - intros i th since Hi Hls Hp.
    destruct (H4 i th since Hi Hls ltac:(lia)) as [Hh Hpc]. split.
    + by apply (agree_holds_lock _ (shared c)).
    + by apply (agree_pc_ok _ (shared c)).
  - intros i th since Hi Hls Hp.
    apply (agree_holds_lock _ (shared c)); [done|].
    apply (H6 i th since Hi Hls). lia.
  - done.
Qed.

Lemma tick_sound (c : config) (d : Z) :
  sound c -> 0 <= d ->
  sound (Config (set_clock (clock (shared c) + d) (shared c)) (runs c) (calls c)).
Proof. intros Hs Hd. apply sound_later; auto. cbn. lia. Qed.

(** A run that has not asked for the lock yet changes nothing. *)
Lemma spawn_sound (c : config) (u : string) :
  sound c ->
  sound (Config (shared c) (runs c ++ [Thread u Acquire]) (calls c)).
Proof.
  intros [H1 H2 H3 H4 H6 H5].
  assert (Hold : forall i th since,
            (runs c ++ [Thread u Acquire]) !! i = Some th ->
            lease_start (at_pc th) = Some since -> runs c !! i = Some th).
  { intros i th since Hi Hl. apply lookup_app_Some in Hi as [Hi|[_ Hi]]; [done|].
    destruct (i - length (runs c))%nat; cbn in Hi; by simplify_eq. }
  split; cbn [shared runs]; auto.
  - intros i th since Hi Hl. apply (H4 i th since); eauto.
  - intros i th since Hi Hl. apply (H6 i th since); eauto.
  - intros i j thi thj since Hij Hi Hj Hu Hli Hlj.
    apply (H5 i j thi thj since); eauto.
Qed.

(** The obligations of a move of run [i], once everything about other
    users has been framed away. *)
Lemma sound_move (c : config) (i : nat) (u : string) (p p' : pc) (w' : world) :
  sound c -> runs c !! i = Some (Thread u p) ->
  clock w' = clock (shared c) ->
  transition u (shared c) w' p p' ->
  well_spaced (invocations w') ->
  before u w' (clock w') ->
  guarded u w' ->
  (forall since, lease_start p' = Some since -> clock w' <= since + 4000 ->
     holds_lock u since w' /\ pc_ok u p' w') ->
  (forall j thj since, j <> i -> runs c !! j = Some thj -> job_data thj = u ->
     lease_start (at_pc thj) = Some since -> clock w' <= since + 4000 ->
     holds_lock u since w' /\ pc_ok u (at_pc thj) w') ->
  (forall since, lease_start p' = Some since -> clock w' < since + 5000 ->
     holds_lock u since w') ->
  (forall j thj since, j <> i -> runs c !! j = Some thj -> job_data thj = u ->
     lease_start (at_pc thj) = Some since -> clock w' < since + 5000 ->
     holds_lock u since w') ->
  (forall j thj since, j <> i -> runs c !! j = Some thj -> job_data thj = u ->
     lease_start p' = Some since -> lease_start (at_pc thj) = Some since ->
     False) ->
  sound (Config w' (<[i := Thread u p']> (runs c)) (calls c)).
Proof.
  intros Hs Hi Hc Ht P1 P2 P3 P4 P5 P7 P8 P6.
  pose proof (lookup_lt_Some _ _ _ Hi) as Hlen.
  split; cbn [shared runs].
  - done.
  - intros u0. destruct (decide (u0 = u)) as [->|Hne]; [done|].
    apply (agree_before u0 (shared c)); [by eapply transition_agree|].
    rewrite Hc. apply (sound_past c Hs).
  - intros u0. destruct (decide (u0 = u)) as [->|Hne]; [done|].
    apply (agree_guarded u0 (shared c)); [by eapply transition_agree|lia|].
    apply (sound_guard c Hs).
  - intros j thj since Hj Hl Hp. destruct (decide (j = i)) as [->|Hji].
    + rewrite list_lookup_insert_eq in Hj by done. simplify_eq. cbn in *. auto.
    + rewrite list_lookup_insert_ne in Hj by done.
      destruct (decide (job_data thj = u)) as [Hu|Hne].
      * rewrite Hu. by apply (P5 j thj since).
      * destruct (sound_holder c Hs j thj since Hj Hl ltac:(lia)) as [Hh Hpc].
        assert (agree (job_data thj) (shared c) w') by (by eapply transition_agree).
        split.
        -- by apply (agree_holds_lock _ (shared c)).
        -- apply (agree_pc_ok _ (shared c)); [done|lia|done].
  - intros j thj since Hj Hl Hp. destruct (decide (j = i)) as [->|Hji].
    + rewrite list_lookup_insert_eq in Hj by done. simplify_eq. cbn in *. auto.
    + rewrite list_lookup_insert_ne in Hj by done.
      destruct (decide (job_data thj = u)) as [Hu|Hne].
      * rewrite Hu. by apply (P8 j thj since).
      * apply (agree_holds_lock _ (shared c)); [by eapply transition_agree|].
        apply (sound_lease c Hs j thj since Hj Hl). lia.
  - intros j k thj thk since Hjk Hj Hk Hu Hlj Hlk.
    destruct (decide (j = i)) as [->|Hji], (decide (k = i)) as [->|Hki];
      try done.
    + rewrite list_lookup_insert_eq in Hj by done.
      rewrite list_lookup_insert_ne in Hk by done. simplify_eq. cbn in *.
      by apply (P6 k thk since).
    + rewrite list_lookup_insert_eq in Hk by done.
      rewrite list_lookup_insert_ne in Hj by done. simplify_eq. cbn in *.
      by apply (P6 j thj since).
    + rewrite list_lookup_insert_ne in Hj, Hk by done.
      by apply (sound_unique c Hs j k thj thk since).
Qed.

End SpacingInvariant.

Section SpacingMoves.

Context (c : config) (i : nat) (u : string) (w' : world).
Hypothesis Hs : sound c.
Hypothesis Hc : clock w' = clock (shared c).

Local Abbreviation w := (shared c).

(** Another run of the same user cannot hold a lease in good time while
    this one does. *)
Lemma alone_with_lease (p : pc) (since : Z) :
  runs c !! i = Some (Thread u p) ->
  prompt (Thread u p) (clock (shared c)) = true ->
  lease_start p = Some since ->
  forall j thj sj, j <> i -> runs c !! j = Some thj -> job_data thj = u ->
    lease_start (at_pc thj) = Some sj -> clock w' < sj + 5000 -> False.
Proof.
  intros Hi Hprompt Hl j thj sj Hji Hj Hu Hlj Hp.
  unfold prompt in Hprompt. cbn in Hprompt. rewrite Hl in Hprompt.
  apply Z.leb_le in Hprompt.
  apply (one_holder c i j (Thread u p) thj since sj); auto; lia.
Qed.

Lemma own_lock (p : pc) (since : Z) :
  runs c !! i = Some (Thread u p) ->
  prompt (Thread u p) (clock (shared c)) = true ->
  lease_start p = Some since -> holds_lock u since w /\ pc_ok u p w.
Proof.
  intros Hi Hprompt Hl. unfold prompt in Hprompt. cbn in Hprompt. rewrite Hl in Hprompt.
  apply Z.leb_le in Hprompt.
  by apply (sound_holder c Hs i (Thread u p) since).
Qed.

Lemma same_lease_unique (p : pc) (since : Z) :
  runs c !! i = Some (Thread u p) ->
  lease_start p = Some since ->
  forall j thj, j <> i -> runs c !! j = Some thj -> job_data thj = u ->
    lease_start (at_pc thj) = Some since -> False.
Proof.
  intros Hi Hl j thj Hji Hj Hu Hlj.
  by apply (sound_unique c Hs i j (Thread u p) thj since).
Qed.

(** A move that changes neither the store nor the invocations. *)
Lemma quiet_move (p p' : pc) :
  runs c !! i = Some (Thread u p) ->
  prompt (Thread u p) (clock (shared c)) = true ->
  transition u w w' p p' ->
  redis w' = redis w -> invocations w' = invocations w ->
  (forall since, lease_start p' = Some since ->
     lease_start p = Some since /\ (pc_ok u p w -> pc_ok u p' w')) ->
  sound (Config w' (<[i := Thread u p']> (runs c)) (calls c)).
Proof.
  intros Hi Hprompt Ht Hr Hiv Hown.
  assert (Ha : forall u0, agree u0 w w') by (intros; by apply agree_same).
  apply (sound_move c i u p p' w'); auto.
  - rewrite Hiv. apply (sound_spaced c Hs).
  - apply (agree_before u w); [done|]. rewrite Hc. apply (sound_past c Hs).
  - apply (agree_guarded u w); [done|lia|]. apply (sound_guard c Hs).
  - intros since Hl Hp. destruct (Hown since Hl) as [Hl0 Hpc].
    destruct (own_lock p since Hi Hprompt Hl0) as [Hh Hpc0]. split; [|by auto].
    by apply (agree_holds_lock u w).
  - intros j thj since Hji Hj Hu Hl Hp.
    destruct (sound_holder c Hs j thj since Hj Hl ltac:(lia)) as [Hh Hpc].
    rewrite Hu in Hh, Hpc. split.
    + by apply (agree_holds_lock u w).
    + apply (agree_pc_ok u w); [done|lia|done].
  - intros since Hl Hp. destruct (Hown since Hl) as [Hl0 _].
    apply (agree_holds_lock u w); [done|].
    apply (sound_lease c Hs i (Thread u p) since Hi Hl0). lia.
  - intros j thj since Hji Hj Hu Hl Hp.
    apply (agree_holds_lock u w); [done|]. rewrite <- Hu.
    apply (sound_lease c Hs j thj since Hj Hl). lia.
  - intros j thj since Hji Hj Hu Hl Hlj.
    destruct (Hown since Hl) as [Hl0 _].
    by apply (same_lease_unique p since Hi Hl0 j thj).
Qed.

Lemma move_sound (p p' : pc) :
  runs c !! i = Some (Thread u p) ->
  prompt (Thread u p) (clock (shared c)) = true ->
  transition u w w' p p' ->
  sound (Config w' (<[i := Thread u p']> (runs c)) (calls c)).
Proof.
  intros Hi Hprompt Ht. pose proof Ht as Ht0.
  destruct Ht as [Hfind Hr Hiv|Hr Hiv|wake Hr Hiv|since Hr Hiv
                 |since last delay Hd Hr Hiv|since last Hd Hr Hiv
                 |since wake Hwake Hr Hiv|since Hr Hiv|since stamp Hr Hiv
                 |since Hr Hiv|p Hr Hiv].
  - (* the lock is taken *)
    assert (Hgu : before u w (clock w - 1000) \/ stamp_ok u w).
    { destruct (sound_guard c Hs u) as [H|[H|(v & e & Hl & Hb)]]; auto.
      left. unfold find in Hfind. rewrite Hl in Hfind.
      unfold live in Hfind. cbn in Hfind.
      destruct (Z.ltb_spec (clock w) e); [done|].
      eapply before_mono; [done|lia]. }
    assert (Hst : redis w' !! lastExecutionKey u = redis w !! lastExecutionKey u).
    { rewrite Hr. unfold set_ex. apply lookup_insert_ne, lockKey_lastExecutionKey. }
    assert (Hb : forall b, before u w b -> before u w' b).
    { intros b H t. rewrite Hiv. apply H. }
    assert (Hgu' : before u w' (clock w' - 1000) \/ stamp_ok u w').
    { destruct Hgu as [H|(l & Hl & H & Hle)]; [left|right].
      - rewrite Hc. by apply Hb.
      - exists l. rewrite Hst, Hc. auto. }
    assert (Hno : forall j thj sj, runs c !! j = Some thj -> job_data thj = u ->
              lease_start (at_pc thj) = Some sj -> clock w' < sj + 5000 -> False).
    { intros j thj sj Hj Hu Hl Hp.
      pose proof (sound_lease c Hs j thj sj Hj Hl ltac:(lia)) as Hh.
      rewrite Hu in Hh. apply holds_lock_live in Hh; [|lia].
      congruence. }
    assert (Hmine : holds_lock u (clock w) w').
    { unfold holds_lock. rewrite Hr. unfold set_ex.
      rewrite lookup_insert_eq. repeat f_equal; lia. }
    apply (sound_move c i u _ _ w' Hs Hi Hc Ht0).
    + rewrite Hiv. apply (sound_spaced c Hs).
    + apply Hb. rewrite Hc. apply (sound_past c Hs).
    + destruct Hgu' as [H|H]; [by left|by right; left].
    + intros since [= <-] _. by split.
    + intros j thj sj _ Hj Hu Hl Hp. destruct (Hno j thj sj); auto. lia.
    + by intros since [= <-] _.
    + intros j thj sj _ Hj Hu Hl Hp. destruct (Hno j thj sj); auto.
    + intros j thj sj _ Hj Hu [= <-] Hl.
      apply (Hno j thj (clock w)); auto. lia.
  - by apply (quiet_move _ _ Hi Hprompt).
  - by apply (quiet_move _ _ Hi Hprompt).
  - (* the stamp is read *)
    apply (quiet_move _ _ Hi Hprompt); auto. intros s [= <-]. split; [done|].
    cbn. rewrite Hc. intros [H|(l & Hl & H & Hle)]; [left|right].
    + intros t. rewrite Hiv. apply H.
    + exists l. split; [|split; [|done]].
      * unfold get, find. rewrite Hl. done.
      * intros t. rewrite Hiv. apply H.
  - (* a pause is due *)
    apply (quiet_move _ _ Hi Hprompt); auto. intros s [= <-]. split; [done|].
    cbn. rewrite Hc. intros H t. rewrite Hiv. intros Hin.
    assert (Hpos : 1 <= timeout delay).
    { unfold timeout. destruct (Z.leb_spec 1 delay); cbn; [|lia].
      destruct (Z.leb_spec delay TIMEOUT_MAX); lia. }
    destruct H as [H|(l & -> & H & Hle)]; specialize (H t Hin); [lia|].
    unfold spacing_delay in Hd. cbn in Hd.
    destruct (Z.gtb_spec (Z.max (1000 - (clock w - l)) 0) 0); [|done].
    simplify_eq. unfold timeout, TIMEOUT_MAX.
    destruct (Z.leb_spec 1 (Z.max (1000 - (clock w - l)) 0)); cbn; [|lia].
    destruct (Z.leb_spec (Z.max (1000 - (clock w - l)) 0) 2147483647); lia.
  - (* invoked without a pause *)
    destruct (own_lock _ since Hi Hprompt eq_refl) as [Hh Hpc]. cbn in Hpc.
    assert (Hprompt' : clock w <= since + 4000).
    { unfold prompt in Hprompt. cbn in Hprompt. by apply Z.leb_le in Hprompt. }
    assert (Hgap : before u w (clock w - 1000)).
    { destruct Hpc as [H|(l & -> & H & Hle)]; [done|].
      unfold spacing_delay in Hd. cbn in Hd.
      destruct (Z.gtb_spec (Z.max (1000 - (clock w - l)) 0) 0); [done|].
      eapply before_mono; [done|lia]. }
    apply (sound_move c i u _ _ w' Hs Hi Hc Ht0).
    + rewrite Hiv. split; [|apply (sound_spaced c Hs)].
      intros t Ht. specialize (Hgap t Ht). lia.
    + intros t. rewrite Hiv, elem_of_cons. intros [[= ->]|Ht]; [lia|].
      rewrite Hc. by apply (sound_past c Hs u).
    + right; right. exists RLocked, (since + 5000). split.
      * rewrite Hr. apply Hh.
      * intros t. rewrite Hiv, elem_of_cons. intros [[= ->]|Ht]; [lia|].
        pose proof (sound_past c Hs u t Ht). lia.
    + intros s [= <-] _. split; [|done]. unfold holds_lock. by rewrite Hr.
    + intros j thj sj Hji Hj Hu Hl Hp.
      destruct (alone_with_lease _ since Hi Hprompt eq_refl j thj sj); auto.
      lia.
    + intros s [= <-] _. unfold holds_lock. by rewrite Hr.
    + intros j thj sj Hji Hj Hu Hl Hp.
      destruct (alone_with_lease _ since Hi Hprompt eq_refl j thj sj); auto.
    + intros j thj sj Hji Hj Hu [= <-] Hl.
      by apply (same_lease_unique _ since Hi eq_refl j thj).
  - (* invoked after the pause *)
    destruct (own_lock _ since Hi Hprompt eq_refl) as [Hh Hpc]. cbn in Hpc.
    assert (Hprompt' : clock w <= since + 4000).
    { unfold prompt in Hprompt. cbn in Hprompt. by apply Z.leb_le in Hprompt. }
    assert (Hgap : before u w (clock w - 1000)).
    { eapply before_mono; [done|]. lia. }
    apply (sound_move c i u _ _ w' Hs Hi Hc Ht0).
    + rewrite Hiv. split; [|apply (sound_spaced c Hs)].
      intros t Ht. specialize (Hgap t Ht). lia.
    + intros t. rewrite Hiv, elem_of_cons. intros [[= ->]|Ht]; [lia|].
      rewrite Hc. by apply (sound_past c Hs u).
    + right; right. exists RLocked, (since + 5000). split.
      * rewrite Hr. apply Hh.
      * intros t. rewrite Hiv, elem_of_cons. intros [[= ->]|Ht]; [lia|].
        pose proof (sound_past c Hs u t Ht). lia.
    + intros s [= <-] _. split; [|done]. unfold holds_lock. by rewrite Hr.
    + intros j thj sj Hji Hj Hu Hl Hp.
      destruct (alone_with_lease _ since Hi Hprompt eq_refl j thj sj); auto.
      lia.
    + intros s [= <-] _. unfold holds_lock. by rewrite Hr.
    + intros j thj sj Hji Hj Hu Hl Hp.
      destruct (alone_with_lease _ since Hi Hprompt eq_refl j thj sj); auto.
    + intros j thj sj Hji Hj Hu [= <-] Hl.
      by apply (same_lease_unique _ since Hi eq_refl j thj).
  - (* the task has settled *)
    apply (quiet_move _ _ Hi Hprompt); auto. intros s [= <-]. split; [done|].
    cbn. intros _. split; [|lia]. intros t. rewrite Hiv.
    apply (sound_past c Hs u).
  - (* the stamp is written *)
    destruct (own_lock _ since Hi Hprompt eq_refl) as [Hh Hpc]. cbn in Hpc.
    assert (Hst : stamp_ok u w').
    { exists stamp. rewrite Hr. unfold set. rewrite lookup_insert_eq.
      split; [done|]. split; [|lia]. intros t. rewrite Hiv. apply Hpc. }
    assert (Hmine : holds_lock u since w').
    { unfold holds_lock.
      rewrite Hr. unfold set. rewrite lookup_insert_ne; [done|].
      intros H. by apply eq_sym, lockKey_lastExecutionKey in H. }
    apply (sound_move c i u _ _ w' Hs Hi Hc Ht0).
    + rewrite Hiv. apply (sound_spaced c Hs).
    + intros t. rewrite Hiv, Hc. apply (sound_past c Hs u).
    + by right; left.
    + intros s [= <-] _. by split.
    + intros j thj sj Hji Hj Hu Hl Hp.
      destruct (alone_with_lease _ since Hi Hprompt eq_refl j thj sj); auto.
      lia.
    + by intros s [= <-] _.
    + intros j thj sj Hji Hj Hu Hl Hp.
      destruct (alone_with_lease _ since Hi Hprompt eq_refl j thj sj); auto.
    + intros j thj sj Hji Hj Hu [= <-] Hl.
      by apply (same_lease_unique _ since Hi eq_refl j thj).
  - (* the lock is released *)
    destruct (own_lock _ since Hi Hprompt eq_refl) as [Hh Hpc]. cbn in Hpc.
    assert (Hst : stamp_ok u w').
    { destruct Hpc as (l & Hl & H & Hle). exists l. rewrite Hr. unfold del.
      rewrite lookup_delete_ne by apply lockKey_lastExecutionKey.
      split; [done|]. split; [|lia]. intros t. rewrite Hiv. apply H. }
    apply (sound_move c i u _ _ w' Hs Hi Hc Ht0).
    + rewrite Hiv. apply (sound_spaced c Hs).
    + intros t. rewrite Hiv, Hc. apply (sound_past c Hs u).
    + by right; left.
    + intros s [=].
    + intros j thj sj Hji Hj Hu Hl Hp.
      destruct (alone_with_lease _ since Hi Hprompt eq_refl j thj sj); auto.
      lia.
    + intros s [=].
    + intros j thj sj Hji Hj Hu Hl Hp.
      destruct (alone_with_lease _ since Hi Hprompt eq_refl j thj sj); auto.
    + intros j thj sj _ _ _ [=].
  - by apply (quiet_move _ _ Hi Hprompt).
Qed.

End SpacingMoves.

Section SpacingRuns.

(** The invariant does not read the requests in flight. *)
Lemma sound_calls (w : world) (rs : list thread) (hs hs' : list handler) :
  sound (Config w rs hs) -> sound (Config w rs hs').
Proof. intros [H1 H2 H3 H4 H5 H6]. by split. Qed.

(** Every awaited call of a handler is one of the steps of [progress],
    and keeps the clock, the invocations and the request. *)
Lemma advance_progress (h h' : handler) (w w' : world) :
  advance h w = Some (h', w') ->
  caller h' = caller h /\ currentTime h' = currentTime h /\
  clock w' = clock w /\ invocations w' = invocations w /\
  progress (caller h) (currentTime h) w w' (at_stage h) (at_stage h').
Proof.
  destruct h as [u ct s]. unfold advance. cbn [at_stage caller currentTime].
  destruct w as [t r q iv o h]. cbn [clock].
  destruct s; cbn [proceed]; try done.
  all: unfold try_catch, bind, redis_get, redis_incr, redis_expire,
         redis_set_ex, taskQueue_add, await, on_redis, ret; cbn.
  all: destruct o as [|[] o]; cbn.
  all: try (destruct (incr t (redisKey u (ct / 60000)) r)
              as [[n s1]|] eqn:Hincr; cbn).
  all: try (destruct (expire t (redisKey u (ct / 60000)) 60 r)
              as [b s2] eqn:Hexp; cbn).
  all: try (destruct (truthy (get t (flagKey u) r)); cbn).
  all: intros Heq; simplify_eq; cbn; do 4 (split; [done|]).
  all: try (by constructor).
  all: try (by apply (P_counted u ct _ _ n s1)).
  all: try (constructor; cbn; by rewrite Hexp).
Qed.

(** A handler reads and writes flags and window counters only. *)
Lemma progress_frame (u : string) (ct : Z) (w w' : world) (s s' : stage)
    (k : string) :
  progress u ct w w' s s' ->
  (forall u, k <> flagKey u) -> (forall u m, k <> redisKey u m) ->
  redis w' !! k = redis w !! k.
Proof.
  intros Hp Hf Hr.
  destruct Hp as [->| ->|n s1 Hi ->|n ->|n ->|t ->|n ->|s ->]; try done.
  - unfold incr in Hi.
    destruct (find (clock w) (redisKey u (ct / 60000)) (redis w))
      as [[[| |] x]|]; simplify_eq; by rewrite lookup_insert_ne.
  - unfold expire.
    destruct (find (clock w) (redisKey u (ct / 60000)) (redis w)); [|done].
    cbn. by rewrite lookup_insert_ne.
  - unfold set_ex. by rewrite lookup_insert_ne.
Qed.

Lemma fire_sound (tm : timing) (l : label) (c c' : config) :
  prompt_runs tm = true -> sound c -> fire tm l c = Some c' -> sound c'.
Proof.
  intros Htm Hs. destruct l as [d|i|user_id|i|k|i]; cbn; rewrite ?Htm.
  - destruct (Z.leb_spec 0 d); [|done]. intros [= <-]. by apply tick_sound.
  - destruct (runs c !! i) as [[u p]|] eqn:Hi; [|done].
    destruct (prompt (Thread u p) (clock (shared c))) eqn:Hp; [|done]. cbn.
    destruct (step (Thread u p) (shared c)) as [[[u' p'] w']|] eqn:Hstep;
      [|done].
    intros [= <-].
    apply step_transition in Hstep as (Hu & Hc & Ht). cbn in Hu, Ht. subst u'.
    by apply (move_sound c i u w' Hs Hc p p').
  - intros [= <-]. apply (sound_calls _ _ (calls c)). by destruct c.
  - destruct (calls c !! i) as [h|]; [|done].
    destruct (timely_calls tm && negb (timely h (clock (shared c)))); [done|].
    destruct (advance h (shared c)) as [[h' w']|] eqn:Hadv; [|done].
    intros [= <-].
    apply advance_progress in Hadv as (_ & _ & Hc & Hiv & Hp).
    apply (sound_calls _ _ (calls c)).
    apply sound_later; auto; [lia|..]; intros u;
      apply (progress_frame _ _ _ _ _ _ _ Hp);
      auto using lockKey_flagKey, lockKey_redisKey, lastExecutionKey_flagKey,
                 lastExecutionKey_redisKey.
  - destruct (taskQueue (shared c) !! k) as [j|]; [|done]. intros [= <-].
    apply (spawn_sound
             (Config (set_taskQueue (delete k (taskQueue (shared c))) (shared c))
                     (runs c) (calls c))).
    apply sound_later; auto. cbn. lia.
  - destruct (runs c !! i) as [th|]; [|done]. intros [= <-].
    by apply spawn_sound.
Qed.

Lemma exec_sound (tm : timing) (ls : list label) (c c' : config) :
  prompt_runs tm = true -> sound c -> exec tm ls c = Some c' -> sound c'.
Proof.
  intros Htm. revert c. induction ls as [|l ls IH]; intros c Hs; cbn.
  - by intros [= <-].
  - destruct (fire tm l c) as [c1|] eqn:Hf; [|done].
    apply IH. by apply (fire_sound tm l c).
Qed.

Lemma start_sound (w : world) (users : list string) :
  invocations w = [] -> sound (start w users).
Proof.
  intros Hiv.
  assert (Hb : forall u b, before u w b).
  { intros u b t. rewrite Hiv. by intros ?%elem_of_nil. }
  assert (Hl : forall i th, runs (start w users) !! i = Some th ->
                 lease_start (at_pc th) = None).
  { intros i th. unfold start. cbn. rewrite list_lookup_fmap.
    destruct (users !! i); [|done]. by intros [= <-]. }
  split; unfold start in *; cbn [shared runs] in *.
  - by rewrite Hiv.
  - auto.
  - left. auto.
  - intros i th since Hi Hs. by rewrite (Hl i th Hi) in Hs.
  - intros i th since Hi Hs. by rewrite (Hl i th Hi) in Hs.
  - intros i j thi thj since _ Hi _ _ Hs. by rewrite (Hl i thi Hi) in Hs.
Qed.

End SpacingRuns.


(* ===================================================================== *)
(** ** Handlers in flight: the counts handed out in a window *)
(* ===================================================================== *)

Section HandlerAlone.

(** A handler that runs its awaited calls in one piece is [post_task]. *)
Lemma post_task_settle (user_id : option string) (w : world) :
  post_task user_id w =
  let (h, w') := settle 5 (arrive user_id (clock w)) w in (answer h, w').
Proof.
  unfold post_task, arrive. destruct (missing user_id) eqn:Hm; [done|].
  destruct user_id as [u|]; [|done]. cbn [default].
  destruct w as [t s q iv o h].
  remember (let (h0, w') := settle 5 _ _ in (answer h0, w')) as rhs eqn:Hr.
  unfold_handler.
  cbn [clock redis outages set_outages tail taskQueue invocations history].
  handler_paths.
  all: subst rhs.
  all: unfold settle, advance, proceed, over_or_under, answer, tasksPerMinute.
  all: unfold try_catch, bind, redis_get, redis_incr, redis_expire,
         redis_set_ex, taskQueue_add, await, on_redis, ret.
  all: repeat first
         [ progress cbn
         | match goal with
           | H : ?x = _ |- context [?x] => rewrite H
           | H : ?n <= 20 |- context [?n >? 20] =>
               destruct (Z.gtb_spec n 20); [lia|]
           | H : 20 < ?n |- context [?n >? 20] =>
               destruct (Z.gtb_spec n 20); [|lia]
           end ].
  all: reflexivity.
Qed.

End HandlerAlone.

Section Fairness.

Lemma find_lookup (t : Z) (k : string) (s : store) (e : entry) :
  find t k s = Some e -> s !! k = Some e.
Proof.
  unfold find. destruct (s !! k) as [e'|]; [|done].
  by destruct (live t e'); intros [= ->].
Qed.

(** [EXPIRE] issued at any time after the start of the window. *)
Lemma expire_late (u : string) (m t : Z) (s : store) :
  rate_ok s -> 60000 * m <= t ->
  rate_ok (snd (expire t (redisKey u m) 60 s)) /\
  forall u' m', counter u' m' (snd (expire t (redisKey u m) 60 s))
                = counter u' m' s.
Proof.
  intros Hok Ht. unfold expire.
  destruct (find t (redisKey u m) s) as [[v x]|] eqn:Hf; [|done].
  apply find_lookup in Hf.
  destruct (Hok _ _ _ Hf) as [(n & Hv & Hn) _]. cbn in Hv. subst v. cbn.
  split.
  - apply rate_ok_insert; auto. intros y [= <-]. lia.
  - intros u' m'. unfold counter. rewrite lookup_insert. case_decide as Hk.
    + by rewrite <- Hk, Hf.
    + done.
Qed.

Lemma rate_ok_delete (k : string) (s : store) :
  rate_ok s -> rate_ok (delete k s).
Proof.
  intros Hok u m e. rewrite lookup_delete. case_decide; [done|]. apply Hok.
Qed.

(** A move of the processor leaves the window counters alone. *)
Lemma transition_rate (u : string) (w w' : world) (p p' : pc) :
  transition u w w' p p' -> rate_ok (redis w) ->
  rate_ok (redis w') /\
  forall u' m', counter u' m' (redis w') = counter u' m' (redis w).
Proof.
  intros Ht Hok.
  destruct Ht;
    repeat match goal with
           | H : redis w' = _ |- _ => rewrite H; clear H
           end; try done.
  - split.
    + apply rate_ok_insert_other; auto using lockKey_redisKey.
    + intros u' m'. apply counter_insert_ne, lockKey_redisKey.
  - split.
    + apply rate_ok_insert_other; auto using lastExecutionKey_redisKey.
    + intros u' m'. apply counter_insert_ne, lastExecutionKey_redisKey.
  - split.
    + by apply rate_ok_delete.
    + intros u' m'. unfold counter, del.
      by rewrite lookup_delete_ne by apply lockKey_redisKey.
Qed.

(** The invariant reads the store through the window counters only, and
    does not read the runs. *)
Lemma fair_world (c : config) (w' : world) (rs : list thread) :
  fair c -> clock (shared c) <= clock w' -> rate_ok (redis w') ->
  (forall u m, counter u m (redis (shared c)) <= counter u m (redis w')) ->
  fair (Config w' rs (calls c)).
Proof.
  intros [H1 H2 H3 H4 H5 H6] Hc Hok Hm. split; cbn [shared calls]; auto.
  - intros i h Hi. specialize (H2 i h Hi). lia.
  - intros i h n Hi Ht. specialize (H3 i h n Hi Ht).
    specialize (Hm (caller h) (currentTime h / 60000)). lia.
Qed.

Lemma fair_arrive (c : config) (user_id : option string) :
  fair c ->
  fair (Config (shared c) (runs c)
               (calls c ++ [arrive user_id (clock (shared c))])).
Proof.
  intros [H1 H2 H3 H4 H5 H6].
  assert (Hnew : forall i h,
            (calls c ++ [arrive user_id (clock (shared c))]) !! i = Some h ->
            calls c !! i = Some h \/
            (h = arrive user_id (clock (shared c)))).
  { intros i h Hi. apply lookup_app_Some in Hi as [Hi|[_ Hi]]; [by left|].
    right. destruct (i - length (calls c))%nat; cbn in Hi; by simplify_eq. }
  assert (Hnone : ticket (at_stage (arrive user_id (clock (shared c)))) = None).
  { unfold arrive. cbn. by destruct (missing user_id). }
  split; cbn [shared calls]; auto.
  - intros i h Hi. destruct (Hnew i h Hi) as [Ho| ->]; [by eapply H2|].
    cbn. lia.
  - intros i h n Hi Ht. destruct (Hnew i h Hi) as [Ho| ->]; [by eapply H3|].
    congruence.
  - intros i j hi hj n Hij Hi Hj Hu Hm Hti Htj.
    destruct (Hnew i hi Hi) as [Hoi| ->]; [|congruence].
    destruct (Hnew j hj Hj) as [Hoj| ->]; [|congruence].
    by apply (H4 i j hi hj n).
  - intros i h Hi. destruct (Hnew i h Hi) as [Ho| ->]; [by eapply H5|].
    unfold arrive. cbn. by destruct (missing user_id).
  - intros i h r t Hi Hs. destruct (Hnew i h Hi) as [Ho| ->]; [by eapply H6|].
    unfold arrive in *. cbn in *.
    destruct (missing user_id) eqn:Hm; [|done]. injection Hs as <- <-.
    do 3 right. split; [done|]. unfold missing in Hm.
    destruct user_id as [x|]; [|done]. cbn. by case_decide.
Qed.

(** The obligations of one awaited call of handler [i]. *)
Lemma fair_update (c : config) (i : nat) (u : string) (ct : Z)
    (s s' : stage) (w' : world) :
  fair c -> calls c !! i = Some (Handler u ct s) ->
  clock w' = clock (shared c) ->
  rate_ok (redis w') ->
  (forall u m, counter u m (redis (shared c)) <= counter u m (redis w')) ->
  (forall n, ticket s' = Some n ->
     1 <= n <= counter u (ct / 60000) (redis w') /\
     (ticket s = Some n \/
      counter u (ct / 60000) (redis (shared c)) < n)) ->
  match s' with
  | AddNow n => n <= tasksPerMinute
  | Answered r t => status r = 200 -> exists n, t = Some n /\ n <= tasksPerMinute
  | _ => True
  end ->
  (forall r t, s' = Answered r t ->
     r = queued \/ r = delayed \/ r = server_error) ->
  fair (Config w' (runs c) (<[i := Handler u ct s']> (calls c))).
Proof.
  intros Hf Hi Hc Hok Hm Hn Hacc Hans.
  pose proof (lookup_lt_Some _ _ _ Hi) as Hlen.
  destruct Hf as [H1 H2 H3 H4 H5 H6]. split; cbn [shared calls]; auto.
  - intros j h Hj. destruct (decide (j = i)) as [->|Hji].
    + rewrite list_lookup_insert_eq in Hj by done. simplify_eq. cbn.
      rewrite Hc. apply (H2 i _ Hi).
    + rewrite list_lookup_insert_ne in Hj by done. rewrite Hc. by eapply H2.
  - intros j h n Hj Ht. destruct (decide (j = i)) as [->|Hji].
    + rewrite list_lookup_insert_eq in Hj by done. simplify_eq. cbn in *.
      by apply Hn.
    + rewrite list_lookup_insert_ne in Hj by done.
      specialize (H3 j h n Hj Ht).
      specialize (Hm (caller h) (currentTime h / 60000)). lia.
  - assert (Hone : forall j hj n, j <> i -> calls c !! j = Some hj ->
              caller hj = u -> currentTime hj / 60000 = ct / 60000 ->
              ticket s' = Some n -> ticket (at_stage hj) = Some n -> False).
    { intros j hj n Hji Hj Hu Hw Hts Htj.
      destruct (Hn n Hts) as [_ [Hold|Hnew]].
      - by apply (H4 i j (Handler u ct s) hj n).
      - specialize (H3 j hj n Hj Htj). rewrite Hu, Hw in H3. lia. }
    intros j k hj hk n Hjk Hj Hk Hu Hw Htj Htk.
    destruct (decide (j = i)) as [->|Hji], (decide (k = i)) as [->|Hki];
      try done.
    + rewrite list_lookup_insert_eq in Hj by done.
      rewrite list_lookup_insert_ne in Hk by done. simplify_eq. cbn in *.
      by apply (Hone k hk n).
    + rewrite list_lookup_insert_eq in Hk by done.
      rewrite list_lookup_insert_ne in Hj by done. simplify_eq. cbn in *.
      by apply (Hone j hj n).
    + rewrite list_lookup_insert_ne in Hj, Hk by done.
      by apply (H4 j k hj hk n).
  - intros j h Hj. destruct (decide (j = i)) as [->|Hji].
    + rewrite list_lookup_insert_eq in Hj by done. by simplify_eq.
    + rewrite list_lookup_insert_ne in Hj by done. by eapply H5.
  - intros j h r t Hj Hs. destruct (decide (j = i)) as [->|Hji].
    + rewrite list_lookup_insert_eq in Hj by done. simplify_eq. cbn in *.
      destruct (Hans r t Hs) as [?|[?|?]]; auto.
    + rewrite list_lookup_insert_ne in Hj by done. by eapply H6.
Qed.

End Fairness.

Section FairnessKept.

Lemma over_or_under_ticket (n : Z) : ticket (over_or_under n) = Some n.
Proof. unfold over_or_under. by destruct (n >? tasksPerMinute). Qed.

Lemma progress_answer (u : string) (ct : Z) (w w' : world) (s s' : stage)
    (r : response) (t : option Z) :
  progress u ct w w' s s' -> s' = Answered r t ->
  r = queued \/ r = delayed \/ r = server_error.
Proof.
  intros Hp. destruct Hp as [?|?|n ? ? ?|n ?|n ?|? ?|n ?|? ?]; try done.
  - unfold over_or_under.
    by destruct (n =? 1); [|destruct (n >? tasksPerMinute)].
  - unfold over_or_under. by destruct (n >? tasksPerMinute).
  - intros [= <- _]. auto.
  - intros [= <- _]. auto.
  - intros [= <- _]. auto.
Qed.

(** What one awaited call does to the counters and to the count held by
    its handler, provided its [INCR] is timely. *)
Lemma progress_counts (u : string) (ct : Z) (w w' : world) (s s' : stage) :
  rate_ok (redis w) -> ct <= clock w ->
  timely (Handler u ct s) (clock w) = true ->
  progress u ct w w' s s' ->
  rate_ok (redis w') /\
  (forall u0 m0, counter u0 m0 (redis w) <= counter u0 m0 (redis w')) /\
  (forall n, ticket s' = Some n ->
     ticket s = Some n \/
     (n = counter u (ct / 60000) (redis w) + 1 /\
      n = counter u (ct / 60000) (redis w'))) /\
  match s' with
  | AddNow n => n <= tasksPerMinute
  | Answered r t =>
      status r = 200 -> exists n, s = AddNow n /\ t = Some n
  | _ => True
  end.
Proof.
  intros Hok Hpast Htimely Hp.
  destruct Hp as [Hr|Hr|n s1 Hincr Hr|n Hr|n Hr|t Hr|n Hr|s Hr]; rewrite ?Hr.
  - split; [done|]. split; [intros; lia|]. split; [intros n [=]|done].
  - split; [done|]. split; [intros; lia|]. split; [intros n [=]|done].
  - unfold timely in Htimely. cbn in Htimely. apply Z.eqb_eq in Htimely.
    rewrite <- Htimely in Hincr.
    destruct (incr_window _ _ _ _ _ Hok Hincr) as (Hok1 & Hn & Hc1 & Hfr).
    rewrite Htimely in *.
    split; [done|]. split; [|split].
    + intros u0 m0.
      destruct (decide ((u0, m0) = (u, ct / 60000))) as [[= -> ->]|Hne].
      * lia.
      * rewrite Hfr by done. lia.
    + intros k Hk.
      assert (k = n) as ->.
      { destruct (n =? 1); [by injection Hk|].
        rewrite over_or_under_ticket in Hk. by injection Hk. }
      right. split; [done|]. by rewrite Hc1.
    + destruct (n =? 1); [done|]. unfold over_or_under.
      destruct (Z.gtb_spec n tasksPerMinute); [done|lia].
  - destruct (expire_late u (ct / 60000) (clock w) _ Hok) as [Hok1 Hc1].
    { pose proof (window_bounds ct). lia. }
    split; [done|]. split; [|split].
    + intros u0 m0. rewrite Hc1. lia.
    + intros k Hk. rewrite over_or_under_ticket in Hk. by left.
    + unfold over_or_under.
      destruct (Z.gtb_spec n tasksPerMinute); [done|lia].
  - destruct (flag_window u (clock w) _ Hok) as [Hok1 Hc1].
    split; [done|]. split; [|split]; [|by left|done].
    intros u0 m0. rewrite Hc1. lia.
  - split; [done|]. split; [intros; lia|]. split; [by left|]. intros [=].
  - split; [done|]. split; [intros; lia|]. split; [by left|].
    intros _. by exists n.
  - split; [done|]. split; [intros; lia|]. split; [intros k [=]|]. intros [=].
Qed.

(** One awaited call of a handler keeps the invariant, provided its
    [INCR] is timely. *)
Lemma step_fair (c : config) (i : nat) (h h' : handler) (w' : world) :
  fair c -> calls c !! i = Some h ->
  timely h (clock (shared c)) = true ->
  advance h (shared c) = Some (h', w') ->
  fair (Config w' (runs c) (<[i := h']> (calls c))).
Proof.
  intros Hf Hi Htimely Hadv.
  apply advance_progress in Hadv as (Hu & Hct & Hc & _ & Hp).
  destruct h as [u ct s], h' as [u' ct' s']. cbn in *. subst u' ct'.
  pose proof (fair_rate c Hf) as Hok.
  pose proof (fair_time c Hf i _ Hi) as Hpast. cbn in Hpast.
  pose proof (fun n => fair_ticket c Hf i _ n Hi) as Htk. cbn in Htk.
  pose proof (fair_accepted c Hf i _ Hi) as Hacc. cbn in Hacc.
  destruct (progress_counts u ct _ _ _ _ Hok Hpast Htimely Hp)
    as (Hok' & Hmono & Hnew & Hacc').
  refine (fair_update c i u ct s s' w' Hf Hi Hc Hok' Hmono _ _ _).
  - intros n Hn. destruct (Hnew n Hn) as [Hold|[Hn1 Hn2]].
    + specialize (Htk n Hold). specialize (Hmono u (ct / 60000)).
      split; [lia|by left].
    + pose proof (counter_nonneg u (ct / 60000) _ Hok).
      split; [lia|]. right. lia.
  - destruct s' as [| | | | | |r t]; try done.
    intros H200. destruct (Hacc' H200) as (n & -> & ->). by exists n.
  - intros r t. by apply (progress_answer u ct (shared c) w' s).
Qed.

Lemma fire_fair (tm : timing) (l : label) (c c' : config) :
  timely_calls tm = true -> fair c -> fire tm l c = Some c' -> fair c'.
Proof.
  intros Htm Hf. destruct l as [d|i|user_id|i|k|i']; cbn; rewrite ?Htm.
  - destruct (Z.leb_spec 0 d); [|done]. intros [= <-].
    apply fair_world; auto; cbn; [lia|apply (fair_rate c Hf)|intros; lia].
  - destruct (runs c !! i) as [[u p]|] eqn:Hi; [|done].
    destruct (prompt_runs tm && negb (prompt (Thread u p) (clock (shared c))));
      [done|].
    destruct (step (Thread u p) (shared c)) as [[[u' p'] w']|] eqn:Hstep;
      [|done].
    intros [= <-].
    apply step_transition in Hstep as (_ & Hc & Ht). cbn in Ht.
    destruct (transition_rate _ _ _ _ _ Ht (fair_rate c Hf)) as [Hok Hcnt].
    apply fair_world; auto; [lia|]. intros u0 m0. rewrite Hcnt. lia.
  - intros [= <-]. by apply fair_arrive.
  - destruct (calls c !! i) as [h|] eqn:Hi; [|done].
    destruct (timely h (clock (shared c))) eqn:Ht; [|done]. cbn.
    destruct (advance h (shared c)) as [[h' w']|] eqn:Hadv; [|done].
    intros [= <-]. by apply (step_fair c i h h' w').
  - destruct (taskQueue (shared c) !! k) as [j|]; [|done]. intros [= <-].
    apply fair_world; auto; cbn; [lia|apply (fair_rate c Hf)|intros; lia].
  - destruct (runs c !! i') as [th|]; [|done]. intros [= <-].
    apply fair_world; auto; cbn; [lia|apply (fair_rate c Hf)|intros; lia].
Qed.

Lemma exec_fair (tm : timing) (ls : list label) (c c' : config) :
  timely_calls tm = true -> fair c -> exec tm ls c = Some c' -> fair c'.
Proof.
  intros Htm. revert c. induction ls as [|l ls IH]; intros c Hf; cbn.
  - by intros [= <-].
  - destruct (fire tm l c) as [c1|] eqn:Hfire; [|done].
    apply IH. by apply (fire_fair tm l c).
Qed.

Lemma start_fair (w : world) (users : list string) :
  rate_ok (redis w) -> fair (start w users).
Proof. intros Hok. by split. Qed.

End FairnessKept.

Section Counting.

Lemma distinct_NoDup (u : string) (m : Z) (hs : list handler) :
  (forall i j hi hj n, i <> j -> hs !! i = Some hi -> hs !! j = Some hj ->
     winning u m hi = Some n -> winning u m hj = Some n -> False) ->
  NoDup (omap (winning u m) hs).
Proof.
  induction hs as [|h hs IH]; intros Hd; [constructor|].
  assert (Htail : NoDup (omap (winning u m) hs)).
  { apply IH. intros i j hi hj n Hij Hi Hj.
    apply (Hd (S i) (S j) hi hj n); auto. }
  csimpl. destruct (winning u m h) as [n|] eqn:Hn; [|done].
  apply NoDup_cons. split; [|done].
  intros Hin. apply list_elem_of_omap in Hin as (h' & Hh' & Hw).
  apply list_elem_of_lookup_1 in Hh' as [j Hj].
  by apply (Hd 0%nat (S j) h h' n).
Qed.

Lemma bounded_NoDup_length (l : list Z) :
  NoDup l -> (forall n, n ∈ l -> 1 <= n <= 20) -> (length l <= 20)%nat.
Proof.
  intros Hnd Hb.
  assert (Hsub : l ⊆+ seqZ 1 20).
  { apply NoDup_submseteq; [done|]. intros n Hn. apply elem_of_seqZ.
    specialize (Hb n Hn). lia. }
  apply submseteq_length in Hsub. by rewrite length_seqZ in Hsub.
Qed.

Lemma filter_omap_length (u : string) (m : Z) (hs : list handler) :
  (forall h, h ∈ hs -> accepted_call u m h = true ->
             is_Some (ticket (at_stage h))) ->
  length (List.filter (accepted_call u m) hs)
  = length (omap (winning u m) hs).
Proof.
  induction hs as [|h hs IH]; intros Hs; [done|].
  assert (IH' := IH (fun h' Hh' => Hs h' (list_elem_of_further _ _ _ Hh'))).
  csimpl. unfold winning at 1. destruct (accepted_call u m h) eqn:Ha.
  - destruct (Hs h (list_elem_of_here _ _) Ha) as [n ->]. cbn. by rewrite IH'.
  - done.
Qed.

Lemma fair_cap (c : config) (u : string) (m : Z) :
  fair c -> (accepted_calls u m (calls c) <= 20)%nat.
Proof.
  intros Hf. unfold accepted_calls.
  assert (Hacc : forall i h n, calls c !! i = Some h ->
            winning u m h = Some n ->
            caller h = u /\ currentTime h / 60000 = m /\
            ticket (at_stage h) = Some n /\ 1 <= n <= 20).
  { intros i h n Hi Hw. unfold winning in Hw.
    destruct (accepted_call u m h) eqn:Ha; [|done].
    unfold accepted_call in Ha.
    apply andb_true_iff in Ha as [Ha H200].
    apply andb_true_iff in Ha as [Hu Hm].
    apply bool_decide_eq_true in Hu. apply Z.eqb_eq in Hm.
    pose proof (fair_ticket c Hf i h n Hi Hw) as Hn.
    pose proof (fair_accepted c Hf i h Hi) as Ht.
    destruct (at_stage h) as [| | | | | |r t]; try done.
    apply Z.eqb_eq in H200. destruct (Ht H200) as (k & -> & Hk).
    cbn in Hw. injection Hw as ->. unfold tasksPerMinute in Hk.
    repeat split; auto; lia. }
  rewrite filter_omap_length.
  - apply bounded_NoDup_length.
    + apply distinct_NoDup. intros i j hi hj n Hij Hi Hj Hwi Hwj.
      destruct (Hacc i hi n Hi Hwi) as (Hui & Hmi & Hti & _).
      destruct (Hacc j hj n Hj Hwj) as (Huj & Hmj & Htj & _).
      apply (fair_distinct c Hf i j hi hj n); auto; congruence.
    + intros n Hn. apply list_elem_of_omap in Hn as (h & Hh & Hw).
      apply list_elem_of_lookup_1 in Hh as [i Hi].
      by destruct (Hacc i h n Hi Hw) as (_ & _ & _ & ?).
  - intros h Hh Ha. apply list_elem_of_lookup_1 in Hh as [i Hi].
    unfold accepted_call in Ha.
    apply andb_true_iff in Ha as [_ H200].
    pose proof (fair_accepted c Hf i h Hi) as Ht.
    destruct (at_stage h) as [| | | | | |r t]; try done.
    apply Z.eqb_eq in H200. destruct (Ht H200) as (k & -> & _). by eexists.
Qed.

End Counting.

Section Latecomers.

Lemma fire_latecomers (tm : timing) (l : label) (c c' : config)
    (k : nat) (u : string) (m : Z) :
  timely_calls tm = true -> fair c -> latecomers k u m c ->
  fire tm l c = Some c' -> latecomers k u m c'.
Proof.
  intros Htm Hf [Hover Hlate]. destruct l as [d|i|user_id|i|j|i']; cbn; rewrite ?Htm.
  - destruct (Z.leb_spec 0 d); [|done]. by intros [= <-].
  - destruct (runs c !! i) as [[u0 p]|] eqn:Hi; [|done].
    destruct (prompt_runs tm && negb (prompt (Thread u0 p) (clock (shared c))));
      [done|].
    destruct (step (Thread u0 p) (shared c)) as [[[u' p'] w']|] eqn:Hstep;
      [|done].
    intros [= <-].
    apply step_transition in Hstep as (_ & Hc & Ht). cbn in Ht.
    destruct (transition_rate _ _ _ _ _ Ht (fair_rate c Hf)) as [_ Hcnt].
    split; cbn [shared calls]; [by rewrite Hcnt|done].
  - intros [= <-]. split; [done|]. cbn [shared calls].
    intros i h n Hki Hi Hu Hm Hn.
    apply lookup_app_Some in Hi as [Hi|[_ Hi]]; [by eapply Hlate|].
    destruct (i - length (calls c))%nat; cbn in Hi; simplify_eq.
    unfold arrive in Hn. cbn in Hn. by destruct (missing user_id).
  - destruct (calls c !! i) as [h|] eqn:Hi; [|done].
    destruct (timely h (clock (shared c))) eqn:Ht; [|done]. cbn.
    destruct (advance h (shared c)) as [[h' w']|] eqn:Hadv; [|done].
    intros [= <-].
    pose proof (lookup_lt_Some _ _ _ Hi) as Hlen.
    apply advance_progress in Hadv as (Hu & Hct & Hc & _ & Hp).
    destruct h as [u0 ct s], h' as [u' ct' s']. cbn in Hu, Hct, Hp.
    subst u' ct'.
    pose proof (fair_time c Hf i _ Hi) as Hpast. cbn in Hpast.
    destruct (progress_counts u0 ct _ _ _ _ (fair_rate c Hf) Hpast Ht Hp)
      as (_ & Hmono & Hnew & _).
    split; cbn [shared calls].
    + specialize (Hmono u m). lia.
    + intros j h n Hkj Hj Hcu Hcm Hn.
      destruct (decide (j = i)) as [->|Hji].
      * rewrite list_lookup_insert_eq in Hj by done. simplify_eq. cbn in *.
        destruct (Hnew n Hn) as [Hold|[Hn1 _]].
        -- by apply (Hlate i (Handler u0 ct s) n).
        -- lia.
      * rewrite list_lookup_insert_ne in Hj by done. by eapply Hlate.
  - destruct (taskQueue (shared c) !! j) as [job|]; [|done]. by intros [= <-].
  - destruct (runs c !! i') as [th|]; [|done]. by intros [= <-].
Qed.

Lemma exec_latecomers (tm : timing) (ls : list label) (c c' : config)
    (k : nat) (u : string) (m : Z) :
  timely_calls tm = true -> fair c -> latecomers k u m c ->
  exec tm ls c = Some c' -> latecomers k u m c'.
Proof.
  intros Htm. revert c. induction ls as [|l ls IH]; intros c Hf Hl; cbn.
  - by intros [= <-].
  - destruct (fire tm l c) as [c1|] eqn:Hfire; [|done].
    apply IH; [by apply (fire_fair tm l c)|by apply (fire_latecomers tm l c)].
Qed.

(** Whoever comes after the counter has passed the cap is not answered
    200. *)
Lemma latecomers_rejected (c : config) (k : nat) (u : string) (m : Z)
    (i : nat) (h : handler) :
  fair c -> latecomers k u m c -> (k <= i)%nat -> calls c !! i = Some h ->
  accepted_call u m h = false.
Proof.
  intros Hf [_ Hlate] Hki Hi.
  destruct (accepted_call u m h) eqn:Ha; [|done]. exfalso.
  unfold accepted_call in Ha.
  apply andb_true_iff in Ha as [Ha H200].
  apply andb_true_iff in Ha as [Hu Hm].
  apply bool_decide_eq_true in Hu. apply Z.eqb_eq in Hm.
  pose proof (fair_accepted c Hf i h Hi) as Ht.
  destruct (at_stage h) as [| | | | | |r t] eqn:Hs; try done.
  apply Z.eqb_eq in H200. destruct (Ht H200) as (n & -> & Hn).
  specialize (Hlate i h n Hki Hi Hu Hm). rewrite Hs in Hlate.
  specialize (Hlate eq_refl). lia.
Qed.

End Latecomers.

Section Calm.

Lemma incr_counter_defined (t : Z) (u : string) (m : Z) (s : store) :
  rate_ok s -> incr t (redisKey u m) s <> None.
Proof.
  intros Hok. unfold incr, find.
  destruct (s !! redisKey u m) as [[v x]|] eqn:He; [|done].
  destruct (Hok _ _ _ He) as [(n & Hv & _) _]. cbn in Hv. subst v.
  by destruct (live t (Entry (RInt n) x)).
Qed.

(** The moves of a run do not bring failures back. *)
Lemma step_outages (th th' : thread) (w w' : world) :
  outages w = [] -> step th w = Some (th', w') -> outages w' = [].
Proof.
  destruct th as [u p]. unfold step. cbn [at_pc job_data].
  destruct (enabled p (clock w)); [|done].
  destruct w as [t s q iv o h]. cbn [outages]. intros ->.
  destruct p; cbn [next].
  all: unfold acquireLock, releaseLock.
  all: unfold try_catch, bind, redis_set_nx_ex,
         redis_get, redis_set, redis_del, task_settles, invoke, Date_now,
         await, on_redis, ret; cbn.
  all: try (destruct (set_nx_ex t (lockKey u) RLocked 5 s)
              as [[] s']; cbn).
  all: try (destruct (spacing_delay lastExecutionTime t); cbn).
  all: by intros [= <- <-].
Qed.

(** With no failure left, an awaited call of a handler does not end in
    the [catch]. *)
Lemma advance_calm (h h' : handler) (w w' : world) :
  rate_ok (redis w) -> outages w = [] -> advance h w = Some (h', w') ->
  outages w' = [] /\ forall t, at_stage h' <> Answered server_error t.
Proof.
  destruct h as [u ct s]. unfold advance. cbn [at_stage caller currentTime].
  destruct w as [t r q iv o h]. cbn [redis outages]. intros Hok ->.
  pose proof (incr_counter_defined t u (ct / 60000) r Hok) as Hdef.
  destruct s; cbn [proceed]; try done.
  all: unfold try_catch, bind, redis_get, redis_incr, redis_expire,
         redis_set_ex, taskQueue_add, await, on_redis, ret; cbn.
  all: try (destruct (incr t (redisKey u (ct / 60000)) r)
              as [[n s1]|]; [|done]; cbn).
  all: try (destruct (expire t (redisKey u (ct / 60000)) 60 r)
              as [b s2]; cbn).
  all: try (destruct (truthy (get t (flagKey u) r)); cbn).
  all: intros Heq; simplify_eq; cbn; split; [done|]; intros t0.
  all: try done.
  all: unfold over_or_under; repeat case_match; done.
Qed.

Lemma fire_calm (tm : timing) (l : label) (c c' : config) (k : nat) :
  fair c -> calm k c -> fire tm l c = Some c' -> calm k c'.
Proof.
  intros Hf [Hout Hno]. destruct l as [d|i|user_id|i|j|i']; cbn.
  - destruct (Z.leb_spec 0 d); [|done]. by intros [= <-].
  - destruct (runs c !! i) as [th|]; [|done].
    destruct (prompt_runs tm && negb (prompt th (clock (shared c)))); [done|].
    destruct (step th (shared c)) as [[th' w']|] eqn:Hstep; [|done].
    intros [= <-]. split; cbn [shared calls]; [|done].
    by apply (step_outages th th' (shared c)).
  - intros [= <-]. split; [done|]. cbn [shared calls].
    intros i h t Hki Hi.
    apply lookup_app_Some in Hi as [Hi|[_ Hi]]; [by eapply Hno|].
    destruct (i - length (calls c))%nat; cbn in Hi; simplify_eq.
    unfold arrive. cbn. by destruct (missing user_id).
  - destruct (calls c !! i) as [h|] eqn:Hi; [|done].
    destruct (timely_calls tm && negb (timely h (clock (shared c)))); [done|].
    destruct (advance h (shared c)) as [[h' w']|] eqn:Hadv; [|done].
    intros [= <-].
    pose proof (lookup_lt_Some _ _ _ Hi) as Hlen.
    destruct (advance_calm h h' _ _ (fair_rate c Hf) Hout Hadv) as [Ho Hs].
    split; cbn [shared calls]; [done|].
    intros j hj t Hkj Hj.
    destruct (decide (j = i)) as [->|Hji].
    + rewrite list_lookup_insert_eq in Hj by done. simplify_eq. apply Hs.
    + rewrite list_lookup_insert_ne in Hj by done. by eapply Hno.
  - destruct (taskQueue (shared c) !! j) as [job|]; [|done]. by intros [= <-].
  - destruct (runs c !! i') as [th|]; [|done]. by intros [= <-].
Qed.

Lemma exec_calm (tm : timing) (ls : list label) (c c' : config) (k : nat) :
  timely_calls tm = true -> fair c -> calm k c ->
  exec tm ls c = Some c' -> calm k c'.
Proof.
  intros Htm. revert c. induction ls as [|l ls IH]; intros c Hf Hl; cbn.
  - by intros [= <-].
  - destruct (fire tm l c) as [c1|] eqn:Hfire; [|done].
    apply IH; [by apply (fire_fair tm l c)|by apply (fire_calm tm l c)].
Qed.

End Calm.

(* ===================================================================== *)
(** ** Spacing of the invocations (C2) *)
(* ===================================================================== *)

(** C2, as stated, fails.  With no bound on how long a run may take, the
    schedule [slow_task] (two replicas, four jobs of user 123, the first
    task taking 5.5 s) ends with invocations at 6000 and 6500. *)
Lemma spacing_counterexample :
  ~ (forall (tm : timing) (w : world) (users : list string) (ls : list label)
            (c : config),
       invocations w = [] ->
       exec tm ls (start w users) = Some c ->
       spaced (invocations (shared c))).
Proof.
  intros H.
  pose (jobs := ["123"; "123"; "123"; "123"]).
  pose (c := default (start (fresh 0 []) [])
                     (exec unrestricted slow_task (start (fresh 0 []) jobs))).
  assert (Hc : exec unrestricted slow_task (start (fresh 0 []) jobs) = Some c)
    by (vm_compute; reflexivity).
  specialize (H unrestricted (fresh 0 []) jobs slow_task c eq_refl Hc).
  specialize (H 0%nat 1%nat "123" 6500 6000).
  assert (1000 <= Z.abs (6500 - 6000)); [|lia].
  apply H; [done|vm_compute; reflexivity..].
Qed.

(** C2, amended.  For every work key, any two Task Executor invocations
    are at least 1000 ms apart, for any number of runs of the processor
    interleaved in any order on any store, with request handlers running
    and queue items taken in between and with any failures of awaited
    calls, provided
    each run makes its moves within 4000 ms of obtaining the lock (the 5 s
    lease less the 1 s spacing). *)
Theorem spacing_when_prompt (tm : timing) (w : world) (users : list string)
    (ls : list label) (c : config) :
  prompt_runs tm = true ->
  invocations w = [] ->
  exec tm ls (start w users) = Some c ->
  spaced (invocations (shared c)).
Proof.
  intros Htm Hiv Hex. apply well_spaced_spaced.
  apply (sound_spaced c). apply (exec_sound tm ls (start w users)); [done| |done].
  by apply start_sound.
Qed.


(** Two jobs of one user, run one after the other by prompt runs. *)
Lemma spacing_when_prompt_witness :
  match exec (Timing true false) two_requests (start (fresh 0 []) []) with
  | Some c => spaced (invocations (shared c))
  | None => False
  end.
Proof.
  destruct (exec (Timing true false) two_requests (start (fresh 0 []) []))
    as [c|] eqn:H.
  - apply (spacing_when_prompt (Timing true false) (fresh 0 []) []
                               two_requests c).
    + reflexivity.
    + reflexivity.
    + exact H.
  - vm_compute in H. discriminate.
Defined.

Example one_after_the_other_invocations :
  (fun c => invocations (shared c))
    <$> exec (Timing true true) one_after_the_other
          (start (fresh 0 []) ["123"; "123"])
  = Some [("123", 1000); ("123", 0)].
Proof. vm_compute. reflexivity. Qed.

Example two_requests_invocations :
  (fun c => (invocations (shared c), taskQueue (shared c), map at_pc (runs c)))
    <$> exec (Timing true true) two_requests (start (fresh 0 []) [])
  = Some ([("123", 1000); ("123", 0)], [],
          [Done Completed; Done Completed]).
Proof. vm_compute. reflexivity. Qed.

Example slow_task_invocations :
  (fun c => invocations (shared c))
    <$> exec unrestricted slow_task (start (fresh 0 []) ["123"; "123"; "123"; "123"])
  = Some [("123", 6500); ("123", 6000); ("123", 5000); ("123", 0)].
Proof. vm_compute. reflexivity. Qed.

Example stalled_holder_invocations :
  (fun c => invocations (shared c))
    <$> exec unrestricted stalled_holder (start (fresh 0 []) ["123"; "123"])
  = Some [("123", 5001); ("123", 5000)].
Proof. vm_compute. reflexivity. Qed.
(* ===================================================================== *)
(** ** The admission handler (C1, C4, C6, C9, C10) *)
(* ===================================================================== *)

(** Requests handled one after the other, each in one piece, from an
    empty store, of whatever users, at whatever times and with whatever
    failures: the calls of one user stamped in one 60 s window that are
    answered 200 number 20 at most; and once the counter of that window has
    gone past 20, every later call of that user stamped in the window is
    answered 429 (500 if one of its awaited calls rejects). *)
Lemma serve_cap (o : list bool) (t0 : Z) (cs : list call) (u : string)
    (m : Z) :
  let w1 := snd (serve cs (fresh t0 o)) in
  (accepted u m cs (fst (serve cs (fresh t0 o))) <= 20)%nat /\
  forall n x cs' i t r,
    missing (Some u) = false ->
    redis w1 !! redisKey u m = Some (Entry (RInt n) x) -> tasksPerMinute < n ->
    cs' !! i = Some (Some u, t) -> t / 60000 = m ->
    fst (serve cs' w1) !! i = Some r ->
    (r = delayed \/ r = server_error) /\ (outages w1 = [] -> r = delayed).
Proof.
  cbn zeta. split.
  - pose proof (serve_accepted u m cs (fresh t0 o) rate_ok_empty) as H.
    unfold counter in H. cbn in H. rewrite lookup_empty in H. lia.
  - intros n x cs' i t r Hu Hn Hlt Hi Ht Hr.
    apply (serve_saturated u m cs' (snd (serve cs (fresh t0 o)))) with i t; auto.
    + apply serve_rate_ok, rate_ok_empty.
    + unfold counter. rewrite Hn. lia.
Qed.

(** C1, as stated, fails.  Twenty requests of user 123 are answered 200 at
    time 0.  A 21st reads [Date.now()] at 59999, in the same window, and
    its [INCR] reaches the store at 60000, when the counter key written at
    0 has expired: it counts 1 and is answered 200 as well. *)
Lemma window_cap_counterexample :
  ~ (forall (tm : timing) (ls : list label) (c : config) (u : string) (m : Z),
       exec tm ls (start (fresh 0 []) []) = Some c ->
       (accepted_calls u m (calls c) <= 20)%nat).
Proof.
  intros H.
  pose (c := default (start (fresh 0 []) [])
                     (exec unrestricted late_increment (start (fresh 0 []) []))).
  assert (Hc : exec unrestricted late_increment (start (fresh 0 []) []) = Some c)
    by (vm_compute; reflexivity).
  specialize (H unrestricted late_increment c "123" 0 Hc).
  vm_compute in H. lia.
Qed.

(** C1, amended.  From an empty store, however the handlers of concurrent
    requests, the runs of the processor and the clock interleave and
    whatever awaited calls fail, provided the [INCR] of each handler
    reaches the store within the window in which the handler read
    [Date.now()]: the requests of one user stamped in one 60 s window that
    are answered 200 number 20 at most; and once the counter of that
    window has gone past 20, every request of that user stamped in the
    window that comes in afterwards is answered 429, or 500 when an awaited
    call fails, and never 200; it is 429 when no awaited call fails any
    more. *)
Theorem window_cap (tm : timing) (t0 : Z) (o : list bool)
    (users : list string) (ls : list label) (c : config) (u : string) (m : Z) :
  timely_calls tm = true ->
  exec tm ls (start (fresh t0 o) users) = Some c ->
  (accepted_calls u m (calls c) <= 20)%nat /\
  (tasksPerMinute < counter u m (redis (shared c)) ->
   forall ls' c' i h r t,
     exec tm ls' c = Some c' ->
     (length (calls c) <= i)%nat -> calls c' !! i = Some h ->
     caller h = u -> u <> EmptyString -> currentTime h / 60000 = m ->
     at_stage h = Answered r t ->
     (r = delayed \/ r = server_error) /\
     (outages (shared c) = [] -> r = delayed)).
Proof.
  intros Htm Hex.
  assert (Hf : fair c).
  { apply (exec_fair tm ls (start (fresh t0 o) users)); auto.
    apply start_fair, rate_ok_empty. }
  split; [by apply fair_cap|].
  intros Hover ls' c' i h r t Hex' Hi Hh Hu Hne Hm Hs.
  assert (Hf' : fair c') by (by apply (exec_fair tm ls' c)).
  assert (Hl : latecomers (length (calls c)) u m c).
  { split; [done|]. intros j hj n Hj Hlook.
    apply lookup_lt_Some in Hlook. lia. }
  apply (exec_latecomers tm ls' c c') in Hl; auto.
  pose proof (latecomers_rejected c' _ u m i h Hf' Hl Hi Hh) as Hrej.
  assert (Hr : r = delayed \/ r = server_error).
  { destruct (fair_answer c' Hf' i h r t Hh Hs) as [->|[->|[->|[_ He]]]]; auto.
    - exfalso. unfold accepted_call in Hrej. rewrite Hs in Hrej. cbn in Hrej.
      rewrite Hu, Hm, Z.eqb_refl, bool_decide_eq_true_2 in Hrej; done.
    - congruence. }
  split; [done|]. intros Hout.
  assert (Hcalm : calm (length (calls c)) c).
  { split; [done|]. intros j hj tj Hj Hlook.
    apply lookup_lt_Some in Hlook. lia. }
  apply (exec_calm tm ls' c c') in Hcalm as [_ Hno]; auto.
  destruct Hr as [->| ->]; [done|].
  by destruct (Hno i h t Hi Hh).
Qed.

(** Twenty-two requests of user 123 at once, their handlers interleaved;
    then a 23rd. *)
Lemma window_cap_witness :
  let tm := Timing false true in
  let c := default (start (fresh 0 []) [])
                   (exec tm burst_of_22 (start (fresh 0 []) [])) in
  let c' := default c (exec tm (one_call 22 2) c) in
  (accepted_calls "123" 0 (calls c) <= 20)%nat /\
  match calls c' !! 22%nat with
  | Some h =>
      match at_stage h with
      | Answered r _ => r = delayed
      | _ => False
      end
  | None => False
  end.
Proof.
  intros tm c c'.
  pose (h := default (arrive None 0) (calls c' !! 22%nat)).
  assert (Hc : exec tm burst_of_22 (start (fresh 0 []) []) = Some c)
    by (vm_compute; reflexivity).
  assert (Hc' : exec tm (one_call 22 2) c = Some c')
    by (vm_compute; reflexivity).
  assert (Hh : calls c' !! 22%nat = Some h) by (vm_compute; reflexivity).
  destruct (window_cap tm 0 [] [] burst_of_22 c "123" 0 eq_refl Hc)
    as [H1 H2].
  split; [exact H1|].
  rewrite Hh.
  pose (r := match at_stage h with Answered r _ => r | _ => queued end).
  pose (t := match at_stage h with Answered _ t => t | _ => None end).
  assert (Hs : at_stage h = Answered r t) by (vm_compute; reflexivity).
  rewrite Hs.
  apply (H2 ltac:(vm_compute; reflexivity) (one_call 22 2) c' 22%nat h r t Hc').
  - vm_compute. lia.
  - exact Hh.
  - vm_compute. reflexivity.
  - discriminate.
  - vm_compute. reflexivity.
  - exact Hs.
  - vm_compute. reflexivity.
Defined.

Example burst_of_22_answers :
  (fun c => (map (fun h => status (answer h)) (calls c),
             counter "123" 0 (redis (shared c))))
    <$> exec (Timing true true) burst_of_22 (start (fresh 0 []) [])
  = Some (repeat 200 20 ++ repeat 429 2, 22).
Proof. vm_compute. reflexivity. Qed.

Example late_increment_answers :
  (fun c => (accepted_calls "123" 0 (calls c),
             map currentTime (drop 20 (calls c))))
    <$> exec unrestricted late_increment (start (fresh 0 []) [])
  = Some (21%nat, [59999]).
Proof. vm_compute. reflexivity. Qed.

Example late_increment_untimely :
  exec (Timing false true) late_increment (start (fresh 0 []) []) = None.
Proof. vm_compute. reflexivity. Qed.

(** C4, as stated, fails.  The 21st call of user 123 at 30 s into the
    window sets a flag that expires at 90 s, not at the end of the window
    60 s; the delay of the queued job is 30 s. *)
Lemma flag_ttl_counterexample :
  ~ (forall (u : string) (w : world) (n : Z),
       missing (Some u) = false -> outages w = [] ->
       truthy (get (clock w) (flagKey u) (redis w)) = false ->
       get (clock w) (redisKey u (clock w / 60000)) (redis w) = Some (RInt n) ->
       n = tasksPerMinute ->
       let remainder := 60000 - Z.rem (clock w) 60000 in
       let w' := snd (post_task (Some u) w) in
       expiry <$> redis w' !! flagKey u = Some (Some (clock w + remainder)) /\
       last (taskQueue w') = Some (Job u (Some remainder))).
Proof.
  intros H.
  pose (w := set_clock 30000
               (snd (serve (repeat (Some "123", 30000) 20) (fresh 0 [])))).
  destruct (H "123" w 20) as [Hx _]; try (vm_compute; reflexivity).
  vm_compute in Hx. discriminate.
Qed.

(** C4, amended.  When the post-increment counter of a call exceeds 20 and
    the flag is not set, the call sets the flag with a fixed time to live
    of 60 s from now, enqueues the job with delay
    [60000 - now % 60000], and answers 429; the time to live equals the
    delay only on a window boundary. *)
Theorem flag_ttl (u : string) (w : world) (n : Z) :
  missing (Some u) = false -> outages w = [] ->
  truthy (get (clock w) (flagKey u) (redis w)) = false ->
  get (clock w) (redisKey u (clock w / 60000)) (redis w) = Some (RInt n) ->
  tasksPerMinute <= n ->
  let remainder := 60000 - Z.rem (clock w) 60000 in
  let w' := snd (post_task (Some u) w) in
  fst (post_task (Some u) w) = delayed /\
  redis w' !! flagKey u = Some (Entry RTrue (Some (clock w + 60000))) /\
  taskQueue w' = taskQueue w ++ [Job u (Some remainder)] /\
  get (clock w) (redisKey u (clock w / 60000)) (redis w') = Some (RInt (n + 1)) /\
  (60000 = remainder <-> Z.rem (clock w) 60000 = 0).
Proof.
  intros Hu Ho Hf Hg Hn. cbn zeta.
  unfold get in Hg.
  destruct (find (clock w) (redisKey u (clock w / 60000)) (redis w))
    as [[v x]|] eqn:Hfind; [|done].
  cbn in Hg. injection Hg as ->.
  assert (Hi : incr (clock w) (redisKey u (clock w / 60000)) (redis w)
               = Some (n + 1, <[redisKey u (clock w / 60000)
                                := Entry (RInt (n + 1)) x]> (redis w))).
  { unfold incr. by rewrite Hfind. }
  rewrite (post_task_exceeding u w Hu _ _ Ho Hf Hi) by lia. cbn [fst snd redis taskQueue].
  split; [done|]. split.
  { unfold set_ex. by rewrite lookup_insert_eq. }
  split; [done|]. split; [|lia].
  unfold get, find, set_ex.
  rewrite lookup_insert_ne by apply flagKey_redisKey.
  rewrite lookup_insert_eq.
  unfold find in Hfind. destruct (redis w !! _) as [e|]; [|done].
  destruct (live (clock w) e) eqn:Hl; [|done]. injection Hfind as ->.
  unfold live in *. cbn in *. by rewrite Hl.
Qed.

(** The 21st call of user 123, 30 s into the window. *)
Lemma flag_ttl_witness :
  let w := set_clock 30000
             (snd (serve (repeat (Some "123", 30000) 20) (fresh 0 []))) in
  let w' := snd (post_task (Some "123") w) in
  fst (post_task (Some "123") w) = delayed /\
  redis w' !! flagKey "123" = Some (Entry RTrue (Some (30000 + 60000))) /\
  taskQueue w' = taskQueue w ++ [Job "123" (Some (60000 - Z.rem 30000 60000))] /\
  get 30000 (redisKey "123" (30000 / 60000)) (redis w') = Some (RInt (20 + 1)) /\
  (60000 = 60000 - Z.rem 30000 60000 <-> Z.rem 30000 60000 = 0).
Proof.
  intros w w'.
  apply (flag_ttl "123" w 20).
  - reflexivity.
  - vm_compute. reflexivity.
  - vm_compute. reflexivity.
  - vm_compute. reflexivity.
  - unfold tasksPerMinute. lia.
Defined.

(** C6.  If any awaited call of an admission call rejects (the store or the
    queue is unavailable), the call answers 500, never 200, and the queue
    holds no new item. *)
Theorem store_outage_fails_closed (user_id : option string) (w : world) :
  let r := fst (post_task user_id w) in
  let w' := snd (post_task user_id w) in
  (exists new, history w' = new ++ history w) /\
  forall new, history w' = new ++ history w ->
    Exists (fun e => resolved e = false) new ->
    r = server_error /\ status r = 500 /\ r <> queued /\
    taskQueue w' = taskQueue w.
Proof.
  cbn zeta. split; [apply post_task_history|].
  intros new Hnew Hex.
  destruct (post_task_rejected user_id w new Hnew Hex) as [-> Hq].
  done.
Qed.

(** The flag is read, then [INCR] rejects. *)
Lemma store_outage_witness :
  let w := fresh 5000 [false; true] in
  let r := fst (post_task (Some "123") w) in
  let w' := snd (post_task (Some "123") w) in
  r = server_error /\ status r = 500 /\ r <> queued /\ taskQueue w' = taskQueue w.
Proof.
  intros w r w'.
  destruct (store_outage_fails_closed (Some "123") w) as [_ H].
  apply (H [Event (INCR (redisKey "123" 0)) false; Event (GET (flagKey "123")) true]).
  - vm_compute. reflexivity.
  - apply Exists_cons_hd. reflexivity.
Defined.

(** C9.  A call without a [user_id] is answered 400 and leaves everything
    as it was: no command is issued, so nothing is read, written or
    enqueued. *)
Theorem missing_key_rejected (user_id : option string) (w : world) :
  missing user_id = true ->
  post_task user_id w = (bad_request, w) /\ status bad_request = 400.
Proof. intros H. unfold post_task. by rewrite H. Qed.

(** A body without the field. *)
Lemma missing_key_witness :
  post_task None (fresh 5000 []) = (bad_request, fresh 5000 []) /\
  status bad_request = 400.
Proof. apply (missing_key_rejected None (fresh 5000 [])). reflexivity. Defined.

(** A flagged call issues [GET] and [ADD] only. *)
Lemma post_task_no_incr (u : string) (w : world) (new : list event) :
  missing (Some u) = false ->
  truthy (get (clock w) (flagKey u) (redis w)) = true ->
  history (snd (post_task (Some u) w)) = new ++ history w ->
  Forall (fun e => forall k, issued e <> INCR k) new.
Proof.
  intros Hu Hf. unfold post_task. rewrite Hu. cbn [default].
  unfold_handler. destruct w as [t s q iv o h].
  cbn [clock redis outages set_outages tail taskQueue invocations history] in *.
  destruct o as [|[] o]; cbn; rewrite ?Hf; cbn.
  all: try (destruct o as [|[] o]; cbn).
  all: intros Hnew.
  all: match type of Hnew with
       | ?l = _ ++ ?h =>
           let p := issued_since h l in
           change l with (p ++ h) in Hnew
       end.
  all: apply history_suffix in Hnew; subst new.
  all: repeat constructor; done.
Qed.

(** C10.  While the flag of a user is set, a call of that user leaves the
    whole store as it was, the window counter and its time to live
    included, and issues no [INCR]; it is answered 429 with the job delayed
    to the end of the window (500 if an awaited call rejects). *)
Theorem flagged_call_spares_counter (u : string) (w : world) (v : rvalue) :
  missing (Some u) = false ->
  get (clock w) (flagKey u) (redis w) = Some v -> truthy (Some v) = true ->
  let r := fst (post_task (Some u) w) in
  let w' := snd (post_task (Some u) w) in
  redis w' = redis w /\
  (forall new, history w' = new ++ history w ->
     Forall (fun e => forall k, issued e <> INCR k) new) /\
  (r = delayed \/ r = server_error) /\
  (outages w = [] ->
   r = delayed /\
   taskQueue w' =
   taskQueue w ++ [Job u (Some (60000 - Z.rem (clock w) 60000))]).
Proof.
  intros Hu Hg Ht. cbn zeta. rewrite <- Hg in Ht.
  split; [|split; [|split]].
  - pose proof (post_task_cases (Some u) w) as H. cbn zeta in H.
    destruct H as [(Hm & _)|(u' & [= <-] & _ & H)]; [congruence|].
    destruct H as [[_ H]|[(_ & _ & H)|(Hf & _)]]; [done..|congruence].
  - intros new. by apply post_task_no_incr.
  - pose proof (post_task_cases (Some u) w) as H. cbn zeta in H.
    destruct H as [(Hm & _)|(u' & [= <-] & _ & H)]; [congruence|].
    destruct H as [[H _]|[(_ & H & _)|(Hf & _)]]; [auto..|congruence].
  - intros Ho. by rewrite (post_task_flagged u w Hu Ho Ht).
Qed.

(** A call at 31 s, after the 21st call at 30 s has set the flag. *)
Lemma flagged_call_witness :
  let w := set_clock 31000
             (snd (serve (repeat (Some "123", 30000) 21) (fresh 0 []))) in
  let r := fst (post_task (Some "123") w) in
  let w' := snd (post_task (Some "123") w) in
  redis w' = redis w /\
  counter "123" 0 (redis w') = 21 /\
  r = delayed /\
  taskQueue w' = taskQueue w ++ [Job "123" (Some 29000)].
Proof.
  intros w r w'.
  destruct (flagged_call_spares_counter "123" w RTrue)
    as (H1 & _ & _ & H4).
  - reflexivity.
  - vm_compute. reflexivity.
  - reflexivity.
  - split; [exact H1|]. split.
    + unfold w'. rewrite H1. vm_compute. reflexivity.
    + apply H4. vm_compute. reflexivity.
Defined.

(* ===================================================================== *)
(** ** The lock (C3, C7) *)
(* ===================================================================== *)

Section LockFacts.

(** [acquireLock] is its [SET ... NX EX 5]. *)
Lemma acquireLock_unfold (u : string) (w : world) :
  acquireLock u w =
  let c := SETNXEX (lockKey u) RLocked 5 in
  let rest := tail (outages w) in
  if match outages w with [] => false | b :: _ => b end
  then (Throw, World (clock w) (redis w) (taskQueue w) (invocations w) rest
                     (Event c false :: history w))
  else let (b, s) := set_nx_ex (clock w) (lockKey u) RLocked 5 (redis w) in
       (Ok b, World (clock w) s (taskQueue w) (invocations w) rest
                    (Event c true :: history w)).
Proof.
  unfold acquireLock, bind, redis_set_nx_ex, await, on_redis, ret.
  destruct w as [t s q iv o h]. cbn.
  destruct o as [|[] o]; cbn; try done.
  all: by destruct (set_nx_ex t (lockKey u) RLocked 5 s).
Qed.

Lemma releaseLock_unfold (u : string) (w : world) :
  releaseLock u w =
  let c := DEL (lockKey u) in
  let rest := tail (outages w) in
  if match outages w with [] => false | b :: _ => b end
  then (Throw, World (clock w) (redis w) (taskQueue w) (invocations w) rest
                     (Event c false :: history w))
  else (Ok tt, World (clock w) (del (lockKey u) (redis w)) (taskQueue w)
                     (invocations w) rest (Event c true :: history w)).
Proof.
  unfold releaseLock, redis_del, await, on_redis.
  destruct w as [t s q iv o h]. cbn. by destruct o as [|[] o].
Qed.




End LockFacts.




(** C7, as stated, fails.  A takes the lock of user 123 at 0, B takes it
    at 5000 after it has expired, A releases at 5001: the lock of B is
    gone. *)
Lemma release_counterexample :
  ~ (forall (u : string) (w0 : world) (ta tb t : Z),
       outages w0 = [] ->
       let wa := snd (acquireLock u (set_clock ta w0)) in
       let wb := snd (acquireLock u (set_clock tb wa)) in
       let w' := snd (releaseLock u (set_clock t wb)) in
       fst (acquireLock u (set_clock ta w0)) = Ok true ->
       ta + 5000 <= tb ->
       fst (acquireLock u (set_clock tb wa)) = Ok true ->
       tb <= t < tb + 5000 ->
       find t (lockKey u) (redis w') = find t (lockKey u) (redis wb)).
Proof.
  intros H.
  specialize (H "123" (fresh 0 []) 0 5000 5001 eq_refl eq_refl ltac:(lia)
                eq_refl ltac:(lia)).
  vm_compute in H. discriminate.
Qed.

(** C7, amended.  [releaseLock] deletes the lock key whoever wrote it and
    touches no other key.  After the lease of the caller has expired it
    changes nothing that can be observed only if nobody has taken the lock
    since; a lock taken by another owner in between is deleted, and the
    next [acquireLock] succeeds. *)
Theorem release_deletes (u : string) (w : world) :
  hd false (outages w) = false ->
  let w' := snd (releaseLock u w) in
  redis w' = delete (lockKey u) (redis w) /\
  (forall k, k <> lockKey u -> redis w' !! k = redis w !! k) /\
  find (clock w) (lockKey u) (redis w') = None /\
  (hd false (outages w') = false ->
   fst (acquireLock u w') = Ok true) /\
  (find (clock w) (lockKey u) (redis w) = None ->
   forall k t', clock w <= t' -> find t' k (redis w') = find t' k (redis w)).
Proof.
  intros Ho. cbn zeta. rewrite releaseLock_unfold. cbn zeta.
  assert (Hd : match outages w with [] => false | b :: _ => b end = false)
    by (by destruct (outages w)).
  rewrite Hd. cbn [snd redis clock outages]. unfold del.
  split; [done|]. split; [|split; [|split]].
  - intros k Hk. by rewrite lookup_delete_ne.
  - unfold find. by rewrite lookup_delete_eq.
  - intros Ho'. rewrite acquireLock_unfold. cbn zeta.
    cbn [clock redis outages].
    assert (Hd' : match tail (outages w) with [] => false | b :: _ => b end = false)
      by (by destruct (tail (outages w))).
    rewrite Hd'. unfold set_nx_ex, find. by rewrite lookup_delete_eq.
  - intros Hf k t' Ht'. unfold find in *.
    destruct (decide (k = lockKey u)) as [->|Hk].
    + rewrite lookup_delete_eq.
      destruct (redis w !! lockKey u) as [e|]; [|done].
      unfold live in *. destruct (expiry e) as [x|]; [|done].
      destruct (Z.ltb_spec (clock w) x); [done|].
      destruct (Z.ltb_spec t' x); [lia|done].
    + by rewrite lookup_delete_ne.
Qed.

(** The late release of A on the lock of B. *)
Lemma release_deletes_witness :
  let wa := set_clock 5001 (snd (acquireLock "123" (fresh 0 []))) in
  let wb := set_clock 5001
              (snd (acquireLock "123"
                      (set_clock 5000 (snd (acquireLock "123" (fresh 0 [])))))) in
  (find 5001 (lockKey "123") (redis wb)
   = Some (Entry RLocked (Some 10000)) /\
   find 5001 (lockKey "123") (redis (snd (releaseLock "123" wb))) = None /\
   fst (acquireLock "123" (snd (releaseLock "123" wb))) = Ok true) /\
  (forall k t', 5001 <= t' ->
     find t' k (redis (snd (releaseLock "123" wa))) = find t' k (redis wa)).
Proof.
  intros wa wb. split.
  - destruct (release_deletes "123" wb eq_refl) as (_ & _ & H3 & H4 & _).
    split; [vm_compute; reflexivity|]. split; [exact H3|].
    apply H4. reflexivity.
  - destruct (release_deletes "123" wa eq_refl) as (_ & _ & _ & _ & H5).
    apply H5. vm_compute. reflexivity.
Defined.

(* ===================================================================== *)
(** ** The processor (C5, C8) *)
(* ===================================================================== *)

Section WorkerFacts.

Lemma step_ReadNow (u : string) (since : Z) (stored : option rvalue) (w : world) :
  step (Thread u (ReadNow since stored)) w =
  match spacing_delay stored (clock w) with
  | Some delay =>
      Some (Thread u (SpacingSleep since (clock w + timeout delay)), w)
  | None => Some (Thread u (Running since), snd (invoke u w))
  end.
Proof.
  unfold step. cbn. unfold try_catch, bind, Date_now, invoke, ret.
  by destruct (spacing_delay stored (clock w)).
Qed.

Lemma step_SpacingSleep (u : string) (since wake : Z) (w : world) :
  step (Thread u (SpacingSleep since wake)) w =
  if wake <=? clock w then Some (Thread u (Running since), snd (invoke u w))
  else None.
Proof. unfold step. cbn. by destruct (wake <=? clock w). Qed.


(** The pause that a stored stamp gives: none, the wait of the
    specification, or 1 ms when that wait is beyond what a timer takes. *)
Lemma spacing_delay_stamp (stamp : option Z) (now : Z) :
  let wait := spec_wait stamp now in
  0 <= wait /\
  timeout <$> spacing_delay (RInt <$> stamp) now
  = if wait =? 0 then None
    else Some (if wait <=? TIMEOUT_MAX then wait else 1).
Proof.
  destruct stamp as [ts|]; cbn; [|split; [lia|done]].
  split; [lia|]. unfold spacing_delay. cbn.
  destruct (Z.gtb_spec (Z.max (1000 - (now - ts)) 0) 0);
    destruct (Z.eqb_spec (Z.max (1000 - (now - ts)) 0) 0); try done; try lia.
  cbn. unfold timeout.
  destruct (Z.leb_spec 1 (Z.max (1000 - (now - ts)) 0)); [|lia].
  by destruct (Z.max (1000 - (now - ts)) 0 <=? TIMEOUT_MAX).
Qed.

End WorkerFacts.





(** C5, what the code does.  When the task rejects, the [catch] block ends
    the run: the callback resolves, so the job is completed for the queue
    and not failed; no stamp is written, and the store is left as it was,
    the lock included, which nobody else can take before it expires. *)
Theorem executor_failure_swallowed (u : string) (since : Z) (w : world)
    (rest : list bool) :
  outages w = true :: rest ->
  exists w',
    step (Thread u (Running since)) w = Some (Thread u (Done Completed), w') /\
    redis w' = redis w /\
    history w' = Event (TASK u) false :: history w /\
    (forall e, find (clock w) (lockKey u) (redis w) = Some e ->
               fst (acquireLock u w') <> Ok true).
Proof.
  intros Ho. unfold step. cbn.
  unfold try_catch, bind, task_settles, await, Date_now, ret.
  rewrite Ho. cbn. eexists. split; [done|]. cbn. split; [done|]. split; [done|].
  intros e He. rewrite acquireLock_unfold. cbn.
  destruct (match rest with [] => false | b :: _ => b end); [done|].
  unfold set_nx_ex. by rewrite He.
Qed.

(** A job of user 123 whose task rejects. *)
Lemma executor_failure_witness :
  let w := snd (process 3 (Thread "123" Acquire) (fresh 7 [false; false; true])) in
  exists w',
    step (Thread "123" (Running 7)) w = Some (Thread "123" (Done Completed), w') /\
    redis w' = redis w /\
    history w' = Event (TASK "123") false :: history w /\
    fst (acquireLock "123" w') <> Ok true.
Proof.
  intros w.
  destruct (executor_failure_swallowed "123" 7 w [] eq_refl)
    as (w' & H1 & H2 & H3 & H4).
  exists w'. split; [exact H1|]. split; [exact H2|]. split; [exact H3|].
  apply (H4 (Entry RLocked (Some 5007))). vm_compute. reflexivity.
Defined.

Example failed_task_run :
  let (th, w) := process 20 (Thread "123" Acquire) (fresh 7 [false; false; true]) in
  at_pc th = Done Completed /\
  find (clock w) (lockKey "123") (redis w)
  = Some (Entry RLocked (Some 5007)) /\
  get (clock w) (lastExecutionKey "123") (redis w) = None /\
  invocations w = [("123", 7)] /\
  history w = [Event (TASK "123") false;
               Event (GET (lastExecutionKey "123")) true;
               Event (SETNXEX (lockKey "123") RLocked 5) true].
Proof. vm_compute. repeat split; reflexivity. Qed.

Example successful_task_run :
  let (th, w) := process 20 (Thread "123" Acquire) (fresh 7 []) in
  at_pc th = Done Completed /\
  find (clock w) (lockKey "123") (redis w) = None /\
  get (clock w) (lastExecutionKey "123") (redis w) = Some (RInt 7) /\
  invocations w = [("123", 7)].
Proof. vm_compute. repeat split; reflexivity. Qed.

Example burst_of_25 :
  map status (fst (serve (repeat (Some "123", 5000) 25) (fresh 0 [])))
  = repeat 200 20 ++ repeat 429 5.
Proof. vm_compute. reflexivity. Qed.

(* ===================================================================== *)
(** ** Reconnection back-off *)
(* ===================================================================== *)

Section Reconnection.

Lemma retryStrategy_cases (times : Z) :
  retryStrategy times = if decide (times <= 40) then 50 * times else 2000.
Proof. unfold retryStrategy. case_decide; lia. Qed.

(** X1.  The wait before reconnection attempt [n + 1] grows by 50 ms per
    attempt, from 50 ms up to 2000 ms at the 40th attempt, and stays
    there; it never goes down.  Over the first [n] attempts the waits
    add up to [25 n (n + 1)] ms while [n <= 40] (41 s for 40 attempts)
    and to 2 s more for every attempt after that. *)
Theorem reconnection_backoff (n : nat) :
  let times := Z.of_nat n + 1 in
  50 <= retryStrategy times <= 2000 /\
  retryStrategy times = (if decide (times <= 40) then 50 * times else 2000) /\
  retryStrategy times <= retryStrategy (times + 1) /\
  waited n = (if decide (Z.of_nat n <= 40)
              then 25 * Z.of_nat n * (Z.of_nat n + 1)
              else 41000 + 2000 * (Z.of_nat n - 40)).
Proof.
  cbn zeta. rewrite !retryStrategy_cases.
  split; [repeat case_decide; lia|]. split; [done|].
  split; [repeat case_decide; lia|].
  induction n as [|n IH]; [done|].
  cbn [waited]. rewrite IH, retryStrategy_cases.
  repeat case_decide; try lia.
  assert (n = 40%nat) as -> by lia. reflexivity.
Qed.

End Reconnection.

(* ===================================================================== *)
(** ** The master keeps two replicas *)
(* ===================================================================== *)

Section Replicas.

Lemma staffed_boot : staffed boot /\ forks boot = 2%nat.
Proof.
  split; [|done]. unfold staffed. cbn. split; [done|].
  split; [|repeat constructor; lia].
  apply NoDup_cons. split; [|apply NoDup_singleton].
  by intros ?%list_elem_of_singleton.
Qed.

Lemma filter_remove_one (i : nat) (l : list nat) :
  NoDup l -> i ∈ l ->
  S (length (filter (fun j => j <> i) l)) = length l.
Proof.
  induction 1 as [|x l Hx Hl IH]; [by intros ?%elem_of_nil|].
  intros Hi. rewrite filter_cons. cbn [length].
  destruct (decide (x <> i)) as [Hne|Heq]; cbn [length].
  - f_equal. apply IH. apply elem_of_cons in Hi as [->|Hi]; done.
  - assert (x = i) as -> by (destruct (decide (x = i)); done).
    f_equal. clear IH Hi Hl. induction l as [|y l IH]; [done|].
    apply not_elem_of_cons in Hx as [Hxy Hx].
    rewrite filter_cons_True by done. cbn. f_equal. by apply IH.
Qed.

Lemma staffed_worker_exit (worker : nat) (code : Z) (m m' : master) :
  staffed m -> worker_exit worker code m = Some m' ->
  staffed m' /\ forks m' = S (forks m) /\ (worker <= forks m)%nat /\
  (worker ∉ workers m') /\
  (forall i, i ∉ workers m -> (i <= forks m)%nat -> i ∉ workers m').
Proof.
  intros (Hlen & Hnd & Hall). unfold worker_exit.
  case_decide as Hin; [|done]. intros [= <-].
  unfold on_exit, fork, staffed. cbn [workers forks].
  pose proof (filter_remove_one worker _ Hnd Hin) as Hrem.
  rewrite Forall_forall in Hall.
  split; [split; [|split]|split; [done|split; [|split]]].
  - rewrite length_app. cbn. unfold numReplicas in *. lia.
  - apply NoDup_app. split; [|split].
    + by apply NoDup_filter.
    + intros i [_ Hi]%list_elem_of_filter ->%list_elem_of_singleton.
      apply Hall in Hi. lia.
    + apply NoDup_singleton.
  - apply Forall_app. split.
    + apply Forall_forall. intros i [_ Hi]%list_elem_of_filter.
      apply Hall in Hi. lia.
    + apply Forall_singleton. lia.
  - apply Hall in Hin. lia.
  - intros [[Hi _]%list_elem_of_filter| ->%list_elem_of_singleton]%elem_of_app.
    + done.
    + apply Hall in Hin. lia.
  - intros i Hi Hle
      [[_ Hi']%list_elem_of_filter| ->%list_elem_of_singleton]%elem_of_app.
    + done.
    + lia.
Qed.

Lemma staffed_worker_exits (es : list (nat * Z)) (m m' : master) :
  staffed m -> worker_exits es m = Some m' ->
  staffed m' /\ forks m' = (forks m + length es)%nat /\
  (forall i, i ∉ workers m -> (i <= forks m)%nat -> i ∉ workers m') /\
  (forall worker code, (worker, code) ∈ es -> worker ∉ workers m').
Proof.
  revert m. induction es as [|[worker code] es IH]; intros m Hm; cbn.
  - intros [= <-]. rewrite Nat.add_0_r. repeat split; try apply Hm; auto.
    by intros ?? ?%elem_of_nil.
  - destruct (worker_exit worker code m) as [m1|] eqn:H1; [|done].
    intros Hes.
    destruct (staffed_worker_exit _ _ _ _ Hm H1)
      as (Hm1 & Hf1 & Hle & Hout & Hgone).
    destruct (IH m1 Hm1 Hes) as (Hm' & Hf' & Hgone' & Hes').
    split; [done|]. split; [lia|]. split.
    + intros i Hi Hi'. apply Hgone'; [by apply Hgone|lia].
    + intros wk cd [[= -> ->]|Hin]%elem_of_cons; [|by eapply Hes'].
      apply Hgone'; [done|lia].
Qed.

(** X2.  Once the master has forked its two replicas, whatever workers
    exit, in whatever order and with whatever codes (0 included), each
    exit is answered by one fork: two replicas are alive, under
    different ids, none of them a worker that has exited, and the
    number of forks is 2 plus the number of exits. *)
Theorem master_keeps_two (es : list (nat * Z)) (m : master) :
  worker_exits es boot = Some m ->
  length (workers m) = 2%nat /\ NoDup (workers m) /\
  forks m = (2 + length es)%nat /\
  (forall worker code, (worker, code) ∈ es -> worker ∉ workers m).
Proof.
  intros Hes. destruct staffed_boot as [Hb Hf].
  destruct (staffed_worker_exits es boot m Hb Hes)
    as ((Hlen & Hnd & _) & Hforks & _ & Hgone).
  rewrite Hf in Hforks. auto.
Qed.

Lemma master_keeps_two_witness :
  let es := [(1%nat, 1); (3%nat, 0); (2%nat, 0)] in
  match worker_exits es boot with
  | Some m => workers m = [4%nat; 5%nat] /\ length (workers m) = 2%nat
  | None => False
  end.
Proof.
  cbn zeta.
  destruct (worker_exits [(1%nat, 1); (3%nat, 0); (2%nat, 0)] boot)
    as [m|] eqn:H.
  - split; [|apply (master_keeps_two _ m H)].
    vm_compute in H. by injection H as <-.
  - vm_compute in H. discriminate.
Defined.

End Replicas.

(* ===================================================================== *)
(** ** Keys and users *)
(* ===================================================================== *)

Section KeysOfUsers.

Lemma flagKey_inj (u u' : string) : flagKey u = flagKey u' -> u = u'.
Proof. apply (inj _). Qed.

(** X3.  The four key templates never produce the same key for
    different users or windows, nor across templates, whatever the user
    ids are (colons and digits included). *)
Theorem key_families_apart (u u' : string) (m m' : Z) :
  (lockKey u = lockKey u' <-> u = u') /\
  (lastExecutionKey u = lastExecutionKey u' <-> u = u') /\
  (flagKey u = flagKey u' <-> u = u') /\
  (redisKey u m = redisKey u' m' <-> u = u' /\ m = m') /\
  lockKey u <> lastExecutionKey u' /\
  lockKey u <> flagKey u' /\
  lockKey u <> redisKey u' m' /\
  lastExecutionKey u <> flagKey u' /\
  lastExecutionKey u <> redisKey u' m' /\
  flagKey u <> redisKey u' m'.
Proof.
  split; [split; [apply lockKey_inj|by intros ->]|].
  split; [split; [apply lastExecutionKey_inj|by intros ->]|].
  split; [split; [apply flagKey_inj|by intros ->]|].
  split; [split; [apply redisKey_inj|by intros [-> ->]]|].
  auto 10 using lockKey_lastExecutionKey, lockKey_flagKey, lockKey_redisKey,
    lastExecutionKey_flagKey, lastExecutionKey_redisKey, flagKey_redisKey.
Qed.

Lemma incr_other (t : Z) (k k' : string) (s s1 : store) (n : Z) :
  incr t k s = Some (n, s1) -> k' <> k -> s1 !! k' = s !! k'.
Proof.
  unfold incr. intros H Hk.
  destruct (find t k s) as [[[n0| |] x]|]; simplify_eq;
    by rewrite lookup_insert_ne.
Qed.

Lemma expire_other (t : Z) (k k' : string) (sec : Z) (s : store) :
  k' <> k -> snd (expire t k sec s) !! k' = s !! k'.
Proof.
  unfold expire. intros Hk. destruct (find t k s); [|done].
  cbn. by rewrite lookup_insert_ne.
Qed.

Lemma post_task_other_key (user_id : option string) (w : world) (k : string) :
  k <> flagKey (default EmptyString user_id) ->
  k <> redisKey (default EmptyString user_id) (clock w / 60000) ->
  redis (snd (post_task user_id w)) !! k = redis w !! k.
Proof.
  intros Hf Hr.
  destruct (post_task_cases user_id w) as [(_ & _ & ->)|(u & -> & _ & H)];
    [done|].
  cbn [default] in Hf, Hr. cbn zeta in H.
  destruct H as [[_ ->]|[(_ & _ & ->)|(_ & n & s1 & Hi & H)]]; [done..|].
  pose proof (incr_other _ _ k _ _ _ Hi Hr) as H1.
  assert (H2 : (if n =? 1
                then snd (expire (clock w)
                            (redisKey u (clock w / 60000)) 60 s1)
                else s1) !! k = redis w !! k).
  { destruct (n =? 1); [by rewrite expire_other|done]. }
  assert (H3 : set_ex (clock w) (flagKey u) RTrue 60
                 (if n =? 1
                  then snd (expire (clock w)
                              (redisKey u (clock w / 60000)) 60 s1)
                  else s1) !! k = redis w !! k).
  { unfold set_ex. by rewrite lookup_insert_ne. }
  destruct H as [[_ [->|[->|[_ ->]]]]|[(_ & _ & ->)|(_ & _ & ->)]]; done.
Qed.

(** X4.  A request of one user reads and writes two keys at most, the
    flag of that user and the counter of that user for the running
    minute: the locks and execution stamps of all users, the flags and
    counters of the other users, and the counters of the other minutes
    are left as they were. *)
Theorem post_task_own_keys (user_id : option string) (w : world) :
  let u := default EmptyString user_id in
  let w' := snd (post_task user_id w) in
  (forall k, k <> flagKey u -> k <> redisKey u (clock w / 60000) ->
             redis w' !! k = redis w !! k) /\
  (forall u', redis w' !! lockKey u' = redis w !! lockKey u' /\
              redis w' !! lastExecutionKey u'
              = redis w !! lastExecutionKey u') /\
  (forall u' m, u' <> u ->
     redis w' !! flagKey u' = redis w !! flagKey u' /\
     redis w' !! redisKey u' m = redis w !! redisKey u' m) /\
  (forall m, m <> clock w / 60000 ->
     redis w' !! redisKey u m = redis w !! redisKey u m).
Proof.
  cbn zeta. split; [intros k; apply post_task_other_key|].
  split; [|split].
  - intros u'. split; apply post_task_other_key;
      auto using lockKey_flagKey, lockKey_redisKey, lastExecutionKey_flagKey,
        lastExecutionKey_redisKey.
  - intros u' m Hu. split; apply post_task_other_key.
    + by intros ?%flagKey_inj.
    + apply flagKey_redisKey.
    + intros H. symmetry in H. by apply flagKey_redisKey in H.
    + by intros [? _]%redisKey_inj.
  - intros m Hm. apply post_task_other_key.
    + intros H. symmetry in H. by apply flagKey_redisKey in H.
    + by intros [_ ?]%redisKey_inj.
Qed.

End KeysOfUsers.

(* ===================================================================== *)
(** ** What a request leaves in the queue and in the store *)
(* ===================================================================== *)

Section RequestsAndQueue.

(** X5.  A request answered 200 has put one job of its user, without
    delay, at the back of the queue; one answered 429 has put one job
    there with the delay [60000 - currentTime % 60000]; one answered 400
    or 500 has put nothing; there is no other answer.  For a time that
    is not negative that delay is between 1 ms and 60000 ms and ends
    exactly at the start of the next minute. *)
Theorem answers_and_queue (user_id : option string) (w : world) :
  let u := default EmptyString user_id in
  let r := fst (post_task user_id w) in
  let w' := snd (post_task user_id w) in
  let delayTime := 60000 - Z.rem (clock w) 60000 in
  (r = queued /\ taskQueue w' = taskQueue w ++ [Job u None] \/
   r = delayed /\ taskQueue w' = taskQueue w ++ [Job u (Some delayTime)] \/
   (r = bad_request \/ r = server_error) /\ taskQueue w' = taskQueue w) /\
  (r = bad_request <-> missing user_id = true) /\
  (0 <= clock w ->
   1 <= delayTime <= 60000 /\
   clock w + delayTime = 60000 * (clock w / 60000 + 1)).
Proof.
  cbn zeta. split; [|split].
  - unfold post_task. destruct (missing user_id) eqn:Hm; [by auto|].
    destruct user_id as [u|]; [|done]. cbn [default].
    unfold_handler. destruct w as [t s q iv o h].
    cbn [clock redis outages set_outages tail taskQueue invocations history].
    handler_paths; auto.
  - unfold post_task. destruct (missing user_id) eqn:Hm; [done|].
    destruct user_id as [u|]; [|done]. cbn [default].
    unfold_handler. destruct w as [t s q iv o h].
    cbn [clock redis outages set_outages tail taskQueue invocations history].
    handler_paths; done.
  - intros Ht. rewrite Z.rem_mod_nonneg by lia.
    pose proof (Z.div_mod (clock w) 60000).
    pose proof (Z.mod_pos_bound (clock w) 60000). lia.
Qed.

Lemma incr_get (t : Z) (k : string) (s s1 : store) (n : Z) :
  incr t k s = Some (n, s1) -> get t k s1 = Some (RInt n).
Proof.
  unfold incr, get, find.
  destruct (s !! k) as [[[n0| |] x]|] eqn:He; cbn.
  - destruct (live t (Entry (RInt n0) x)) eqn:Hl; intros [= <- <-];
      rewrite lookup_insert_eq; [|done].
    unfold live in *. cbn in *. by rewrite Hl.
  - destruct (live t _); [done|]. intros [= <- <-].
    by rewrite lookup_insert_eq.
  - destruct (live t _); [done|]. intros [= <- <-].
    by rewrite lookup_insert_eq.
  - intros [= <- <-]. by rewrite lookup_insert_eq.
Qed.

(** X6.  A request whose first two awaited calls resolve (the flag is
    read and not set, the counter is incremented to [n]) and whose third
    one rejects is answered 500 and puts nothing in the queue, but its
    increment stays: the slot of the minute is used up.  When it was the
    first request of the minute the rejected call is [EXPIRE], and the
    counter is left without a time to live. *)
Theorem failed_call_counts (u : string) (w : world) (n : Z) (s1 : store)
    (rest : list bool) :
  missing (Some u) = false ->
  outages w = false :: false :: true :: rest ->
  truthy (get (clock w) (flagKey u) (redis w)) = false ->
  incr (clock w) (redisKey u (clock w / 60000)) (redis w) = Some (n, s1) ->
  let r := fst (post_task (Some u) w) in
  let w' := snd (post_task (Some u) w) in
  r = server_error /\ taskQueue w' = taskQueue w /\ redis w' = s1 /\
  outages w' = rest /\
  get (clock w) (redisKey u (clock w / 60000)) (redis w') = Some (RInt n) /\
  (find (clock w) (redisKey u (clock w / 60000)) (redis w) = None ->
   n = 1 /\
   redis w' !! redisKey u (clock w / 60000) = Some (Entry (RInt 1) None) /\
   forall t', get t' (redisKey u (clock w / 60000)) (redis w')
              = Some (RInt 1)).
Proof.
  intros Hu Ho Hf Hi. cbn zeta.
  assert (Hpost : exists h',
            post_task (Some u) w
            = (server_error,
               World (clock w) s1 (taskQueue w) (invocations w) rest h')).
  { destruct w as [t s q iv o h]. cbn in Ho, Hf, Hi |- *. subst o.
    unfold_handler. rewrite Hu. cbn. rewrite Hf. cbn. rewrite Hi. cbn.
    destruct (n =? 1); cbn; [by eauto|].
    destruct (n >? 20); cbn; by eauto. }
  destruct Hpost as [h' ->]. cbn [fst snd taskQueue redis outages].
  split; [done|]. split; [done|]. split; [done|]. split; [done|].
  split; [by apply (incr_get _ _ (redis w))|].
  intros Hnone. unfold incr in Hi. rewrite Hnone in Hi.
  injection Hi as <- <-. split; [done|].
  split; [by rewrite lookup_insert_eq|].
  intros t'. unfold get, find. by rewrite lookup_insert_eq.
Qed.

Lemma failed_call_counts_witness :
  let w := fresh 30000 [false; false; true] in
  fst (post_task (Some "123") w) = server_error /\
  forall t', get t' (redisKey "123" 0) (redis (snd (post_task (Some "123") w)))
             = Some (RInt 1).
Proof.
  intros w.
  destruct (failed_call_counts "123" w 1
              (<[redisKey "123" 0 := Entry (RInt 1) None]> ∅) []
              eq_refl eq_refl eq_refl eq_refl)
    as (H1 & _ & _ & _ & _ & H6).
  split; [exact H1|]. apply H6. reflexivity.
Defined.

(** X7.  The flag outlasts the minute in which it was set.  After a
    request that went over the cap at time [t], every request of that
    user at a time [t'] with [t <= t' < t + 60000] is answered 429 and
    delayed without being counted, also when [t'] is in the next
    minute: the counter of that minute is not touched.  At
    [t + 60000] the flag is gone. *)
Theorem flag_outlasts_window (u : string) (w : world) (n t' : Z) :
  missing (Some u) = false -> outages w = [] ->
  truthy (get (clock w) (flagKey u) (redis w)) = false ->
  get (clock w) (redisKey u (clock w / 60000)) (redis w) = Some (RInt n) ->
  tasksPerMinute <= n ->
  clock w <= t' < clock w + 60000 ->
  let w1 := snd (post_task (Some u) w) in
  let r2 := fst (post_task (Some u) (set_clock t' w1)) in
  let w2 := snd (post_task (Some u) (set_clock t' w1)) in
  fst (post_task (Some u) w) = delayed /\
  r2 = delayed /\ redis w2 = redis w1 /\
  taskQueue w2
  = taskQueue w ++ [Job u (Some (60000 - Z.rem (clock w) 60000));
                    Job u (Some (60000 - Z.rem t' 60000))] /\
  (t' / 60000 <> clock w / 60000 ->
   redis w2 !! redisKey u (t' / 60000) = redis w !! redisKey u (t' / 60000)) /\
  get (clock w + 60000) (flagKey u) (redis w2) = None.
Proof.
  intros Hu Ho Hf Hg Hn Ht'. cbn zeta.
  unfold get in Hg.
  destruct (find (clock w) (redisKey u (clock w / 60000)) (redis w))
    as [[v x]|] eqn:Hfind; [|done].
  cbn in Hg. injection Hg as ->.
  assert (Hi : incr (clock w) (redisKey u (clock w / 60000)) (redis w)
               = Some (n + 1, <[redisKey u (clock w / 60000)
                                := Entry (RInt (n + 1)) x]> (redis w))).
  { unfold incr. by rewrite Hfind. }
  rewrite (post_task_exceeding u w Hu _ _ Ho Hf Hi) by lia.
  cbn [fst snd].
  set (s1 := set_ex (clock w) (flagKey u) RTrue 60
               (<[redisKey u (clock w / 60000) := Entry (RInt (n + 1)) x]>
                  (redis w))).
  assert (Hflag : s1 !! flagKey u
                  = Some (Entry RTrue (Some (clock w + 60000)))).
  { unfold s1, set_ex. by rewrite lookup_insert_eq. }
  set (w1 := World _ s1 _ _ _ _).
  assert (Hf2 : truthy (get (clock (set_clock t' w1)) (flagKey u)
                            (redis (set_clock t' w1))) = true).
  { cbn. unfold get, find. rewrite Hflag. unfold live. cbn.
    destruct (Z.ltb_spec t' (clock w + 60000)); [done|lia]. }
  rewrite (post_task_flagged u (set_clock t' w1) Hu eq_refl Hf2).
  cbn [fst snd redis taskQueue set_clock clock w1].
  split; [done|]. split; [done|]. split; [done|].
  split; [by rewrite <- app_assoc|]. split.
  - intros Hm. unfold s1, set_ex.
    rewrite lookup_insert_ne by apply flagKey_redisKey.
    rewrite lookup_insert_ne; [done|].
    by intros [_ ?]%redisKey_inj.
  - unfold get, find. rewrite Hflag. unfold live. cbn.
    destruct (Z.ltb_spec (clock w + 60000) (clock w + 60000)); [lia|done].
Qed.

Lemma flag_outlasts_window_witness :
  let w := snd (serve (repeat (Some "123", 59000) 20) (fresh 0 [])) in
  let w1 := snd (post_task (Some "123") w) in
  fst (post_task (Some "123") (set_clock 118999 w1)) = delayed /\
  redis (snd (post_task (Some "123") (set_clock 118999 w1))) !! redisKey "123" 1
  = None.
Proof.
  intros w w1.
  destruct (flag_outlasts_window "123" w 20 118999)
    as (_ & H2 & _ & _ & H5 & _).
  - reflexivity.
  - vm_compute. reflexivity.
  - vm_compute. reflexivity.
  - vm_compute. reflexivity.
  - vm_compute. discriminate.
  - vm_compute. split; [discriminate|reflexivity].
  - split; [exact H2|].
    etrans; [apply H5|]; vm_compute; [discriminate|reflexivity].
Defined.

End RequestsAndQueue.

(* ===================================================================== *)
(** ** The first twenty requests of a minute *)
(* ===================================================================== *)

Section FirstTwenty.

Context (u : string) (m : Z).
Hypothesis Hu : missing (Some u) = false.

Lemma counted_step (k t : Z) (w : world) :
  counted u m k w -> 0 <= k < tasksPerMinute -> t / 60000 = m ->
  fst (post_task (Some u) (set_clock t w)) = queued /\
  counted u m (k + 1) (snd (post_task (Some u) (set_clock t w))).
Proof.
  intros (Ho & Hflag & Hzero & Hpos) Hk Ht. unfold tasksPerMinute in Hk.
  pose proof (window_bounds t) as Hb. rewrite Ht in Hb.
  assert (Hf : truthy (get (clock (set_clock t w)) (flagKey u)
                           (redis (set_clock t w))) = false).
  { cbn. unfold get, find. by rewrite Hflag. }
  destruct (decide (k = 0)) as [->|Hk0].
  - assert (Hi : incr (clock (set_clock t w))
                   (redisKey u (clock (set_clock t w) / 60000))
                   (redis (set_clock t w))
                 = Some (1, <[redisKey u m := Entry (RInt 1) None]> (redis w))).
    { cbn. rewrite Ht. unfold incr, find. by rewrite Hzero. }
    rewrite (post_task_accepting u (set_clock t w) Hu _ _ Ho Hf Hi) by done.
    cbn [fst snd Z.eqb Pos.eqb set_clock clock]. split; [done|].
    rewrite Ht. unfold expire, find. rewrite lookup_insert_eq. cbn.
    split; [done|]. split; [|split; [lia|]]; cbn.
    + rewrite !lookup_insert_ne; [done|..];
        intros H; symmetry in H; by apply flagKey_redisKey in H.
    + intros _. exists (t + 60000). rewrite lookup_insert_eq.
      split; [done|lia].
  - destruct Hpos as (x & Hx & Hlate); [lia|].
    assert (Hi : incr (clock (set_clock t w))
                   (redisKey u (clock (set_clock t w) / 60000))
                   (redis (set_clock t w))
                 = Some (k + 1, <[redisKey u m := Entry (RInt (k + 1)) (Some x)]>
                                  (redis w))).
    { cbn. rewrite Ht. unfold incr, find. rewrite Hx. unfold live. cbn.
      destruct (Z.ltb_spec t x); [done|lia]. }
    rewrite (post_task_accepting u (set_clock t w) Hu _ _ Ho Hf Hi)
      by (unfold tasksPerMinute; lia).
    destruct (Z.eqb_spec (k + 1) 1); [lia|].
    cbn [fst snd]. split; [done|].
    split; [done|]. split; [|split; [lia|]]; cbn.
    + rewrite lookup_insert_ne; [done|].
      intros H; symmetry in H; by apply flagKey_redisKey in H.
    + intros _. exists x. by rewrite lookup_insert_eq.
Qed.

Lemma counted_full (t : Z) (w : world) :
  counted u m tasksPerMinute w -> t / 60000 = m ->
  fst (post_task (Some u) (set_clock t w)) = delayed /\
  flagged u m (snd (post_task (Some u) (set_clock t w))).
Proof.
  intros (Ho & Hflag & _ & Hpos) Ht. unfold tasksPerMinute in Hpos.
  pose proof (window_bounds t) as Hb. rewrite Ht in Hb.
  assert (Hf : truthy (get (clock (set_clock t w)) (flagKey u)
                           (redis (set_clock t w))) = false).
  { cbn. unfold get, find. by rewrite Hflag. }
  destruct Hpos as (x & Hx & Hlate); [lia|].
  assert (Hi : incr (clock (set_clock t w))
                 (redisKey u (clock (set_clock t w) / 60000))
                 (redis (set_clock t w))
               = Some (21, <[redisKey u m := Entry (RInt 21) (Some x)]>
                             (redis w))).
  { cbn. rewrite Ht. unfold incr, find. rewrite Hx. unfold live. cbn.
    destruct (Z.ltb_spec t x); [done|lia]. }
  rewrite (post_task_exceeding u (set_clock t w) Hu _ _ Ho Hf Hi)
    by (unfold tasksPerMinute; lia).
  cbn [fst snd]. split; [done|]. split; [done|]. cbn.
  exists (t + 60000). unfold set_ex. rewrite lookup_insert_eq.
  split; [done|lia].
Qed.

Lemma flagged_step (t : Z) (w : world) :
  flagged u m w -> t / 60000 = m ->
  fst (post_task (Some u) (set_clock t w)) = delayed /\
  flagged u m (snd (post_task (Some u) (set_clock t w))).
Proof.
  intros (Ho & y & Hy & Hlate) Ht.
  pose proof (window_bounds t) as Hb. rewrite Ht in Hb.
  assert (Hf : truthy (get (clock (set_clock t w)) (flagKey u)
                           (redis (set_clock t w))) = true).
  { cbn. unfold get, find. rewrite Hy. unfold live. cbn.
    destruct (Z.ltb_spec t y); [done|lia]. }
  rewrite (post_task_flagged u (set_clock t w) Hu Ho Hf). cbn [fst snd].
  split; [done|]. split; [done|]. cbn. eauto.
Qed.

Lemma serve_flagged (ts : list Z) (w : world) :
  flagged u m w -> Forall (fun t => t / 60000 = m) ts ->
  fst (serve (requests u ts) w) = repeat delayed (length ts).
Proof.
  intros Hw Hts. revert w Hw.
  induction Hts as [|t ts Ht Hts IH]; intros w Hw; [done|].
  cbn [requests map serve length repeat].
  destruct (flagged_step t w Hw Ht) as [Hr Hw'].
  destruct (post_task (Some u) (set_clock t w)) as [r w1]. cbn in Hr, Hw'.
  specialize (IH w1 Hw'). unfold requests in IH.
  destruct (serve _ w1) as [rs w2]. cbn in *. by rewrite Hr, IH.
Qed.

Lemma serve_counted (room : nat) (ts : list Z) (w : world) :
  (room <= 20)%nat -> counted u m (tasksPerMinute - Z.of_nat room) w ->
  Forall (fun t => t / 60000 = m) ts ->
  fst (serve (requests u ts) w)
  = repeat queued (Nat.min (length ts) room)
    ++ repeat delayed (length ts - room).
Proof.
  intros Hroom Hw Hts. revert room w Hroom Hw.
  induction Hts as [|t ts Ht Hts IH]; intros room w Hroom Hw; [done|].
  cbn [requests map serve length].
  destruct room as [|room].
  - rewrite Z.sub_0_r in Hw.
    destruct (counted_full t w Hw Ht) as [Hr Hw'].
    destruct (post_task (Some u) (set_clock t w)) as [r w1]. cbn in Hr, Hw'.
    pose proof (serve_flagged ts w1 Hw' Hts) as Hrest. unfold requests in Hrest.
    destruct (serve _ w1) as [rs w2]. cbn in *. by rewrite Hr, Hrest.
  - destruct (counted_step (tasksPerMinute - Z.of_nat (S room)) t w Hw)
      as [Hr Hw']; [unfold tasksPerMinute; lia|done|].
    destruct (post_task (Some u) (set_clock t w)) as [r w1]. cbn in Hr, Hw'.
    replace (tasksPerMinute - Z.of_nat (S room) + 1)
      with (tasksPerMinute - Z.of_nat room) in Hw' by lia.
    specialize (IH room w1 ltac:(lia) Hw'). unfold requests in IH.
    destruct (serve _ w1) as [rs w2]. cbn in *. by rewrite Hr, IH.
Qed.

End FirstTwenty.

(** X8.  On a fresh deployment and with no failures, of the requests of
    one user that come one after the other within one minute the first 20
    are answered 200 and all the others 429, however many there are and
    at whatever times of that minute. *)
Theorem first_twenty_accepted (u : string) (m t0 : Z) (ts : list Z) :
  missing (Some u) = false ->
  Forall (fun t => t / 60000 = m) ts ->
  fst (serve (requests u ts) (fresh t0 []))
  = repeat queued (Nat.min (length ts) 20) ++ repeat delayed (length ts - 20).
Proof.
  intros Hu Hts. apply (serve_counted u m Hu 20); [lia| |done].
  unfold counted, tasksPerMinute. cbn. rewrite !lookup_empty.
  split; [done|]. split; [done|]. split; [done|lia].
Qed.

Lemma first_twenty_accepted_witness :
  map status
    (fst (serve (requests "123" (map (fun i => 60000 + 7 * i) (seqZ 0 23)))
                (fresh 0 [])))
  = repeat 200 20 ++ repeat 429 3.
Proof.
  rewrite (first_twenty_accepted "123" 1 0).
  - reflexivity.
  - reflexivity.
  - apply (bool_decide_unpack _). vm_compute. reflexivity.
Defined.

(* ===================================================================== *)
(** ** One run of the processor *)
(* ===================================================================== *)

Section RunMoves.

Context (u : string) (w : world).
Hypothesis Ho : outages w = [].

Lemma step_Acquire_free :
  find (clock w) (lockKey u) (redis w) = None ->
  step (Thread u Acquire) w
  = Some (Thread u (GetLast (clock w)),
          World (clock w)
                (set_ex (clock w) (lockKey u) RLocked 5 (redis w))
                (taskQueue w) (invocations w) []
                (Event (SETNXEX (lockKey u) RLocked 5) true
                 :: history w)).
Proof.
  intros Hfree. destruct w as [t s q iv o h]. cbn in Ho, Hfree |- *. subst o.
  unfold step. cbn. unfold acquireLock.
  unfold try_catch, bind, redis_set_nx_ex, Date_now, await, on_redis, ret,
    set_nx_ex. cbn. by rewrite Hfree.
Qed.

Lemma step_Acquire_busy (e : entry) :
  find (clock w) (lockKey u) (redis w) = Some e ->
  step (Thread u Acquire) w
  = Some (Thread u (RetrySleep (clock w + 100)),
          World (clock w) (redis w) (taskQueue w) (invocations w) []
                (Event (SETNXEX (lockKey u) RLocked 5) true
                 :: history w)).
Proof.
  intros Hbusy. destruct w as [t s q iv o h]. cbn in Ho, Hbusy |- *. subst o.
  unfold step. cbn. unfold acquireLock.
  unfold try_catch, bind, redis_set_nx_ex, Date_now, await, on_redis, ret,
    set_nx_ex. cbn. by rewrite Hbusy.
Qed.

Lemma step_GetLast (since : Z) :
  step (Thread u (GetLast since)) w
  = Some (Thread u (ReadNow since
                      (get (clock w) (lastExecutionKey u) (redis w))),
          World (clock w) (redis w) (taskQueue w) (invocations w) []
                (Event (GET (lastExecutionKey u)) true :: history w)).
Proof.
  destruct w as [t s q iv o h]. cbn in Ho |- *. subst o. reflexivity.
Qed.

Lemma step_Running (since : Z) :
  step (Thread u (Running since)) w
  = Some (Thread u (SetLast since (clock w)),
          World (clock w) (redis w) (taskQueue w) (invocations w) []
                (Event (TASK u) true :: history w)).
Proof.
  destruct w as [t s q iv o h]. cbn in Ho |- *. subst o. reflexivity.
Qed.

Lemma step_SetLast (since stamp : Z) :
  step (Thread u (SetLast since stamp)) w
  = Some (Thread u (Release since),
          World (clock w) (set (lastExecutionKey u) (RInt stamp) (redis w))
                (taskQueue w) (invocations w) []
                (Event (SET (lastExecutionKey u) (RInt stamp)) true
                 :: history w)).
Proof.
  destruct w as [t s q iv o h]. cbn in Ho |- *. subst o. reflexivity.
Qed.

Lemma step_Release (since : Z) :
  step (Thread u (Release since)) w
  = Some (Thread u (Done Completed),
          World (clock w) (del (lockKey u) (redis w))
                (taskQueue w) (invocations w) []
                (Event (DEL (lockKey u)) true :: history w)).
Proof.
  destruct w as [t s q iv o h]. cbn in Ho |- *. subst o. reflexivity.
Qed.

End RunMoves.

Section RunAlone.

Lemma step_RetrySleep (u : string) (wake : Z) (w : world) :
  step (Thread u (RetrySleep wake)) w
  = if wake <=? clock w then Some (Thread u Acquire, w) else None.
Proof.
  unfold step. cbn. destruct (wake <=? clock w); [|done].
  by destruct w.
Qed.

Lemma spacing_delay_positive (stored : option rvalue) (now d : Z) :
  spacing_delay stored now = Some d -> 0 < d <= 1000 \/ 1000 < d.
Proof.
  unfold spacing_delay. destruct (truthy stored); [|done].
  destruct (stored ≫= to_number) as [last|]; [|done]. cbn zeta.
  destruct (Z.gtb_spec (Z.max (1000 - (now - last)) 0) 0); [|done].
  intros [= <-]. lia.
Qed.

Lemma process_S (fuel : nat) (th : thread) (w : world) :
  process (S fuel) th w
  = let w1 :=
      match at_pc th with
      | RetrySleep wake | SpacingSleep _ wake =>
          set_clock (Z.max wake (clock w)) w
      | _ => w
      end in
    match step th w1 with
    | Some (th', w') => process fuel th' w'
    | None => (th, w1)
    end.
Proof. reflexivity. Qed.

(** From the call of the task to the end of the run. *)
Lemma process_after_invoke (u : string) (since : Z) (w : world) :
  outages w = [] ->
  process 3 (Thread u (Running since)) w
  = (Thread u (Done Completed),
     World (clock w)
           (del (lockKey u)
                (set (lastExecutionKey u) (RInt (clock w)) (redis w)))
           (taskQueue w) (invocations w) []
           (Event (DEL (lockKey u)) true
            :: Event (SET (lastExecutionKey u) (RInt (clock w))) true
            :: Event (TASK u) true :: history w)).
Proof.
  intros Ho. rewrite process_S. cbn [at_pc].
  rewrite step_Running by done.
  rewrite process_S. cbn [at_pc].
  rewrite step_SetLast by done.
  rewrite process_S. cbn [at_pc].
  by rewrite step_Release.
Qed.

(** X10.  A run that finds the lock free and meets no failure goes
    through on its own: it takes the lock, waits as the stored stamp
    asks, invokes the task once, stores the time at which the task
    settled as the new stamp and releases the lock.  With stamp [ts]
    stored the wait is [max (1000 - (now - ts)) 0] ms, or 1 ms when that
    is more than the 2^31 - 1 ms a timer takes; with no stamp stored
    there is no wait.  The run leaves the queue and every other key of
    the store as they were. *)
Theorem run_completes (u : string) (w : world) (stamp : option Z) :
  outages w = [] ->
  find (clock w) (lockKey u) (redis w) = None ->
  let now := clock w in
  get now (lastExecutionKey u) (redis w) = RInt <$> stamp ->
  let wait := match stamp with
              | None => 0
              | Some ts => Z.max (1000 - (now - ts)) 0
              end in
  let pause := if wait <=? 2147483647 then wait else 1 in
  exists fuel w',
    process fuel (Thread u Acquire) w = (Thread u (Done Completed), w') /\
    clock w' = now + pause /\
    invocations w' = (u, now + pause) :: invocations w /\
    redis w' !! lockKey u = None /\
    redis w' !! lastExecutionKey u = Some (Entry (RInt (now + pause)) None) /\
    (forall k, k <> lockKey u -> k <> lastExecutionKey u ->
               redis w' !! k = redis w !! k) /\
    taskQueue w' = taskQueue w.
Proof.
  intros Ho Hfree now Hstamp wait pause.
  set (w1 := World (clock w)
               (set_ex (clock w) (lockKey u) RLocked 5 (redis w))
               (taskQueue w) (invocations w) []
               (Event (SETNXEX (lockKey u) RLocked 5) true
                :: history w)).
  set (w2 := World (clock w) (redis w1) (taskQueue w) (invocations w) []
               (Event (GET (lastExecutionKey u)) true :: history w1)).
  assert (Hget : get (clock w1) (lastExecutionKey u) (redis w1)
                 = RInt <$> stamp).
  { rewrite <- Hstamp. cbn. unfold get, find, set_ex.
    rewrite lookup_insert_ne; [done|].
    apply lockKey_lastExecutionKey. }
  assert (Hfinal : forall w3 : world,
    redis w3 = redis w1 -> taskQueue w3 = taskQueue w ->
    let s := del (lockKey u)
               (set (lastExecutionKey u) (RInt (clock w3)) (redis w3)) in
    s !! lockKey u = None /\
    s !! lastExecutionKey u = Some (Entry (RInt (clock w3)) None) /\
    forall k, k <> lockKey u -> k <> lastExecutionKey u ->
              s !! k = redis w !! k).
  { intros w3 -> _. cbn. unfold del, set, set_ex.
    split; [by rewrite lookup_delete_eq|]. split.
    - rewrite lookup_delete_ne by apply lockKey_lastExecutionKey.
      by rewrite lookup_insert_eq.
    - intros k Hk1 Hk2.
      rewrite lookup_delete_ne, !lookup_insert_ne by done. done. }
  destruct (spacing_delay_stamp stamp now) as [Hwait Hd].
  change (spec_wait stamp now) with wait in Hwait, Hd.
  change TIMEOUT_MAX with 2147483647 in Hd. fold pause in Hd.
  assert (Hpause : 0 <= pause).
  { subst pause. destruct (wait <=? 2147483647); lia. }
  destruct (spacing_delay (RInt <$> stamp) now) as [d|] eqn:Hdelay.
  - destruct (wait =? 0); [done|]. injection Hd as Hd.
    exists 7%nat. eexists.
    rewrite process_S. cbn [at_pc].
    rewrite step_Acquire_free by done. fold w1.
    rewrite process_S. cbn [at_pc].
    rewrite (step_GetLast u w1) by done. rewrite Hget.
    rewrite process_S. cbn [at_pc].
    rewrite step_ReadNow. cbn [redis taskQueue invocations clock w1].
    fold now. rewrite Hdelay, Hd.
    rewrite process_S. cbn [at_pc].
    rewrite step_SpacingSleep. cbn [set_clock clock].
    replace (Z.max (now + pause) now) with (now + pause) by lia.
    rewrite Z.leb_refl.
    rewrite process_after_invoke by done.
    split; [reflexivity|].
    cbn [clock invocations redis taskQueue invoke snd].
    split; [done|]. split; [done|].
    destruct (Hfinal (World (now + pause) (redis w1) (taskQueue w) [] [] []))
      as (H1 & H2 & H3); [done..|].
    cbn in H1, H2, H3. auto.
  - destruct (Z.eqb_spec wait 0) as [H0|]; [|done].
    assert (pause = 0) as Hp0.
    { subst pause. by rewrite H0. }
    exists 6%nat. eexists.
    rewrite process_S. cbn [at_pc].
    rewrite step_Acquire_free by done. fold w1.
    rewrite process_S. cbn [at_pc].
    rewrite (step_GetLast u w1) by done. rewrite Hget.
    rewrite process_S. cbn [at_pc].
    rewrite step_ReadNow. cbn [redis taskQueue invocations clock w1].
    fold now. rewrite Hdelay.
    rewrite process_after_invoke by done.
    split; [reflexivity|]. rewrite Hp0.
    cbn [clock invocations redis taskQueue invoke snd].
    rewrite Z.add_0_r.
    split; [done|]. split; [done|].
    destruct (Hfinal (World now (redis w1) (taskQueue w) [] [] []))
      as (H1 & H2 & H3); [done..|].
    cbn in H1, H2, H3. auto.
Qed.

Lemma run_completes_witness :
  let w := World 5000 (<[lastExecutionKey "123" := Entry (RInt 4700) None]> ∅)
                 [] [("123", 3700)] [] [] in
  exists fuel w',
    process fuel (Thread "123" Acquire) w
    = (Thread "123" (Done Completed), w') /\
    invocations w' = [("123", 5700); ("123", 3700)] /\
    redis w' !! lockKey "123" = None /\
    redis w' !! lastExecutionKey "123" = Some (Entry (RInt 5700) None).
Proof.
  intros w.
  destruct (run_completes "123" w (Some 4700) eq_refl eq_refl eq_refl)
    as (fuel & w' & H1 & _ & H3 & H4 & H5 & _).
  exists fuel, w'. split; [exact H1|]. split; [exact H3|].
  split; [exact H4|exact H5].
Defined.

End RunAlone.

Section RunFrame.

Lemma step_queue (th th' : thread) (w w' : world) :
  step th w = Some (th', w') -> taskQueue w' = taskQueue w.
Proof.
  destruct th as [u p]. unfold step. cbn [at_pc job_data].
  destruct (enabled p (clock w)); [|done].
  destruct w as [t s q iv o h]. cbn [taskQueue].
  destruct p; cbn [next].
  all: unfold acquireLock, releaseLock.
  all: unfold try_catch, bind, redis_set_nx_ex,
         redis_get, redis_set, redis_del, task_settles, invoke, Date_now,
         await, on_redis, ret; cbn.
  all: try (destruct o as [|[] o]; cbn).
  all: try (destruct (set_nx_ex t (lockKey u) RLocked 5 s)
              as [[] s']; cbn).
  all: try (destruct (spacing_delay lastExecutionTime t); cbn).
  all: by intros [= <- <-].
Qed.

Lemma transition_frame (u : string) (w w' : world) (p p' : pc) (k : string) :
  transition u w w' p p' ->
  k <> lockKey u -> k <> lastExecutionKey u ->
  redis w' !! k = redis w !! k.
Proof.
  intros Ht Hk1 Hk2.
  destruct Ht as [? -> _| -> _| ? -> _| ? -> _| ? ? ? _ -> _| ? ? _ -> _
                 | ? ? _ -> _| ? -> _| ? ? -> _| ? -> _| ? -> _];
    unfold set_ex, set, del;
    rewrite ?lookup_insert_ne, ?lookup_delete_ne by done; done.
Qed.

(** X9.  A move of a run for user [u] reads and writes the lock and the
    execution stamp of [u] and nothing else in the store: the keys of
    the other users, all flags and all counters are left as they were;
    it puts nothing in the queue and takes nothing from it, so a job
    whose task failed is not queued again by the run. *)
Theorem run_own_keys (th th' : thread) (w w' : world) :
  step th w = Some (th', w') ->
  let u := job_data th in
  job_data th' = u /\ clock w' = clock w /\ taskQueue w' = taskQueue w /\
  (forall k, k <> lockKey u -> k <> lastExecutionKey u ->
             redis w' !! k = redis w !! k) /\
  (forall u' m,
     redis w' !! flagKey u' = redis w !! flagKey u' /\
     redis w' !! redisKey u' m = redis w !! redisKey u' m /\
     (u' <> u ->
      redis w' !! lockKey u' = redis w !! lockKey u' /\
      redis w' !! lastExecutionKey u' = redis w !! lastExecutionKey u')).
Proof.
  intros Hstep. cbn zeta.
  pose proof (step_queue _ _ _ _ Hstep) as Hq.
  apply step_transition in Hstep as (Hu & Hc & Ht).
  assert (Hframe : forall k, k <> lockKey (job_data th) ->
            k <> lastExecutionKey (job_data th) ->
            redis w' !! k = redis w !! k).
  { intros k. by apply (transition_frame _ _ _ _ _ k Ht). }
  split; [done|]. split; [done|]. split; [done|]. split; [done|].
  intros u' m. split; [|split; [|intros Hne; split]]; apply Hframe.
  - intros H. symmetry in H. by apply lockKey_flagKey in H.
  - intros H. symmetry in H. by apply lastExecutionKey_flagKey in H.
  - intros H. symmetry in H. by apply lockKey_redisKey in H.
  - intros H. symmetry in H. by apply lastExecutionKey_redisKey in H.
  - by intros ?%lockKey_inj.
  - apply lockKey_lastExecutionKey.
  - intros H. symmetry in H. by apply lockKey_lastExecutionKey in H.
  - by intros ?%lastExecutionKey_inj.
Qed.

Lemma run_own_keys_witness :
  let w := World 7 (<[lockKey "456" := Entry RLocked (Some 5000)]> ∅)
                 [Job "123" None] [] [] [] in
  match step (Thread "123" Acquire) w with
  | Some (th', w') =>
      taskQueue w' = [Job "123" None] /\
      redis w' !! lockKey "456" = Some (Entry RLocked (Some 5000))
  | None => False
  end.
Proof.
  intros w.
  destruct (step (Thread "123" Acquire) w) as [[th' w']|] eqn:H.
  - destruct (run_own_keys _ _ _ _ H) as (_ & _ & Hq & _ & Hk).
    split; [exact Hq|].
    destruct (Hk "456" 0) as (_ & _ & Hl). by destruct Hl as [-> _].
  - vm_compute in H. discriminate.
Defined.

End RunFrame.

(* ===================================================================== *)
(** ** A run that finds the lock taken *)
(* ===================================================================== *)

Section StaleLock.

Context (u : string) (v : rvalue) (x : Z).

(** One try that finds the lock taken, and the 100 ms pause. *)
Lemma poll_once (fuel : nat) (w : world) (e : entry) :
  outages w = [] ->
  find (clock w) (lockKey u) (redis w) = Some e ->
  process (S (S fuel)) (Thread u Acquire) w
  = process fuel (Thread u Acquire)
      (World (clock w + 100) (redis w) (taskQueue w) (invocations w) []
             (Event (SETNXEX (lockKey u) RLocked 5) true
              :: history w)).
Proof.
  intros Ho Hbusy. rewrite process_S. cbn [at_pc].
  rewrite (step_Acquire_busy u w Ho _ Hbusy).
  rewrite process_S. cbn [at_pc]. rewrite step_RetrySleep.
  cbn [set_clock clock redis taskQueue invocations outages history].
  replace (Z.max (clock w + 100) (clock w)) with (clock w + 100) by lia.
  by rewrite Z.leb_refl.
Qed.

Lemma poll_until_free (k : nat) (w : world) :
  outages w = [] ->
  redis w !! lockKey u = Some (Entry v (Some x)) ->
  clock w + 100 * (Z.of_nat k) < x <= clock w + 100 * (Z.of_nat k + 1) ->
  exists w',
    process (2 * k + 3) (Thread u Acquire) w
    = (Thread u (GetLast (clock w + 100 * (Z.of_nat k + 1))), w') /\
    clock w' = clock w + 100 * (Z.of_nat k + 1) /\
    outages w' = [] /\
    invocations w' = invocations w /\ taskQueue w' = taskQueue w /\
    redis w' = set_ex (clock w') (lockKey u) RLocked 5 (redis w).
Proof.
  revert w. induction k as [|k IH]; intros w Ho Hlock Hx.
  all: assert (Hbusy : find (clock w) (lockKey u) (redis w)
                       = Some (Entry v (Some x)))
    by (unfold find; rewrite Hlock; unfold live; cbn;
        destruct (Z.ltb_spec (clock w) x); [done|lia]).
  - change (2 * 0 + 3)%nat with (S (S 1)).
    rewrite (poll_once _ w _ Ho Hbusy).
    rewrite process_S. cbn [at_pc].
    rewrite step_Acquire_free; [|done|].
    + eexists. split; [reflexivity|]. cbn. split; [lia|].
      split; [done|]. split; [done|]. split; [done|]. done.
    + cbn. unfold find. rewrite Hlock. unfold live. cbn.
      destruct (Z.ltb_spec (clock w + 100) x); [lia|done].
  - replace (2 * S k + 3)%nat with (S (S (2 * k + 3))) by lia.
    rewrite (poll_once _ w _ Ho Hbusy).
    match goal with
    | |- context [process _ _ ?w1] =>
        destruct (IH w1) as (w' & Hrun & Hc & Ho' & Hiv & Hq & Hr);
          [done|done|cbn; lia|]
    end.
    exists w'. cbn in Hrun, Hc, Hiv, Hq, Hr.
    replace (clock w + 100 + 100 * (Z.of_nat k + 1))
      with (clock w + 100 * (Z.of_nat (S k) + 1)) in * by lia.
    split; [done|]. split; [done|]. split; [done|]. split; [done|].
    split; done.
Qed.

(** X11.  A run that finds the lock of its user taken until [x], by a
    holder that never releases it (a run whose task failed, a replica
    that died), tries again every 100 ms and gets the lock at its first
    try at or after [x], less than 100 ms after the lock has expired;
    until then it invokes nothing.  The lock it then holds expires
    5000 ms later. *)
Theorem stale_lock_wait (w : world) :
  outages w = [] ->
  redis w !! lockKey u = Some (Entry v (Some x)) ->
  clock w < x ->
  let got := clock w + 100 * polls (clock w) x in
  x <= got < x + 100 /\
  exists fuel w',
    process fuel (Thread u Acquire) w = (Thread u (GetLast got), w') /\
    clock w' = got /\ invocations w' = invocations w /\
    redis w' !! lockKey u = Some (Entry RLocked (Some (got + 5000))).
Proof.
  intros Ho Hlock Hx. cbn zeta. unfold polls.
  pose proof (Z.div_mod (x - clock w + 99) 100 ltac:(lia)) as Hdm.
  pose proof (Z.mod_pos_bound (x - clock w + 99) 100 ltac:(lia)) as Hb.
  set (p := (x - clock w + 99) / 100) in *.
  split; [lia|].
  destruct (poll_until_free (Z.to_nat (p - 1)) w Ho Hlock)
    as (w' & Hrun & Hc & _ & Hiv & _ & Hr); [lia|].
  replace (Z.of_nat (Z.to_nat (p - 1)) + 1) with p in * by lia.
  exists (2 * Z.to_nat (p - 1) + 3)%nat, w'.
  split; [done|]. split; [done|]. split; [done|].
  rewrite Hr, Hc. unfold set_ex. by rewrite lookup_insert_eq.
Qed.

End StaleLock.

Lemma stale_lock_wait_witness :
  let w := World 1250 (<[lockKey "123" := Entry RLocked (Some 5007)]> ∅)
                 [] [("123", 7)] [] [] in
  exists fuel w',
    process fuel (Thread "123" Acquire) w = (Thread "123" (GetLast 5050), w') /\
    invocations w' = [("123", 7)].
Proof.
  intros w.
  destruct (stale_lock_wait "123" RLocked 5007 w)
    as (_ & fuel & w' & H1 & _ & H3 & _).
  - reflexivity.
  - reflexivity.
  - reflexivity.
  - exists fuel, w'. split; [exact H1|exact H3].
Defined.

(* ===================================================================== *)
(** ** No job is executed twice *)
(* ===================================================================== *)

Section AtMostOnce.

Lemma filter_insert_length {A : Type} (P : A -> bool) (l : list A) (i : nat)
    (x y : A) :
  l !! i = Some x ->
  (length (List.filter P (<[i := y]> l)) + (if P x then 1 else 0)
   = length (List.filter P l) + (if P y then 1 else 0))%nat.
Proof.
  revert i. induction l as [|a l IH]; intros [|i] Hi; try done.
  - cbn in Hi. injection Hi as ->.
    change (<[0%nat := y]> (x :: l)) with (y :: l). cbn [List.filter].
    destruct (P x), (P y); cbn [length]; lia.
  - cbn in Hi. specialize (IH i Hi).
    change (<[S i := y]> (a :: l)) with (a :: <[i := y]> l).
    cbn [List.filter]. destruct (P a); cbn [length]; lia.
Qed.

Lemma filter_both_length {A : Type} (P Q : A -> bool) (l : list A) :
  (length (List.filter (fun a => P a && Q a) l)
   <= length (List.filter P l))%nat.
Proof.
  induction l as [|a l IH]; [done|]. cbn.
  destruct (P a), (Q a); cbn; lia.
Qed.

Lemma transition_tally (u : string) (w w' : world) (p p' : pc) :
  transition u w w' p p' ->
  (invocations w' = invocations w /\
   (past_invoke p = true -> past_invoke p' = true)) \/
  (invocations w' = (u, clock w) :: invocations w /\
   past_invoke p = false /\ past_invoke p' = true).
Proof. intros Ht. destruct Ht; auto. Qed.

Lemma fire_tally (tm : timing) (l : label) (c c' : config) (u : string) :
  (invocations_of u (invocations (shared c)) <= runs_past u (runs c))%nat ->
  fire tm l c = Some c' ->
  (invocations_of u (invocations (shared c')) <= runs_past u (runs c'))%nat.
Proof.
  intros Hc. destruct l as [d|i|user_id|i|j|i']; cbn.
  - destruct (Z.leb_spec 0 d); [|done]. by intros [= <-].
  - destruct (runs c !! i) as [[u0 p]|] eqn:Hi; [|done].
    destruct (prompt_runs tm && negb (prompt (Thread u0 p) (clock (shared c))));
      [done|].
    destruct (step (Thread u0 p) (shared c)) as [[[u' p'] w']|] eqn:Hstep;
      [|done].
    intros [= <-]. cbn [shared runs].
    apply step_transition in Hstep as (Hu & _ & Ht). cbn in Hu, Ht. subst u'.
    pose proof (filter_insert_length
                  (fun th => bool_decide (job_data th = u)
                             && past_invoke (at_pc th))
                  (runs c) i (Thread u0 p) (Thread u0 p') Hi) as Hlen.
    cbn [job_data at_pc] in Hlen.
    unfold runs_past, invocations_of in *.
    destruct (transition_tally _ _ _ _ _ Ht) as [[-> Hp]|(-> & Hp & Hp')].
    + destruct (bool_decide (u0 = u)); cbn in Hlen; [|lia].
      destruct (past_invoke p); [rewrite Hp in Hlen by done|];
        destruct (past_invoke p'); lia.
    + rewrite Hp, Hp' in Hlen. cbn [List.filter fst length].
      destruct (bool_decide (u0 = u)); cbn in Hlen |- *; lia.
  - by intros [= <-].
  - destruct (calls c !! i) as [h|]; [|done].
    destruct (timely_calls tm && negb (timely h (clock (shared c)))); [done|].
    destruct (advance h (shared c)) as [[h' w']|] eqn:Hadv; [|done].
    intros [= <-]. cbn [shared runs].
    apply advance_progress in Hadv as (_ & _ & _ & -> & _). done.
  - destruct (taskQueue (shared c) !! j) as [job|]; [|done].
    intros [= <-]. cbn [shared runs invocations set_taskQueue].
    unfold runs_past in *. rewrite List.filter_app, length_app. cbn.
    rewrite andb_false_r. cbn. lia.
  - destruct (runs c !! i') as [th|]; [|done].
    intros [= <-]. cbn [shared runs].
    unfold runs_past in *. rewrite List.filter_app, length_app. cbn.
    rewrite andb_false_r. cbn. lia.
Qed.

Lemma fire_deliveries (tm : timing) (l : label) (c c' : config) :
  fire tm l c = Some c' ->
  length (runs c') = (length (runs c) + deliveries [l])%nat.
Proof.
  destruct l as [d|i|user_id|i|j|i']; cbn.
  - destruct (0 <=? d); [|done]. intros [= <-]. cbn. lia.
  - destruct (runs c !! i) as [th|]; [|done].
    destruct (prompt_runs tm && negb (prompt th (clock (shared c)))); [done|].
    destruct (step th (shared c)) as [[th' w']|]; [|done].
    intros [= <-]. cbn. rewrite length_insert. lia.
  - intros [= <-]. cbn. lia.
  - destruct (calls c !! i) as [h|]; [|done].
    destruct (timely_calls tm && negb (timely h (clock (shared c)))); [done|].
    destruct (advance h (shared c)) as [[h' w']|]; [|done].
    intros [= <-]. cbn. lia.
  - destruct (taskQueue (shared c) !! j) as [job|]; [|done].
    intros [= <-]. cbn. by rewrite length_app.
  - destruct (runs c !! i') as [th|]; [|done].
    intros [= <-]. cbn. by rewrite length_app.
Qed.

Lemma exec_deliveries (tm : timing) (ls : list label) (c c' : config) :
  exec tm ls c = Some c' ->
  length (runs c') = (length (runs c) + deliveries ls)%nat.
Proof.
  revert c. induction ls as [|l ls IH]; intros c; cbn [exec].
  - intros [= <-]. cbn. lia.
  - destruct (fire tm l c) as [c1|] eqn:Hf; [|done]. cbn. intros Hex.
    rewrite (IH c1 Hex), (fire_deliveries tm l c c1 Hf).
    unfold deliveries. cbn [List.filter].
    destruct (is_delivery l); cbn [length]; lia.
Qed.

Lemma exec_tally (tm : timing) (ls : list label) (c c' : config) (u : string) :
  (invocations_of u (invocations (shared c)) <= runs_past u (runs c))%nat ->
  exec tm ls c = Some c' ->
  (invocations_of u (invocations (shared c')) <= runs_past u (runs c'))%nat.
Proof.
  revert c. induction ls as [|l ls IH]; intros c Hc; cbn.
  - by intros [= <-].
  - destruct (fire tm l c) as [c1|] eqn:Hf; [|done].
    apply IH. by apply (fire_tally tm l c).
Qed.

(** X12.  However the runs of the processor, the request handlers and
    the clock interleave, with or without failures and however slow the
    runs are, the task is invoked at most once for each delivery of a
    job: no run calls the task twice, and nothing calls it without a
    run.  The runs are the jobs handed out at the start and one for
    each item taken from the queue and for each repeated delivery, so a
    job that the queue delivers twice can be executed twice. *)
Theorem invoked_once_per_delivery (tm : timing) (w : world)
    (users : list string) (ls : list label) (c : config) (u : string) :
  invocations w = [] ->
  exec tm ls (start w users) = Some c ->
  (invocations_of u (invocations (shared c)) <= runs_past u (runs c))%nat /\
  (runs_past u (runs c) <= runs_of u (runs c))%nat /\
  (runs_of u (runs c) <= length (runs c))%nat /\
  length (runs c) = (length users + deliveries ls)%nat.
Proof.
  intros Hiv Hex. split; [|split; [|split]].
  - apply (exec_tally tm ls (start w users)); [|done].
    unfold start. cbn [shared]. rewrite Hiv. cbn. lia.
  - apply filter_both_length.
  - apply List.filter_length_le.
  - rewrite (exec_deliveries tm ls (start w users) c Hex).
    unfold start. cbn [runs]. by rewrite length_map.
Qed.

Lemma invoked_once_per_delivery_witness :
  match exec unrestricted delivered_twice (start (fresh 0 []) ["123"]) with
  | Some c =>
      (invocations_of "123" (invocations (shared c)) <= 2)%nat /\
      length (runs c) = 2%nat
  | None => False
  end.
Proof.
  destruct (exec unrestricted delivered_twice (start (fresh 0 []) ["123"]))
    as [c|] eqn:H.
  - destruct (invoked_once_per_delivery unrestricted (fresh 0 []) ["123"]
                delivered_twice c "123" eq_refl H)
      as (H1 & H2 & H3 & H4).
    split; [|exact H4].
    etrans; [exact H1|]. etrans; [exact H2|]. etrans; [exact H3|].
    by rewrite H4.
  - vm_compute in H. discriminate.
Defined.

Example delivered_twice_invocations :
  (fun c => (invocations (shared c), map at_pc (runs c)))
    <$> exec unrestricted delivered_twice (start (fresh 0 []) ["123"])
  = Some ([("123", 1000); ("123", 0)], [Done Completed; Done Completed]).
Proof. vm_compute. reflexivity. Qed.

End AtMostOnce.

(* ===================================================================== *)
(** ** The task and its log file *)
(* ===================================================================== *)

Section LogFile.

Lemma logDir_eq (dirname : path) :
  logDir dirname = removelast dirname ++ ["node-api-cluster"; "logs"].
Proof. unfold logDir. cbn. by rewrite <- app_assoc. Qed.

Lemma logFilePath_eq (dirname : path) :
  logFilePath dirname = logDir dirname ++ ["tasks.log"].
Proof. reflexivity. Qed.

Lemma logFilePath_not_above (dirname : path) (p q : path) :
  logDir dirname = p ++ q -> p <> logFilePath dirname.
Proof.
  intros Hpq Hp. rewrite logFilePath_eq, Hpq in Hp.
  apply (f_equal length) in Hp. rewrite !length_app in Hp. cbn in Hp. lia.
Qed.

Lemma string_app_assoc (a b c : string) : (a +:+ b) +:+ c = a +:+ b +:+ c.
Proof.
  induction a as [|x a IH]; [by rewrite !append_nil|].
  by rewrite !append_cons, IH.
Qed.

Lemma string_app_nil_r (a : string) : a +:+ EmptyString = a.
Proof.
  induction a as [|x a IH]; [done|]. by rewrite append_cons, IH.
Qed.

(** What a recursive [mkdir] does: directories appear at missing paths
    along the way, and nothing else changes. *)
Lemma mkdirp_frame (above rest : path) (f f' : fs) :
  mkdirp above rest f = Some f' ->
  (forall q, f' !! q = f !! q \/
             (f !! q = None /\ f' !! q = Some Dir /\
              exists r1 r2, rest = r1 ++ r2 /\ q = above ++ r1)) /\
  (rest <> [] -> f' !! (above ++ rest) = Some Dir).
Proof.
  revert above f. induction rest as [|c rest IH]; intros above f; cbn.
  { intros [= <-]. split; [by left|done]. }
  replace (above ++ c :: rest) with ((above ++ [c]) ++ rest)
    by (by rewrite <- app_assoc).
  assert (Hpre : forall q r1 r2, rest = r1 ++ r2 -> q = (above ++ [c]) ++ r1 ->
            exists r1' r2', c :: rest = r1' ++ r2' /\ q = above ++ r1').
  { intros q r1 r2 -> ->. exists (c :: r1), r2.
    by rewrite <- app_assoc. }
  destruct (f !! (above ++ [c])) as [[|content]|] eqn:Hp; [|done|].
  - intros Hrec. destruct (IH _ _ Hrec) as [Hfr Hend]. split.
    + intros q. destruct (Hfr q) as [?|(? & ? & r1 & r2 & ? & ?)]; [by left|].
      right. eauto.
    + intros _. destruct rest as [|c' rest]; [|by apply Hend].
      cbn in Hrec. injection Hrec as <-. by rewrite app_nil_r.
  - intros Hrec. destruct (IH _ _ Hrec) as [Hfr Hend]. split.
    + intros q. destruct (decide (q = above ++ [c])) as [->|Hq].
      * right. split; [done|]. split.
        -- destruct (Hfr (above ++ [c])) as [->|(Hn & _)];
             [by rewrite lookup_insert_eq|].
           by rewrite lookup_insert_eq in Hn.
        -- by exists [c], rest.
      * destruct (Hfr q) as [->|(Hn & ? & r1 & r2 & ? & ?)];
          rewrite lookup_insert_ne in * by done; [by left|].
        right. eauto.
    + intros _. destruct rest as [|c' rest]; [|by apply Hend].
      cbn in Hrec. injection Hrec as <-.
      by rewrite app_nil_r, lookup_insert_eq.
Qed.

Lemma mkdirp_succeeds (above rest : path) (f : fs) :
  (forall r1 r2, rest = r1 ++ r2 -> r1 <> [] -> read (above ++ r1) f = None) ->
  is_Some (mkdirp above rest f).
Proof.
  revert above f. induction rest as [|c rest IH]; intros above f Hclear; cbn.
  { by eexists. }
  assert (Hc : read (above ++ [c]) f = None)
    by (apply (Hclear [c] rest); [reflexivity|discriminate]).
  unfold read in *.
  assert (Hrest : forall r1 r2, rest = r1 ++ r2 -> r1 <> [] ->
            read ((above ++ [c]) ++ r1) f = None).
  { intros r1 r2 -> _. rewrite <- app_assoc.
    apply (Hclear (c :: r1) r2); [reflexivity|discriminate]. }
  destruct (f !! (above ++ [c])) as [[|content]|] eqn:Hp; [|done|];
    apply IH; [done|].
  intros r1 r2 Hr Hr1. specialize (Hrest r1 r2 Hr Hr1).
  rewrite lookup_insert_ne; [done|].
  intros H. apply (f_equal length) in H. rewrite !length_app in H.
  cbn in H. destruct r1; [done|cbn in H; lia].
Qed.

Lemma appendFile_in_dir (dir : path) (name data : string) (f : fs) :
  appendFile false (dir ++ [name]) data f
  = if is_dir dir f then
      match f !! (dir ++ [name]) with
      | Some Dir => None
      | Some (File c) => Some (<[dir ++ [name] := File (c +:+ data)]> f)
      | None => Some (<[dir ++ [name] := File data]> f)
      end
    else None.
Proof.
  unfold appendFile. rewrite removelast_last.
  destruct (is_dir dir f); [|done]. cbn [negb].
  by destruct dir.
Qed.

Lemma appendFile_frame (denied : bool) (p : path) (data : string) (f f' : fs) :
  appendFile denied p data f = Some f' ->
  f' = <[p := File (default EmptyString (read p f) +:+ data)]> f /\
  f !! p <> Some Dir /\ is_dir (removelast p) f = true.
Proof.
  unfold appendFile, read. destruct denied; [done|].
  destruct (is_dir (removelast p) f); [|done]. cbn [negb].
  destruct p as [|c p]; [done|].
  destruct (f !! (c :: p)) as [[|content]|]; [done|..];
    intros [= <-]; done.
Qed.

(** What one task does to the files. *)
Lemma task_effect (dirname : path) (e : os) (user_id currentTime : string)
    (f : fs) :
  let r := fst (task dirname e user_id currentTime f) in
  let f' := snd (task dirname e user_id currentTime f) in
  let log := logFilePath dirname in
  (forall q, q <> log -> read q f' = read q f) /\
  (forall q, f !! q = Some Dir -> f' !! q = Some Dir) /\
  (r = Ok tt ->
   read log f'
   = Some (default EmptyString (read log f) +:+ logMessage user_id currentTime)) /\
  (r = Throw -> read log f' = read log f).
Proof.
  cbn zeta. unfold task.
  assert (Hframe : forall f1,
    (if negb (existsSync (logDir dirname) f)
     then mkdirSync (mkdir_denied e) (logDir dirname) f else Some f) = Some f1 ->
    (forall q, read q f1 = read q f) /\
    (forall q, f !! q = Some Dir -> f1 !! q = Some Dir)).
  { intros f1. destruct (negb _); [|by intros [= <-]].
    unfold mkdirSync. destruct (mkdir_denied e); [done|].
    intros [Hfr _]%mkdirp_frame. split; intros q.
    - unfold read. by destruct (Hfr q) as [->|(-> & -> & _)].
    - intros Hq. destruct (Hfr q) as [->|(Hn & _)]; [done|congruence]. }
  destruct (if negb _ then _ else _) as [f1|]; [|by cbn].
  destruct (Hframe f1 eq_refl) as [Hread Hdir].
  fold (logFilePath dirname).
  destruct (appendFile _ _ _ f1) as [f2|] eqn:Happ; cbn [fst snd].
  - apply appendFile_frame in Happ as (-> & Hnd & _).
    split; [|split; [|split; [|done]]].
    + intros q Hq. unfold read at 1. rewrite lookup_insert_ne by done.
      apply Hread.
    + intros q Hq. apply Hdir in Hq.
      rewrite lookup_insert_ne; [done|]. by intros <-.
    + intros _. unfold read at 1. rewrite lookup_insert_eq.
      by rewrite Hread.
  - split; [auto|]. split; [auto|]. split; [done|auto].
Qed.

(** X13.  Whatever the file system holds and whether the task resolves
    or rejects, the only file it changes is the log file: when it
    resolves the log file is its old content (nothing when there was no
    file) followed by the one line of this task; when it rejects no file
    has changed.  No directory is removed. *)
Theorem task_log_only (dirname : path) (e : os) (user_id currentTime : string)
    (f : fs) :
  let r := fst (task dirname e user_id currentTime f) in
  let f' := snd (task dirname e user_id currentTime f) in
  let log := logFilePath dirname in
  (forall q, q <> log -> read q f' = read q f) /\
  (forall q, f !! q = Some Dir -> f' !! q = Some Dir) /\
  (r = Ok tt ->
   read log f'
   = Some (default EmptyString (read log f) +:+ logMessage user_id currentTime)) /\
  (r = Throw -> read log f' = read log f).
Proof. apply task_effect. Qed.

(** With nothing in its way and no error of the operating system the
    task resolves, whether the log directory exists or not. *)
Lemma task_resolves (dirname : path) (user_id currentTime : string) (f : fs) :
  clear_way dirname f ->
  let f' := snd (task dirname (Os false false) user_id currentTime f) in
  fst (task dirname (Os false false) user_id currentTime f) = Ok tt /\
  f' !! logDir dirname = Some Dir /\ clear_way dirname f'.
Proof.
  intros [Hclear Hlog]. cbn zeta.
  assert (Hmk : exists f1,
    (if negb (existsSync (logDir dirname) f)
     then mkdirSync false (logDir dirname) f else Some f) = Some f1 /\
    f1 !! logDir dirname = Some Dir /\
    f1 !! logFilePath dirname = f !! logFilePath dirname).
  { pose proof (Hclear (logDir dirname) [] ltac:(by rewrite app_nil_r)) as Hd.
    unfold read in Hd. unfold existsSync.
    rewrite logDir_eq in *.
    destruct (removelast dirname ++ ["node-api-cluster"; "logs"])
      as [|c l] eqn:Hl.
    { by destruct (removelast dirname). }
    rewrite <- Hl in *. case_bool_decide as Hex; cbn [negb].
    - exists f. split; [done|]. split; [|done].
      destruct Hex as [n Hn]. rewrite Hn in Hd |- *. by destruct n.
    - unfold mkdirSync.
      destruct (mkdirp_succeeds [] (removelast dirname
                  ++ ["node-api-cluster"; "logs"]) f) as [f1 Hf1].
      { intros r1 r2 Hr _. by apply (Hclear r1 r2). }
      exists f1. split; [done|].
      apply mkdirp_frame in Hf1 as [Hfr Hend].
      split; [apply Hend; by rewrite Hl|].
      destruct (Hfr (logFilePath dirname)) as [->|(_ & _ & r1 & r2 & Hr & Hq)];
        [done|].
      exfalso. apply (logFilePath_not_above dirname r1 r2);
        [by rewrite logDir_eq|done]. }
  destruct Hmk as (f1 & Hf1 & Hdir & Hsame).
  unfold task. cbn [mkdir_denied append_denied]. rewrite Hf1.
  fold (logFilePath dirname). rewrite logFilePath_eq in *.
  rewrite appendFile_in_dir.
  assert (Hisdir : is_dir (logDir dirname) f1 = true).
  { unfold is_dir. rewrite Hdir. by destruct (logDir dirname). }
  rewrite Hisdir, Hsame.
  assert (Hkeep : forall n p q, logDir dirname = p ++ q ->
            read p (<[logDir dirname ++ ["tasks.log"] := n]> f1) = None).
  { intros n p q Hpq. unfold read. rewrite lookup_insert_ne.
    - pose proof (Hclear p q Hpq) as Hp. unfold read in Hp.
      destruct (decide (negb (existsSync (logDir dirname) f) = true))
        as [Hneg|Hneg].
      + rewrite Hneg in Hf1. unfold mkdirSync in Hf1.
        apply mkdirp_frame in Hf1 as [Hfr _].
        by destruct (Hfr p) as [->|(_ & -> & _)].
      + destruct (negb _); [done|]. by injection Hf1 as <-.
    - intros H. symmetry in H.
      by apply (logFilePath_not_above dirname p q) in H. }
  destruct (f !! (logDir dirname ++ ["tasks.log"])) as [[|c]|] eqn:Hf;
    [done|..]; cbn [fst snd]; (split; [done|]); (split; [|split]).
  all: try (rewrite lookup_insert_ne; [done|];
            intros H; apply (f_equal length) in H;
            rewrite length_app in H; cbn in H; lia).
  all: try apply Hkeep.
  all: by rewrite lookup_insert_eq.
Qed.

(** X14.  When nothing is in the way (no file sits where a directory
    of the log path goes, no directory where the log file goes) and the
    operating system reports no error, the task resolves, whether the
    log directory exists or not: it makes the directory when it is
    missing, and afterwards the log file ends with the line of this
    task. *)
Theorem task_makes_log_dir (dirname : path) (user_id currentTime : string)
    (f : fs) :
  clear_way dirname f ->
  let f' := snd (task dirname (Os false false) user_id currentTime f) in
  fst (task dirname (Os false false) user_id currentTime f) = Ok tt /\
  f' !! logDir dirname = Some Dir /\
  read (logFilePath dirname) f'
  = Some (default EmptyString (read (logFilePath dirname) f)
          +:+ logMessage user_id currentTime).
Proof.
  intros Hclear. cbn zeta.
  destruct (task_resolves dirname user_id currentTime f Hclear)
    as (Hr & Hd & _).
  destruct (task_effect dirname (Os false false) user_id currentTime f)
    as (_ & _ & Hlog & _).
  auto.
Qed.

Lemma task_makes_log_dir_witness :
  let dirname := ["srv"; "app"; "src"] in
  let f' := snd (task dirname (Os false false) "123" "1/1/2025, 10:00:00 AM" ∅) in
  f' !! ["srv"; "app"; "node-api-cluster"; "logs"] = Some Dir /\
  read ["srv"; "app"; "node-api-cluster"; "logs"; "tasks.log"] f'
  = Some ("123-task completed at-1/1/2025, 10:00:00 AM" +:+ newline).
Proof.
  intros dirname f'.
  destruct (task_makes_log_dir dirname "123" "1/1/2025, 10:00:00 AM" ∅)
    as (_ & H2 & H3).
  - split; [intros p q _; unfold read; by rewrite lookup_empty|].
    by rewrite lookup_empty.
  - split; [exact H2|exact H3].
Defined.

(** X15.  Tasks run one after the other, with nothing in the way and no
    error of the operating system, all resolve, and the log file ends
    up as its old content followed by one line per task, in the order
    in which the tasks ran. *)
Theorem tasks_log_in_order (dirname : path) (jobs : list (string * string))
    (f : fs) :
  clear_way dirname f ->
  fst (tasks dirname jobs f) = Ok tt /\
  (forall q, q <> logFilePath dirname ->
             read q (snd (tasks dirname jobs f)) = read q f) /\
  (jobs <> [] ->
   read (logFilePath dirname) (snd (tasks dirname jobs f))
   = Some (default EmptyString (read (logFilePath dirname) f)
           +:+ log_lines jobs)).
Proof.
  revert f. induction jobs as [|[user_id currentTime] jobs IH];
    intros f Hclear; [done|].
  cbn [tasks].
  destruct (task_resolves dirname user_id currentTime f Hclear)
    as (Hr & _ & Hclear').
  destruct (task_effect dirname (Os false false) user_id currentTime f)
    as (Hother & _ & Hlog & _).
  destruct (task dirname (Os false false) user_id currentTime f)
    as [r f1]. cbn [fst snd] in *. subst r.
  destruct (IH f1 Hclear') as (Hok & Hothers & Hlines).
  split; [done|]. split.
  - intros q Hq. by rewrite Hothers, Hother.
  - intros _. unfold log_lines. cbn [foldr fst snd].
    fold (log_lines jobs). destruct jobs as [|j jobs].
    + cbn [tasks snd log_lines foldr]. rewrite Hlog by done.
      by rewrite string_app_nil_r.
    + rewrite Hlines by done. rewrite Hlog by done. cbn [default id].
      by rewrite string_app_assoc.
Qed.

Lemma tasks_log_in_order_witness :
  let dirname := ["srv"; "app"; "src"] in
  let f := <[["srv"] := Dir]> ∅ in
  read ["srv"; "app"; "node-api-cluster"; "logs"; "tasks.log"]
       (snd (tasks dirname [("123", "10:00:00"); ("456", "10:00:01")] f))
  = Some (("123-task completed at-10:00:00" +:+ newline)
          +:+ "456-task completed at-10:00:01" +:+ newline).
Proof.
  intros dirname f.
  destruct (tasks_log_in_order dirname
              [("123", "10:00:00"); ("456", "10:00:01")] f) as (_ & _ & H).
  - split; [|done]. intros p q Hpq. unfold read.
    destruct (f !! p) as [[|c]|] eqn:Hp; [done| |done].
    unfold f in Hp. apply lookup_insert_Some in Hp as [[_ [=]]|[_ Hp]].
    by rewrite lookup_empty in Hp.
  - etrans; [apply H; discriminate|reflexivity].
Defined.

End LogFile.

(* ===================================================================== *)
(** ** The stand-alone worker *)
(* ===================================================================== *)

Section StandaloneWorker.

(** X16.  The callback of the stand-alone worker completes every job:
    the promise of its task resolves before the line is written.  It
    issues no store command and waits for nothing, so two jobs of one
    user handled at the same reading of the clock are invoked 0 ms
    apart.  The log directory is never made: when [./logs] is not a
    directory the append fails, the callback throws and the process
    dies with the job already completed; otherwise the log file grows
    by the line of the task and nothing else changes. *)
Theorem standalone_unguarded (cwd : path) (denied : bool)
    (currentTime : string) (job : job) (f : fs) (w : world) :
  let u := job_user job in
  let log := cwd ++ ["logs"; "tasks.log"] in
  let r := fst (fst (Standalone.process cwd denied currentTime job f w)) in
  let after := snd (fst (Standalone.process cwd denied currentTime job f w)) in
  let w' := snd (Standalone.process cwd denied currentTime job f w) in
  r = Completed /\
  redis w' = redis w /\ history w' = history w /\ clock w' = clock w /\
  invocations w' = (u, clock w) :: invocations w /\
  ~ spaced (invocations
              (snd (Standalone.process cwd denied currentTime job f w'))) /\
  (is_dir (cwd ++ ["logs"]) f = false -> after = Standalone.Crashed) /\
  (forall f', after = Standalone.Alive f' ->
     is_dir (cwd ++ ["logs"]) f = true /\
     f' = <[log := File (default EmptyString (read log f)
                         +:+ logMessage u currentTime)]> f).
Proof.
  cbn zeta. unfold Standalone.process, Standalone.task. cbn [fst snd].
  change (path_join cwd ["."; "logs"; "tasks.log"])
    with ((cwd ++ ["logs"]) ++ ["tasks.log"]).
  replace (cwd ++ ["logs"; "tasks.log"])
    with ((cwd ++ ["logs"]) ++ ["tasks.log"]) by (by rewrite <- app_assoc).
  split; [done|]. split; [done|]. split; [done|]. split; [done|].
  split; [done|]. split; [|split].
  - intros Hsp.
    specialize (Hsp 0%nat 1%nat (job_user job) (clock w) (clock w)
                    ltac:(done) eq_refl eq_refl). lia.
  - intros Hdir.
    destruct (appendFile _ _ _ f) as [f'|] eqn:Happ; [|done].
    apply appendFile_frame in Happ as (_ & _ & Hd).
    rewrite removelast_last in Hd. congruence.
  - intros f' Hf'.
    destruct (appendFile _ _ _ f) as [f1|] eqn:Happ; [|done].
    injection Hf' as ->.
    apply appendFile_frame in Happ as (-> & _ & Hd).
    by rewrite removelast_last in Hd.
Qed.

End StandaloneWorker.

(* ===================================================================== *)
(** ** Flags are earned *)
(* ===================================================================== *)

Section FlagsEarned.

Lemma over_or_under_SetFlag (n n' : Z) :
  over_or_under n = SetFlag n' -> tasksPerMinute < n'.
Proof.
  unfold over_or_under. destruct (Z.gtb_spec n tasksPerMinute); [|done].
  by intros [= <-].
Qed.

Lemma progress_flag_other (u : string) (ct : Z) (w w' : world) (s s' : stage)
    (u' : string) :
  progress u ct w w' s s' -> u' <> u ->
  redis w' !! flagKey u' = redis w !! flagKey u'.
Proof.
  intros Hp Hu. destruct Hp as [->| ->|n s1 Hi ->|n ->|n ->|t ->|n ->|s ->];
    try done.
  - apply (incr_other _ _ _ _ _ _ Hi), flagKey_redisKey.
  - apply expire_other, flagKey_redisKey.
  - unfold set_ex. rewrite lookup_insert_ne; [done|].
    by intros ?%flagKey_inj.
Qed.

Lemma progress_flag_same (u : string) (ct : Z) (w w' : world) (s s' : stage) :
  progress u ct w w' s s' ->
  redis w' !! flagKey u = redis w !! flagKey u \/
  exists n, s = SetFlag n.
Proof.
  intros Hp. destruct Hp as [->| ->|n s1 Hi ->|n ->|n ->|t ->|n ->|s ->];
    eauto.
  - left. apply (incr_other _ _ _ _ _ _ Hi), flagKey_redisKey.
  - left. apply expire_other, flagKey_redisKey.
Qed.

Lemma progress_SetFlag (u : string) (ct : Z) (w w' : world) (s s' : stage)
    (n : Z) :
  progress u ct w w' s s' -> s' = SetFlag n -> tasksPerMinute < n.
Proof.
  intros Hp. destruct Hp; try done.
  - destruct (_ =? 1); [done|]. apply over_or_under_SetFlag.
  - apply over_or_under_SetFlag.
Qed.

Lemma fire_earned (tm : timing) (l : label) (c c' : config) :
  timely_calls tm = true -> fair c -> earned c ->
  fire tm l c = Some c' -> earned c'.
Proof.
  intros Htm Hf [Hset Hflag].
  destruct l as [d|i|user_id|i|j|i']; cbn; rewrite ?Htm.
  - destruct (Z.leb_spec 0 d); [|done]. by intros [= <-].
  - destruct (runs c !! i) as [[u0 p]|] eqn:Hi; [|done].
    destruct (prompt_runs tm && negb (prompt (Thread u0 p) (clock (shared c))));
      [done|].
    destruct (step (Thread u0 p) (shared c)) as [[[u' p'] w']|] eqn:Hstep;
      [|done].
    intros [= <-]. split; cbn [shared calls]; [done|].
    apply step_transition in Hstep as (_ & _ & Ht). cbn in Ht.
    destruct (transition_rate _ _ _ _ _ Ht (fair_rate c Hf)) as [_ Hcnt].
    intros u Hu.
    rewrite (transition_frame _ _ _ _ _ (flagKey u) Ht) in Hu.
    + destruct (Hflag u Hu) as [m Hm]. exists m. by rewrite Hcnt.
    + intros H. symmetry in H. by apply lockKey_flagKey in H.
    + intros H. symmetry in H. by apply lastExecutionKey_flagKey in H.
  - intros [= <-]. split; [|done]. cbn [shared calls].
    intros i h n Hi Hs.
    apply lookup_app_Some in Hi as [Hi|[_ Hi]]; [by eapply Hset|].
    destruct (i - length (calls c))%nat; cbn in Hi; simplify_eq.
    unfold arrive in Hs. cbn in Hs. by destruct (missing user_id).
  - destruct (calls c !! i) as [h|] eqn:Hi; [|done].
    destruct (timely h (clock (shared c))) eqn:Ht; [|done]. cbn.
    destruct (advance h (shared c)) as [[h' w']|] eqn:Hadv; [|done].
    intros [= <-].
    pose proof (lookup_lt_Some _ _ _ Hi) as Hlen.
    apply advance_progress in Hadv as (Hu & Hct & _ & _ & Hp).
    destruct h as [u0 ct s], h' as [u' ct' s']. cbn in Hu, Hct, Hp.
    subst u' ct'.
    pose proof (fair_time c Hf i _ Hi) as Hpast. cbn in Hpast.
    destruct (progress_counts u0 ct _ _ _ _ (fair_rate c Hf) Hpast Ht Hp)
      as (_ & Hmono & _ & _).
    split; cbn [shared calls].
    + intros k hk n Hk Hs.
      destruct (decide (k = i)) as [->|Hki].
      * rewrite list_lookup_insert_eq in Hk by done. simplify_eq.
        cbn in Hs. by apply (progress_SetFlag _ _ _ _ _ _ _ Hp).
      * rewrite list_lookup_insert_ne in Hk by done. by eapply Hset.
    + intros u Hu.
      assert (Hold : is_Some (redis (shared c) !! flagKey u) \/
                     exists n, u = u0 /\ s = SetFlag n).
      { destruct (decide (u = u0)) as [->|Hne].
        - destruct (progress_flag_same _ _ _ _ _ _ Hp) as [Heq|[n ->]];
            [left; by rewrite <- Heq|right; eauto].
        - left. by rewrite <- (progress_flag_other _ _ _ _ _ _ u Hp). }
      destruct Hold as [Hold|(n & -> & ->)].
      * destruct (Hflag u Hold) as [m Hm]. exists m.
        specialize (Hmono u m). lia.
      * pose proof (Hset i _ n Hi eq_refl) as Hn.
        destruct (fair_ticket c Hf i _ n Hi eq_refl) as [_ Hle].
        cbn in Hle. exists (ct / 60000).
        specialize (Hmono u0 (ct / 60000)). lia.
  - destruct (taskQueue (shared c) !! j) as [job|]; [|done]. by intros [= <-].
  - destruct (runs c !! i') as [th|]; [|done]. by intros [= <-].
Qed.

Lemma exec_earned (tm : timing) (ls : list label) (c c' : config) :
  timely_calls tm = true -> fair c -> earned c ->
  exec tm ls c = Some c' -> earned c'.
Proof.
  intros Htm. revert c. induction ls as [|l ls IH]; intros c Hf He; cbn.
  - by intros [= <-].
  - destruct (fire tm l c) as [c1|] eqn:Hfire; [|done].
    apply IH; [by apply (fire_fair tm l c)|by apply (fire_earned tm l c)].
Qed.

(** X18.  From a fresh deployment, however the handlers, the runs and
    the clock interleave and whatever fails, provided every [INCR]
    reaches the store within the minute of its request: a user has a
    flag in the store only if a minute counter of that user has gone
    over the cap of 20.  Nobody is throttled without having exceeded
    the limit. *)
Theorem flag_earned (tm : timing) (t0 : Z) (o : list bool)
    (users : list string) (ls : list label) (c : config) (u : string)
    (e : entry) :
  timely_calls tm = true ->
  exec tm ls (start (fresh t0 o) users) = Some c ->
  redis (shared c) !! flagKey u = Some e ->
  exists m, tasksPerMinute < counter u m (redis (shared c)).
Proof.
  intros Htm Hex He.
  assert (Hearned : earned c).
  { apply (exec_earned tm ls (start (fresh t0 o) users)); auto.
    - apply start_fair, rate_ok_empty.
    - split; [intros i h n Hi; cbn in Hi; by rewrite lookup_nil in Hi|].
      cbn.
      intros u0 [? Hu0]. by rewrite lookup_empty in Hu0. }
  destruct Hearned as [_ Hflag]. apply Hflag. by rewrite He.
Qed.

Lemma flag_earned_witness :
  match exec (Timing false true) burst_of_22 (start (fresh 0 []) []) with
  | Some c =>
      is_Some (redis (shared c) !! flagKey "123") /\
      exists m, tasksPerMinute < counter "123" m (redis (shared c))
  | None => False
  end.
Proof.
  destruct (exec (Timing false true) burst_of_22 (start (fresh 0 []) []))
    as [c|] eqn:H; [|vm_compute in H; discriminate].
  assert (He : Some (redis (shared c) !! flagKey "123")
               = Some (Some (Entry RTrue (Some 60000)))).
  { change (Some (redis (shared c) !! flagKey "123"))
      with ((fun c => redis (shared c) !! flagKey "123") <$> Some c).
    rewrite <- H. vm_compute. reflexivity. }
  injection He as He. split; [by rewrite He|].
  exact (flag_earned (Timing false true) 0 [] [] burst_of_22 c "123" _
                     eq_refl H He).
Defined.

End FlagsEarned.

(* ===================================================================== *)
(** ** A store failure during a run *)
(* ===================================================================== *)

Section RunFailures.

(** X19.  When an awaited store call of a run rejects (taking the lock,
    reading the stamp, writing the stamp, releasing the lock), the
    [catch] block ends the run: the job is completed, the store and the
    queue are as they were, and nothing more is invoked.  So a failure
    before the task is called drops the job without its task ever being
    invoked, and a failure after the lock was taken leaves the lock to
    expire. *)
Theorem store_failure_ends_run (u : string) (p : pc) (w : world)
    (rest : list bool) :
  outages w = true :: rest ->
  p = Acquire \/ (exists since, p = GetLast since) \/
  (exists since stamp, p = SetLast since stamp) \/
  (exists since, p = Release since) ->
  exists w',
    step (Thread u p) w = Some (Thread u (Done Completed), w') /\
    redis w' = redis w /\ taskQueue w' = taskQueue w /\
    invocations w' = invocations w /\ outages w' = rest /\
    (forall fuel, process fuel (Thread u (Done Completed)) w'
                  = (Thread u (Done Completed), w')).
Proof.
  intros Ho Hp. destruct w as [t s q iv o h]. cbn in Ho. subst o.
  assert (Hdone : forall w', forall fuel,
            process fuel (Thread u (Done Completed)) w'
            = (Thread u (Done Completed), w')).
  { intros w' [|fuel]; reflexivity. }
  destruct Hp as [->|[[since ->]|[(since & stamp & ->)|[since ->]]]];
    eexists; (split; [reflexivity|]); cbn; auto.
Qed.

Lemma store_failure_ends_run_witness :
  let w := World 100 (<[lockKey "123" := Entry RLocked (Some 5100)]> ∅)
                 [] [] [true] [] in
  exists w',
    process 5 (Thread "123" (GetLast 100)) w
    = (Thread "123" (Done Completed), w') /\
    invocations w' = [] /\
    redis w' !! lockKey "123" = Some (Entry RLocked (Some 5100)).
Proof.
  intros w.
  destruct (store_failure_ends_run "123" (GetLast 100) w [] eq_refl)
    as (w' & Hstep & Hr & _ & Hiv & _ & Hdone).
  - right. left. by exists 100.
  - exists w'. split; [|split].
    + rewrite process_S. cbn [at_pc]. rewrite Hstep. apply Hdone.
    + exact Hiv.
    + by rewrite Hr.
Defined.

End RunFailures.
